(** * MIG / NCC measurement pipeline (src/main.cpp): a shallow embedding

    The program walks a three-level tree of experiment folders, sorts the
    frame names of every leaf numerically, cuts a template out of
    [frame_0.png], and writes one CSV row per frame with the pixel shift found
    by normalized cross-correlation, the shift in millimetres and the mean
    intensity gradient (MIG) of the frame.

    Layout of this file:
    - [Cxx]      : the C++ values the program computes with ([int], [double],
                   [std::string], exceptions) and the standard functions it
                   calls ([find_first_of], [substr], [std::stoi]);
    - [GnuSort]  : [std::sort] as libstdc++ implements it (introsort);
    - [Cv]       : the OpenCV rasters, headers and filters the program uses;
    - [Main]     : the functions of src/main.cpp, run in an explicit world
                   (pixel buffers, output folders and tables); what the
                   program prints to the console is left out;
    - [Examples] : concrete frames, names and folder trees;
    - what the states of a run are described with (the raster [imread]
      shows, the line of a frame, the table of a folder), [Inputs], more
      concrete folders and environments, and [Prim64], the calibration
      expressions on the kernel's binary64 numbers;
    - lemmas about the model, then the theorems on the program. *)

From Stdlib Require Import ZArith Lia List Bool Ascii String.
From Stdlib Require Import Floats.SpecFloat.
From Stdlib Require Floats.PrimFloat Floats.FloatOps Floats.FloatAxioms.
From Stdlib Require Numbers.Cyclic.Int63.Uint63.
From Stdlib Require Import Sorting.Sorted QArith Qcanon.
From stdpp Require Import base numbers list strings gmap sorting.

Local Open Scope Z_scope.

(* ===================================================================== *)
(** * C++ values and the standard library *)
(* ===================================================================== *)

Module Cxx.

(** ** [int]: 32-bit two's complement.  Signed overflow is undefined behaviour
    in C++; the model wraps, and the theorems that need exact arithmetic
    assume that no operation overflows. *)

Definition INT_MAX : Z := 2147483647.
Definition INT_MIN : Z := -2147483648.

Definition in_int (z : Z) : Prop := INT_MIN <= z <= INT_MAX.

Definition wrap_int (z : Z) : Z := (z + 2 ^ 31) mod 2 ^ 32 - 2 ^ 31.

Definition int_add (a b : Z) : Z := wrap_int (a + b).
Definition int_sub (a b : Z) : Z := wrap_int (a - b).
Definition int_mul (a b : Z) : Z := wrap_int (a * b).
(** [/] on [int] truncates toward zero: [Z.quot], not [Z.div]. *)
Definition int_div (a b : Z) : Z := wrap_int (a ÷ b).

Definition EXIT_SUCCESS : Z := 0.
Definition EXIT_FAILURE : Z := 1.

(** ** [double] and [float]: IEEE 754 binary64 and binary32, round to nearest
    even, as the Standard Library specifies them ([SpecFloat]). *)

Definition double : Type := spec_float.
Definition float : Type := spec_float.

Definition dadd : double -> double -> double := SFadd 53 1024.
Definition dsub : double -> double -> double := SFsub 53 1024.
Definition dmul : double -> double -> double := SFmul 53 1024.
Definition ddiv : double -> double -> double := SFdiv 53 1024.

Definition fadd : float -> float -> float := SFadd 24 128.
Definition fmul : float -> float -> float := SFmul 24 128.
Definition fsqrt : float -> float := SFsqrt 24 128.

(** Conversions [int -> double], [int -> float] and [float -> double]. *)
Definition double_of_int (z : Z) : double := binary_normalize 53 1024 z 0 false.
Definition float_of_int (z : Z) : float := binary_normalize 24 128 z 0 false.
Definition double_of_float (x : float) : double :=
  match x with
  | S754_finite s m e => binary_normalize 53 1024 (cond_Zopp s (Zpos m)) e s
  | _ => x
  end.

(** A decimal literal [m * 2^e] that binary64 holds exactly. *)
Definition double_lit (m e : Z) : double := binary_normalize 53 1024 m e false.

Definition is_finite (x : spec_float) : bool :=
  match x with
  | S754_zero _ | S754_finite _ _ _ => true
  | S754_infinity _ | S754_nan => false
  end.

(** ** Exceptions and results *)

Inductive exception : Type :=
  | out_of_range (what : string)
  | invalid_argument (what : string)
  | cv_Exception (what : string)
  | filesystem_error (what : string).

(** What a call does: it returns, it throws, or its behaviour is undefined
    (an access outside an array). *)
Inductive Result (A : Type) : Type :=
  | Ok (a : A)
  | Throw (e : exception)
  | Undefined.
Arguments Ok {A} a.
Arguments Throw {A} e.
Arguments Undefined {A}.

#[export] Instance Result_ret : MRet Result := fun A a => Ok a.
#[export] Instance Result_bind : MBind Result := fun A B f m =>
  match m with
  | Ok a => f a
  | Throw e => Throw e
  | Undefined => Undefined
  end.
#[export] Instance Result_fmap : FMap Result := fun A B f m =>
  match m with
  | Ok a => Ok (f a)
  | Throw e => Throw e
  | Undefined => Undefined
  end.

(** ** [std::string] *)

(** [std::string::npos], the largest [size_t]. *)
Definition npos : Z := 2 ^ 64 - 1.

Definition is_digit (c : ascii) : bool :=
  let n := Z.of_nat (nat_of_ascii c) in (48 <=? n) && (n <=? 57).

Definition digit_value (c : ascii) : Z := Z.of_nat (nat_of_ascii c) - 48.

(** [isspace] in the C locale: space, \t, \n, \v, \f, \r. *)
Definition is_space (c : ascii) : bool :=
  let n := Z.of_nat (nat_of_ascii c) in (n =? 32) || ((9 <=? n) && (n <=? 13)).

(** The position of the first decimal digit of [s]. *)
Fixpoint find_digit (s : string) : option nat :=
  match s with
  | EmptyString => None
  | String c r => if is_digit c then Some O else S <$> find_digit r
  end.

(** [s.find_first_of("0123456789")]: that position, [npos] when [s] has no
    digit. *)
Definition find_first_of_digit (s : string) : Z :=
  match find_digit s with
  | Some p => Z.of_nat p
  | None => npos
  end.

Fixpoint string_drop (n : nat) (s : string) : string :=
  match n, s with
  | O, _ => s
  | S n', String _ r => string_drop n' r
  | S _, EmptyString => EmptyString
  end.

(** [s.substr(pos)]: the suffix from [pos]; throws [std::out_of_range] when
    [pos > s.size()]. *)
Definition substr (s : string) (pos : Z) : Result string :=
  if Z.of_nat (String.length s) <? pos
  then Throw (out_of_range "basic_string::substr")
  else Ok (string_drop (Z.to_nat pos) s).

Fixpoint skip_space (s : string) : string :=
  match s with
  | String c r => if is_space c then skip_space r else s
  | EmptyString => s
  end.

(** The leading run of decimal digits of [s]. *)
Fixpoint take_digits (s : string) : list ascii :=
  match s with
  | String c r => if is_digit c then c :: take_digits r else []
  | EmptyString => []
  end.

(** The number a run of digits denotes, most significant digit first. *)
Definition decimal_value (ds : list ascii) : Z :=
  fold_left (fun acc c => 10 * acc + digit_value c) ds 0.

(** [std::stoi(s)] (base 10): skips white space, reads an optional sign and the
    digits that follow; [std::invalid_argument] when there is no digit,
    [std::out_of_range] when the value is not an [int]. *)
Definition stoi (s : string) : Result Z :=
  let s1 := skip_space s in
  let '(neg, s2) :=
    match s1 with
    | String "-" r => (true, r)
    | String "+" r => (false, r)
    | _ => (false, s1)
    end in
  match take_digits s2 with
  | [] => Throw (invalid_argument "stoi")
  | ds =>
      let v := if neg : bool then - decimal_value ds else decimal_value ds in
      if (INT_MIN <=? v) && (v <=? INT_MAX) then Ok v
      else Throw (out_of_range "stoi")
  end.

End Cxx.

(* ===================================================================== *)
(** * [std::sort] as libstdc++ implements it (bits/stl_algo.h, stl_heap.h)

    The program is built against GNU libstdc++ (it includes OpenCV from
    [<opencv4/...>], the Linux layout).  Its [std::sort] is introsort:
    quicksort with a median-of-three pivot down to ranges of 16 elements, heap
    sort when the recursion gets deeper than [2 * log2 n], and a final
    insertion sort.  The vector is a list updated by index; the comparator may
    throw, and an access outside the vector is undefined behaviour. *)
(* ===================================================================== *)

Module GnuSort.
Import Cxx.

Section Sort.
Context {A : Type}.
Variable comp : A -> A -> Result bool.

Definition aget (v : list A) (i : nat) : Result A :=
  match v !! i with
  | Some x => Ok x
  | None => Undefined
  end.

(** [std::iter_swap(a, b)] *)
Definition iter_swap (v : list A) (a b : nat) : Result (list A) :=
  x ← aget v a; y ← aget v b; Ok (<[b := x]> (<[a := y]> v)).

(** [_S_threshold] *)
Definition S_threshold : nat := 16.

(** [__unguarded_linear_insert(last, comp)]: [val = *last]; while
    [comp(val, *next)] shift [*next] one place right.  [fuel] bounds the
    [while]; stepping below index 0 is undefined. *)
Fixpoint unguarded_linear_insert_loop (fuel : nat) (v : list A) (val : A)
    (last : nat) : Result (list A) :=
  match fuel with
  | O => Undefined
  | S fuel' =>
      match last with
      | O => Undefined
      | S next =>
          x ← aget v next;
          b ← comp val x;
          if b : bool
          then unguarded_linear_insert_loop fuel' (<[last := x]> v) val next
          else Ok (<[last := val]> v)
      end
  end.

Definition unguarded_linear_insert (v : list A) (last : nat) : Result (list A) :=
  val ← aget v last;
  unguarded_linear_insert_loop (S (S last)) v val last.

(** One step of [__insertion_sort]'s [for]: element [i] of the range that
    starts at [first]. *)
Definition insertion_step (first : nat) (v : list A) (i : nat) : Result (list A) :=
  x ← aget v i;
  f ← aget v first;
  b ← comp x f;
  if b : bool
  then (* val = *i; move_backward(first, i, i + 1); *first = val *)
    Ok (take first v ++ x :: take (i - first) (drop first v) ++ drop (S i) v)
  else unguarded_linear_insert v i.

Fixpoint for_range (body : list A -> nat -> Result (list A)) (v : list A)
    (i n : nat) : Result (list A) :=
  match n with
  | O => Ok v
  | S n' => v' ← body v i; for_range body v' (S i) n'
  end.

(** [__insertion_sort(first, last, comp)] *)
Definition insertion_sort (v : list A) (first last : nat) : Result (list A) :=
  if decide (first = last) then Ok v
  else for_range (insertion_step first) v (S first) (last - S first).

(** [__unguarded_insertion_sort(first, last, comp)] *)
Definition unguarded_insertion_sort (v : list A) (first last : nat) : Result (list A) :=
  for_range unguarded_linear_insert v first (last - first).

(** [__final_insertion_sort(first, last, comp)] *)
Definition final_insertion_sort (v : list A) (first last : nat) : Result (list A) :=
  if decide (S_threshold < last - first)%nat
  then v' ← insertion_sort v first (first + S_threshold);
       unguarded_insertion_sort v' (first + S_threshold) last
  else insertion_sort v first last.

(** [__move_median_to_first(result, a, b, c, comp)] *)
Definition move_median_to_first (v : list A) (result a b c : nat) : Result (list A) :=
  xa ← aget v a; xb ← aget v b; xc ← aget v c;
  ab ← comp xa xb;
  if ab : bool then
    bc ← comp xb xc;
    if bc : bool then iter_swap v result b
    else ac ← comp xa xc;
         if ac : bool then iter_swap v result c else iter_swap v result a
  else
    ac ← comp xa xc;
    if ac : bool then iter_swap v result a
    else bc ← comp xb xc;
         if bc : bool then iter_swap v result c else iter_swap v result b.

(** [while (comp(first, pivot)) ++first;] *)
Fixpoint scan_up (fuel : nat) (v : list A) (first pivot : nat) : Result nat :=
  match fuel with
  | O => Undefined
  | S fuel' =>
      x ← aget v first; p ← aget v pivot;
      b ← comp x p;
      if b : bool then scan_up fuel' v (S first) pivot else Ok first
  end.

(** [while (comp(pivot, last)) --last;] *)
Fixpoint scan_down (fuel : nat) (v : list A) (last pivot : nat) : Result nat :=
  match fuel with
  | O => Undefined
  | S fuel' =>
      p ← aget v pivot; x ← aget v last;
      b ← comp p x;
      if b : bool
      then match last with
           | O => Undefined
           | S last' => scan_down fuel' v last' pivot
           end
      else Ok last
  end.

(** [__unguarded_partition(first, last, pivot, comp)]: returns the vector
    and the cut. *)
Fixpoint unguarded_partition (fuel : nat) (v : list A) (first last pivot : nat)
    : Result (list A * nat) :=
  match fuel with
  | O => Undefined
  | S fuel' =>
      first' ← scan_up (S (length v)) v first pivot;
      match last with
      | O => Undefined
      | S last1 =>
          last' ← scan_down (S (length v)) v last1 pivot;
          if decide (first' < last')%nat
          then v' ← iter_swap v first' last';
               unguarded_partition fuel' v' (S first') last' pivot
          else Ok (v, first')
      end
  end.

(** [__unguarded_partition_pivot(first, last, comp)] *)
Definition unguarded_partition_pivot (v : list A) (first last : nat)
    : Result (list A * nat) :=
  let mid := (first + (last - first) / 2)%nat in
  v' ← move_median_to_first v first (S first) mid (last - 1);
  unguarded_partition (S (length v)) v' (S first) last first.

(** [__push_heap(first, holeIndex, topIndex, value, comp)]; indices are
    relative to [first]. *)
Fixpoint push_heap (fuel : nat) (v : list A) (first holeIndex topIndex : nat)
    (value : A) : Result (list A) :=
  match fuel with
  | O => Undefined
  | S fuel' =>
      let parent := ((holeIndex - 1) / 2)%nat in
      if decide (topIndex < holeIndex)%nat then
        p ← aget v (first + parent);
        b ← comp p value;
        if b : bool
        then push_heap fuel' (<[(first + holeIndex)%nat := p]> v) first parent topIndex value
        else Ok (<[(first + holeIndex)%nat := value]> v)
      else Ok (<[(first + holeIndex)%nat := value]> v)
  end.

(** The [while (secondChild < (len - 1) / 2)] of [__adjust_heap]: returns
    the vector, [holeIndex] and [secondChild]. *)
Fixpoint sift_down (fuel : nat) (v : list A) (first holeIndex secondChild len : nat)
    : Result (list A * nat * nat) :=
  match fuel with
  | O => Undefined
  | S fuel' =>
      if decide (secondChild < (len - 1) / 2)%nat then
        let sc := (2 * (secondChild + 1))%nat in
        x ← aget v (first + sc); y ← aget v (first + (sc - 1));
        b ← comp x y;
        let sc' := if b : bool then (sc - 1)%nat else sc in
        z ← aget v (first + sc');
        sift_down fuel' (<[(first + holeIndex)%nat := z]> v) first sc' sc' len
      else Ok (v, holeIndex, secondChild)
  end.

(** [__adjust_heap(first, holeIndex, len, value, comp)].  [len] is a signed
    [ptrdiff_t] there: for [len < 2] the quotient [(len - 2) / 2] is not a
    child index, hence the guard [2 ≤ len] on the natural numbers. *)
Definition adjust_heap (v : list A) (first holeIndex len : nat) (value : A)
    : Result (list A) :=
  let topIndex := holeIndex in
  '(v1, hole1, sc1) ← sift_down (S len) v first holeIndex holeIndex len;
  '(v2, hole2) ←
    (if decide (2 ≤ len ∧ len mod 2 = 0 ∧ sc1 = (len - 2) / 2)%nat
     then let sc := (2 * (sc1 + 1))%nat in
          z ← aget v1 (first + (sc - 1));
          Ok (<[(first + hole1)%nat := z]> v1, (sc - 1)%nat)
     else Ok (v1, hole1));
  push_heap (S len) v2 first hole2 topIndex value.

(** [__make_heap(first, last, comp)]: [parent] runs from [(len - 2) / 2]
    down to 0. *)
Fixpoint make_heap_loop (v : list A) (first len parent : nat) : Result (list A) :=
  value ← aget v (first + parent);
  v' ← adjust_heap v first parent len value;
  match parent with
  | O => Ok v'
  | S parent' => make_heap_loop v' first len parent'
  end.

Definition make_heap (v : list A) (first last : nat) : Result (list A) :=
  if decide (last - first < 2)%nat then Ok v
  else let len := (last - first)%nat in
       make_heap_loop v first len ((len - 2) / 2).

(** [__pop_heap(first, last, result, comp)] *)
Definition pop_heap (v : list A) (first last result : nat) : Result (list A) :=
  value ← aget v result;
  f ← aget v first;
  adjust_heap (<[result := f]> v) first 0 (last - first) value.

(** [__heap_select(first, middle, last, comp)] *)
Definition heap_select (v : list A) (first middle last : nat) : Result (list A) :=
  v' ← make_heap v first middle;
  for_range (fun v i =>
               x ← aget v i; f ← aget v first;
               b ← comp x f;
               if b : bool then pop_heap v first middle i else Ok v)
            v' middle (last - middle).

(** [__sort_heap(first, last, comp)]: [while (last - first > 1)]. *)
Fixpoint sort_heap (fuel : nat) (v : list A) (first last : nat) : Result (list A) :=
  match fuel with
  | O => Undefined
  | S fuel' =>
      if decide (1 < last - first)%nat
      then v' ← pop_heap v first (last - 1) (last - 1);
           sort_heap fuel' v' first (last - 1)
      else Ok v
  end.

(** [__partial_sort(first, middle, last, comp)] *)
Definition partial_sort (v : list A) (first middle last : nat) : Result (list A) :=
  v' ← heap_select v first middle last;
  sort_heap (S (length v)) v' first middle.

(** [__introsort_loop(first, last, depth_limit, comp)]: every turn of its
    [while] decrements [depth_limit], so the recursion is on it. *)
Fixpoint introsort_loop (depth_limit : nat) (v : list A) (first last : nat)
    : Result (list A) :=
  if decide (S_threshold < last - first)%nat then
    match depth_limit with
    | O => partial_sort v first last last
    | S depth_limit' =>
        '(v1, cut) ← unguarded_partition_pivot v first last;
        v2 ← introsort_loop depth_limit' v1 cut last;
        introsort_loop depth_limit' v2 first cut
    end
  else Ok v.

(** [std::sort(v.begin(), v.end(), comp)] *)
Definition sort (v : list A) : Result (list A) :=
  let first := 0%nat in
  let last := length v in
  if decide (first = last) then Ok v
  else v' ← introsort_loop (Nat.log2 (last - first) * 2) v first last;
       final_insertion_sort v' first last.

End Sort.
End GnuSort.

(* ===================================================================== *)
(** * OpenCV rasters and the filters the program calls

    What OpenCV documents for the calls of src/main.cpp, with the default
    arguments the program leaves out ([borderType = BORDER_DEFAULT], which is
    [BORDER_REFLECT_101]; [scale = 1]; [delta = 0]). *)
(* ===================================================================== *)

Module Cv.
Import Cxx.

(** A single-channel 8-bit raster ([CV_8UC1], what [imread] returns under
    [IMREAD_GRAYSCALE]): [rows * cols] pixels, row after row. *)
Record Image : Type := { rows : Z; cols : Z; pix : list Z }.

(** A single-channel [float] raster ([CV_32FC1], [cv::Mat1f]). *)
Record Mat1f : Type := { frows : Z; fcols : Z; fpix : list float }.

Definition no_image : Image := {| rows := 0; cols := 0; pix := [] |}.

(** [img.at<uchar>(r, c)] *)
Definition pixel (img : Image) (r c : Z) : Z :=
  default 0 (pix img !! Z.to_nat (r * cols img + c)).

(** The pixels of a well-formed raster. *)
Definition wf_image (img : Image) : Prop :=
  0 <= rows img ∧ 0 <= cols img ∧
  length (pix img) = Z.to_nat (rows img * cols img) ∧
  Forall (fun p => 0 <= p <= 255) (pix img).

(** Every pixel of [img] has the intensity [v]. *)
Definition uniform (img : Image) (v : Z) : Prop :=
  ∀ r c, 0 <= r < rows img → 0 <= c < cols img → pixel img r c = v.

(** The window of [h] rows and [w] columns of [img] whose top-left pixel is
    [(x, y)] (column, row). *)
Definition crop (img : Image) (x y w h : Z) : Image :=
  {| rows := h; cols := w;
     pix := r ← seqZ 0 h; c ← seqZ 0 w; [pixel img (y + r) (x + c)] |}.

(** [borderInterpolate(p, len, BORDER_REFLECT_101)]: the index, inside
    [0 .. len - 1], of the pixel that stands for position [p]
    ([gfedcb|abcdefgh|gfedcba]). *)
Fixpoint reflect_101 (fuel : nat) (p len : Z) : Z :=
  match fuel with
  | O => p
  | S fuel' =>
      let p' := if p <? 0 then - p - 1 + 1 else len - 1 - (p - len) - 1 in
      if (0 <=? p') && (p' <? len) then p' else reflect_101 fuel' p' len
  end.

Definition borderInterpolate (p len : Z) : Z :=
  if (0 <=? p) && (p <? len) then p
  else if len =? 1 then 0
  else reflect_101 (Z.to_nat (Z.abs p) + 2) p len.

(** [getDerivKernels] for [ksize = 3]: the smoothing row [1 2 1] for order 0,
    the difference [-1 0 1] for order 1, [1 -2 1] for order 2. *)
Definition sobel_kernel (order : Z) : list Z :=
  if order =? 0 then [1; 2; 1]
  else if order =? 1 then [-1; 0; 1]
  else [1; -2; 1].

(** The response of the separable 3x3 kernel at pixel [(r, c)]: a sum of at
    most nine products of 8-bit pixels with weights of magnitude at most 2,
    an integer that [float] holds exactly. *)
Definition sobel_at (src : Image) (kx ky : list Z) (r c : Z) : Z :=
  foldr Z.add 0
    ('(i, wy) ← zip (seqZ (-1) 3) ky;
     '(j, wx) ← zip (seqZ (-1) 3) kx;
     [wy * wx * pixel src (borderInterpolate (r + i) (rows src))
                          (borderInterpolate (c + j) (cols src))]).

(** [cv::Sobel(src, dst, CV_32F, dx, dy, 3)] *)
Definition Sobel (src : Image) (dx dy : Z) : Mat1f :=
  {| frows := rows src; fcols := cols src;
     fpix := r ← seqZ 0 (rows src); c ← seqZ 0 (cols src);
             [float_of_int (sobel_at src (sobel_kernel dx) (sobel_kernel dy) r c)] |}.

(** [cv::magnitude(x, y, mag)]: [sqrt(x^2 + y^2)] at every pixel, in [float]. *)
Definition magnitude (x y : Mat1f) : Mat1f :=
  {| frows := frows x; fcols := fcols x;
     fpix := zip_with (fun a b => fsqrt (fadd (fmul a a) (fmul b b))) (fpix x) (fpix y) |}.

(** [cv::sum(m)[0]]: the pixels of a [float] raster added up in a [double]
    accumulator (row after row: the order OpenCV's vectorised loop uses is
    not documented). *)
Definition sum (m : Mat1f) : double :=
  fold_left (fun acc x => dadd acc (double_of_float x)) (fpix m) (S754_zero false).

(** ** [cv::Mat]: a header over a shared pixel buffer

    A [cv::Mat] is a header (size, and where its window starts) over a
    reference-counted buffer; copying a header or taking a sub-rectangle
    shares the buffer, [copyTo] allocates a new one.  The heap is the list of
    the buffers allocated so far. *)

Record Mat : Type := {
  m_rows : Z;
  m_cols : Z;
  m_data : option nat;   (* the buffer, [None] for a null [data] pointer *)
  m_x : Z;               (* column and row of the window's first pixel *)
  m_y : Z
}.

Abbreviation Heap := (list Image).

(** A default-constructed [cv::Mat]. *)
Definition Mat_default : Mat :=
  {| m_rows := 0; m_cols := 0; m_data := None; m_x := 0; m_y := 0 |}.

(** [m.empty()]: [data == 0 || total() == 0]. *)
Definition Mat_empty (m : Mat) : bool :=
  match m_data m with
  | None => true
  | Some _ => m_rows m * m_cols m =? 0
  end.

(** The raster a header shows; an empty [Mat] shows none. *)
Definition Mat_read (h : Heap) (m : Mat) : Image :=
  match m_data m with
  | None => no_image
  | Some l =>
      if m_rows m * m_cols m =? 0 then no_image
      else match h !! l with
           | Some buf => crop buf (m_x m) (m_y m) (m_cols m) (m_rows m)
           | None => no_image
           end
  end.

(** The header points into the heap. *)
Definition Mat_valid (h : Heap) (m : Mat) : Prop :=
  match m_data m with
  | None => True
  | Some l => (l < length h)%nat
  end.

(** A new buffer holding [img], and the header over all of it. *)
Definition Mat_alloc (h : Heap) (img : Image) : Heap * Mat :=
  (h ++ [img],
   {| m_rows := rows img; m_cols := cols img; m_data := Some (length h);
      m_x := 0; m_y := 0 |}).

(** [src.copyTo(dst)] into a default-constructed [dst]: an empty [src] leaves
    [dst] empty, otherwise [dst] gets a buffer of its own with the pixels of
    [src]. *)
Definition copyTo (h : Heap) (src : Mat) : Heap * Mat :=
  if Mat_empty src then (h, Mat_default)
  else Mat_alloc h (Mat_read h src).

(** [m(cv::Rect(x, y, width, height))]: a header over the same buffer;
    a rectangle that does not lie inside [m] fails a [CV_Assert]. *)
Definition Mat_roi (m : Mat) (x y width height : Z) : Result Mat :=
  if decide (0 <= x ∧ 0 <= width ∧ x + width <= m_cols m ∧
             0 <= y ∧ 0 <= height ∧ y + height <= m_rows m)
  then
    if decide (height <= 0 ∨ width <= 0) then Ok Mat_default
    else Ok {| m_rows := height; m_cols := width; m_data := m_data m;
               m_x := m_x m + x; m_y := m_y m + y |}
  else Throw (cv_Exception "Mat::Mat(const Mat&, const Rect&)").

(** [cv::imread(path, IMREAD_GRAYSCALE)]: the decoded raster in a buffer of
    its own; an empty [Mat] when there is no such file or it does not decode. *)
Definition imread (h : Heap) (decoded : option Image) : Heap * Mat :=
  match decoded with
  | Some img => if rows img * cols img =? 0 then (h, Mat_default) else Mat_alloc h img
  | None => (h, Mat_default)
  end.

(** What [cv::minMaxLoc] reports. *)
Record Point : Type := { x : Z; y : Z }.
Record MinMax : Type := {
  minVal : double; maxVal : double; minLoc : Point; maxLoc : Point
}.

End Cv.

(* ===================================================================== *)
(** * src/main.cpp *)
(* ===================================================================== *)

Module Main.
Import Cxx Cv.

(** ** The arithmetic of the calibration transform

    The program computes the transform in [double].  The same expression is
    also read over the rationals, to tell what it computes exactly from what
    rounding adds. *)

Class Num (R : Type) : Type := {
  nadd : R -> R -> R;
  nsub : R -> R -> R;
  nmul : R -> R -> R;
  ndiv : R -> R -> R;
  of_int : Z -> R
}.

#[export] Instance Num_double : Num double :=
  {| nadd := dadd; nsub := dsub; nmul := dmul; ndiv := ddiv; of_int := double_of_int |}.

#[export] Instance Num_Qc : Num Qc :=
  {| nadd := Qcplus; nsub := Qcminus; nmul := Qcmult; ndiv := Qcdiv;
     of_int := fun z => Qc_of_Z z |}.

(** The four entries of the transformation matrix. *)
Record CalibrationMatrix (R : Type) : Type := {
  Txx : R; Txy : R; Tyx : R; Tyy : R
}.
Arguments Txx {R} _.
Arguments Txy {R} _.
Arguments Tyx {R} _.
Arguments Tyy {R} _.

(** main.cpp:100-103: [Txx = -256.75], [Txy = 2.5], [Tyx = 3.5],
    [Tyy = 260.5]; binary64 holds the four exactly. *)
Definition T_fixed : CalibrationMatrix double :=
  {| Txx := double_lit (-1027) (-2); Txy := double_lit 5 (-1);
     Tyx := double_lit 7 (-1); Tyy := double_lit 521 (-1) |}.

(** The same matrix over the rationals. *)
Definition T_fixed_Qc : CalibrationMatrix Qc :=
  {| Txx := Qc_of_Z (-1027) / Qc_of_Z 4; Txy := Qc_of_Z 5 / Qc_of_Z 2;
     Tyx := Qc_of_Z 7 / Qc_of_Z 2; Tyy := Qc_of_Z 521 / Qc_of_Z 2 |}%Qc.

(** main.cpp:198-199: the determinant every frame divides by. *)
Definition det {R} `{Num R} (T : CalibrationMatrix R) : R :=
  nsub (nmul (Txx T) (Tyy T)) (nmul (Txy T) (Tyx T)).

(** main.cpp:198: [shift_col_mm] *)
Definition shift_col_mm {R} `{Num R} (T : CalibrationMatrix R) (shift_row shift_col : Z) : R :=
  ndiv (nsub (nmul (of_int shift_col) (Tyy T)) (nmul (of_int shift_row) (Txy T)))
       (nsub (nmul (Txx T) (Tyy T)) (nmul (Txy T) (Tyx T))).

(** main.cpp:199: [shift_row_mm] *)
Definition shift_row_mm {R} `{Num R} (T : CalibrationMatrix R) (shift_row shift_col : Z) : R :=
  ndiv (nsub (nmul (of_int shift_row) (Txx T)) (nmul (of_int shift_col) (Tyx T)))
       (nsub (nmul (Txx T) (Tyy T)) (nmul (Txy T) (Tyx T))).

(** The forward matrix [[Txx, Txy], [Tyx, Tyy]] applied to a displacement
    [(dist_x, dist_y)].  The program never applies it; this follows the
    words of the round-trip property of the specification. *)
Definition forward_matrix {R} `{Num R} (T : CalibrationMatrix R) (dist_x dist_y : R) : R * R :=
  (nadd (nmul (Txx T) dist_x) (nmul (Txy T) dist_y),
   nadd (nmul (Tyx T) dist_x) (nmul (Tyy T) dist_y)).

(** [|a - b| <= tol], computed in [double] as a test of the round trip
    would compute it. *)
Definition within_tolerance (a b tol : double) : bool :=
  SFleb (SFabs (dsub a b)) tol.

(** The round trip of one shift through the compiled-in matrix, in [double]:
    both coordinates come back within [tol]. *)
Definition round_trip_within (tol : double) (shift_row shift_col : Z) : bool :=
  let '(col', row') :=
    forward_matrix T_fixed (shift_col_mm T_fixed shift_row shift_col)
                           (shift_row_mm T_fixed shift_row shift_col) in
  within_tolerance col' (double_of_int shift_col) tol
  && within_tolerance row' (double_of_int shift_row) tol.

(** main.cpp:106 *)
Definition roi_w : Z := 128.
Definition roi_h : Z := 128.
Definition topLeft_x : Z := 300.
Definition topLeft_y : Z := 208.
Definition frameWidth : Z := 728.
Definition frameHeight : Z := 544.

(** ** [mig_frame] (main.cpp:264-278) *)

(** [frame.empty()] for the raster a [const cv::Mat &] shows. *)
Definition Image_empty (frame : Image) : bool := rows frame * cols frame =? 0.

Definition mig_frame (frame : Image) : double :=
  if Image_empty frame
  then double_of_int EXIT_FAILURE
  else
    let dx := Sobel frame 1 0 in
    let dy := Sobel frame 0 1 in
    let mag := magnitude dx dy in
    let total := sum mag in
    ddiv total (double_of_int (int_mul (rows frame) (cols frame))).

(** ** The frame-name comparator (main.cpp:171-178) *)

Definition frame_less (a b : string) : Result bool :=
  num_a ← substr a (find_first_of_digit a);
  num_b ← substr b (find_first_of_digit b);
  int_a ← stoi num_a;
  int_b ← stoi num_b;
  Ok (int_a <? int_b).

(** The index the comparator reads in a file name. *)
Definition frame_index (a : string) : Result Z :=
  num_a ← substr a (find_first_of_digit a); stoi num_a.

(** ** What the specification says the sequencer reads: the first maximal
    run of decimal digits of the name, as an unbounded integer; [None] when
    the name has no digit. *)
Fixpoint first_digit_run (s : string) : list ascii :=
  match s with
  | EmptyString => []
  | String c r => if is_digit c then take_digits s else first_digit_run r
  end.

Definition spec_index (s : string) : option Z :=
  match first_digit_run s with
  | [] => None
  | ds => Some (decimal_value ds)
  end.

(** ** What the C++ standard promises of [std::sort] ([alg.sort]): the
    range holds the same elements afterwards, and no element compares less
    than one that stands before it. *)
Definition sorted_by (comp : string -> string -> Result bool) (out : list string) : Prop :=
  ∀ i j a b, (i < j)%nat → out !! i = Some a → out !! j = Some b → comp b a = Ok false.

Definition std_sort_post
    (std_sort : (string -> string -> Result bool) -> list string -> Result (list string))
    (comp : string -> string -> Result bool) (v : list string) : Prop :=
  ∃ out, std_sort comp v = Ok out ∧ v ≡ₚ out ∧ sorted_by comp out.

(** The index of a name as a number (0 for a name without digits). *)
Definition idx (name : string) : Z := default 0 (spec_index name).

(** Every name of the leaf has a first run of digits, and the run denotes an
    [int] (at most [INT_MAX]). *)
Definition indexed (names : list string) : Prop :=
  Forall (λ n, ∃ k, spec_index n = Some k ∧ k <= INT_MAX) names.

(** A stable sort, in the words of the specification: the names of any one
    index stand in the output in the order they had in the input. *)
Definition keeps_input_order (names out : list string) : Prop :=
  ∀ k, filter (λ n, spec_index n = Some k) out = filter (λ n, spec_index n = Some k) names.

(** The two hypotheses above as tests that run on a concrete leaf. *)
Definition indexedb (names : list string) : bool :=
  forallb (λ n, match spec_index n with Some k => k <=? INT_MAX | None => false end) names.

Fixpoint sorted_byb (comp : string -> string -> Result bool) (out : list string) : bool :=
  match out with
  | [] => true
  | a :: rest =>
      forallb (λ b, match comp b a with Ok false => true | _ => false end) rest
      && sorted_byb comp rest
  end.

(** ** The state the program runs in *)

(** [struct LocAndConf] (main.cpp:28-33) *)
Record LocAndConf : Type := {
  match_loc : Point;
  confidence : double;
  shift_row : Z;
  shift_col : Z
}.

(** A line of Results.csv: the header (main.cpp:158) or the values of one
    frame (main.cpp:217-224; the four error columns stay empty). *)
Record CsvRow : Type := {
  pixel_shift_x : Z;
  pixel_shift_y : Z;
  confidence_pct : double;
  dist_x_mm : double;
  dist_y_mm : double;
  mig : double
}.
Inductive CsvLine : Type :=
  | Header
  | Data (r : CsvRow).

(** The input tree under [root_path]: every entry has its file name; a file
    is what [imread] decodes from it, a directory lists its entries in the
    order [directory_iterator] yields them. *)
#[warnings="-register-all"]
Inductive node : Type :=
  | File (name : string) (decoded : Image)
  | Dir (name : string) (entries : list node).

(** [entry.path().filename().string()] *)
Definition filename (n : node) : string :=
  match n with
  | File name _ => name
  | Dir name _ => name
  end.

(** What the program reads, and does not change: the input tree ([None]: no
    such path), whether Results.csv opens at a path, whether a directory can
    be created at a path. *)
Record Env : Type := {
  fs_root : option node;
  csv_opens : string -> bool;
  mkdir_ok : string -> bool
}.

(** What the program changes: the pixel buffers, the output directories and
    the CSV files, and (a record kept beside the program) the rasters every
    call of [cv::matchTemplate] was given. *)
Record World : Type := {
  heap : Heap;
  out_dirs : gset string;
  out_files : gmap string (list CsvLine);
  match_calls : list (Image * Image)
}.

Definition set_heap (w : World) (h : Heap) : World :=
  {| heap := h; out_dirs := out_dirs w; out_files := out_files w;
     match_calls := match_calls w |}.

(** A computation over the world that returns, throws, or is undefined. *)
Definition M (A : Type) : Type := World -> World * Result A.

#[export] Instance M_ret : MRet M := fun A a w => (w, Ok a).
#[export] Instance M_bind : MBind M := fun A B f m w =>
  match m w with
  | (w', Ok a) => f a w'
  | (w', Throw e) => (w', Throw e)
  | (w', Undefined) => (w', Undefined)
  end.

Definition lift {A} (r : Result A) : M A := fun w => (w, r).

(** A function over the heap as a computation over the world. *)
Definition on_heap {A} (f : Heap -> Heap * A) : M A := fun w =>
  let '(h, a) := f (heap w) in (set_heap w h, Ok a).

(** How a loop body ends: it falls through to the next turn, or the function
    [return]s from inside the loop. *)
Inductive ctrl : Type :=
  | Continue
  | Return (code : Z).

(** [for (const auto &x : xs) body] *)
Fixpoint for_each {X} (xs : list X) (body : X -> M ctrl) : M ctrl :=
  match xs with
  | [] => mret Continue
  | x :: xs' =>
      c ← body x;
      match c with
      | Continue => for_each xs' body
      | Return code => mret (Return code)
      end
  end.

Section Program.
(** The two OpenCV primitives of the matcher, and [std::sort]. *)

(** [cv::matchTemplate(image, templ, result, TM_CCORR_NORMED)]: from the two
    rasters, the result map, and what the two buffers it was handed hold
    afterwards (OpenCV takes them as read-only inputs; the model lets the
    primitive write to them), or an exception. *)
Variable matchTemplate_prim : Image -> Image -> Result (Image * Image * Mat1f).
(** [cv::minMaxLoc(result, &minVal, &maxVal, &minLoc, &maxLoc)] *)
Variable minMaxLoc_prim : Mat1f -> Result MinMax.
(** [std::sort(first, last, comp)] on a vector of strings *)
Variable std_sort : (string -> string -> Result bool) -> list string -> Result (list string).

Definition store (h : Heap) (m : Mat) (img : Image) : Heap :=
  match m_data m with
  | Some l => <[l := img]> h
  | None => h
  end.

Definition matchTemplate (image templ : Mat) : M Mat1f := fun w =>
  let I := Mat_read (heap w) image in
  let T := Mat_read (heap w) templ in
  let w1 := {| heap := heap w; out_dirs := out_dirs w; out_files := out_files w;
               match_calls := match_calls w ++ [(I, T)] |} in
  match matchTemplate_prim I T with
  | Ok (I', T', result) => (set_heap w1 (store (store (heap w) image I') templ T'), Ok result)
  | Throw e => (w1, Throw e)
  | Undefined => (w1, Undefined)
  end.

(** ** [get_roi] (main.cpp:280-287) *)
Definition get_roi (frame : Mat) (width height topLeft_x topLeft_y : Z) : M Mat :=
  copy_frame ← on_heap (fun h => copyTo h frame);
  roi ← lift (Mat_roi copy_frame topLeft_x topLeft_y width height);
  mret roi.

(** ** [get_results] (main.cpp:289-311) *)
Definition get_results (frame roi : Mat) (frameWidth frameHeight width height : Z)
    : M LocAndConf :=
  copy_frame ← on_heap (fun h => copyTo h frame);
  copy_roi ← on_heap (fun h => copyTo h roi);
  result ← matchTemplate copy_frame copy_roi;
  mm ← lift (minMaxLoc_prim result);
  mret {| match_loc := maxLoc mm;
          confidence := dmul (maxVal mm) (double_of_int 100);
          shift_row := int_sub (int_add (y (maxLoc mm)) (int_div height 2))
                               (int_div frameHeight 2);
          shift_col := int_sub (int_add (x (maxLoc mm)) (int_div width 2))
                               (int_div frameWidth 2) |}.

(** ** [create_folders] (main.cpp:240-262): an existing folder is left as
    it is; a [filesystem_error] of [create_directories] is caught and only
    reported. *)
Definition create_folders (env : Env) (path : string) : M () := fun w =>
  if decide (path ∈ out_dirs w) then (w, Ok ())
  else if mkdir_ok env path
  then ({| heap := heap w; out_dirs := {[path]} ∪ out_dirs w;
           out_files := out_files w; match_calls := match_calls w |}, Ok ())
  else (w, Ok ()).

(** [csv_file << ... << std::endl] *)
Definition csv_write (path : string) (line : CsvLine) : M () := fun w =>
  ({| heap := heap w; out_dirs := out_dirs w;
      out_files := <[path := default [] (out_files w !! path) ++ [line]]> (out_files w);
      match_calls := match_calls w |}, Ok ()).

(** [std::ofstream csv_file(csv_path)] that opened: the file is there, and
    empty. *)
Definition csv_create (path : string) : M () := fun w =>
  ({| heap := heap w; out_dirs := out_dirs w;
      out_files := <[path := []]> (out_files w);
      match_calls := match_calls w |}, Ok ()).

(** What [imread] finds at [dir/name]. *)
Fixpoint decoded_at (entries : list node) (name : string) : option Image :=
  match entries with
  | [] => None
  | e :: rest =>
      if decide (filename e = name)
      then match e with File _ img => Some img | Dir _ _ => None end
      else decoded_at rest name
  end.

(** ** [FrameSequencer]: the sort of main.cpp:171-178 *)
Definition FrameSequencer (file_names : list string) : Result (list string) :=
  std_sort frame_less file_names.

(** The body of the frame loop (main.cpp:188-225). *)
Definition process_frame (entries : list node) (csv_path : string)
    (roi : Mat) (file_name : string) : M ctrl :=
  img ← on_heap (fun h => imread h (decoded_at entries file_name));
  ncc_results ← get_results img roi frameWidth frameHeight roi_w roi_h;
  let shift_col_mm := shift_col_mm T_fixed (shift_row ncc_results) (shift_col ncc_results) in
  let shift_row_mm := shift_row_mm T_fixed (shift_row ncc_results) (shift_col ncc_results) in
  frame ← (fun w => (w, Ok (Mat_read (heap w) img)));
  _ ← csv_write csv_path
        (Data {| pixel_shift_x := shift_col ncc_results;
                 pixel_shift_y := shift_row ncc_results;
                 confidence_pct := confidence ncc_results;
                 dist_x_mm := shift_col_mm;
                 dist_y_mm := shift_row_mm;
                 mig := mig_frame frame |});
  mret Continue.

(** The body of the innermost directory loop (main.cpp:139-229) for the
    experiment folder [cam/mov/exp] with the entries [entries]. *)
Definition process_experiment (env : Env) (cam mov exp : string)
    (entries : list node) : M ctrl :=
  _ ← create_folders env ("../laser_decorrelation_results/" +:+ cam +:+ "/" +:+ mov +:+ "/" +:+ exp);
  _ ← create_folders env ("../laser_decorrelation_images_ncc/" +:+ cam +:+ "/" +:+ mov +:+ "/" +:+ exp);
  let csv_path := "../laser_decorrelation_results/" +:+ cam +:+ "/" +:+ mov +:+ "/" +:+ exp
                  +:+ "/" +:+ "Results.csv" in
  if negb (csv_opens env csv_path)
  then mret (Return EXIT_FAILURE)
  else
    _ ← csv_create csv_path;
    _ ← csv_write csv_path Header;
    let file_names := filename <$> entries in
    file_names ← lift (FrameSequencer file_names);
    frame_0 ← on_heap (fun h => imread h (decoded_at entries "frame_0.png"));
    roi ← get_roi frame_0 roi_w roi_h topLeft_x topLeft_y;
    _ ← for_each file_names (process_frame entries csv_path roi);
    mret Continue.

(** The three directory loops (main.cpp:121-235); an entry that is not a
    directory is skipped. *)
Definition exp_loop (env : Env) (cam mov : string) (exps : list node) : M ctrl :=
  for_each exps (fun exp_entry =>
    match exp_entry with
    | Dir exp entries => process_experiment env cam mov exp entries
    | File _ _ => mret Continue
    end).

Definition movement_loop (env : Env) (cam : string) (movs : list node) : M ctrl :=
  for_each movs (fun movement_entry =>
    match movement_entry with
    | Dir mov exps => exp_loop env cam mov exps
    | File _ _ => mret Continue
    end).

Definition cam_param_loop (env : Env) (cams : list node) : M ctrl :=
  for_each cams (fun cam_param_entry =>
    match cam_param_entry with
    | Dir cam movs => movement_loop env cam movs
    | File _ _ => mret Continue
    end).

(** ** [recursive_folders] (main.cpp:97-238) *)
Definition recursive_folders (env : Env) : M Z :=
  match fs_root env with
  | None => mret EXIT_FAILURE
  | Some (File _ _) => lift (Throw (filesystem_error "directory_iterator"))
  | Some (Dir _ cams) =>
      c ← cam_param_loop env cams;
      match c with
      | Return code => mret code
      | Continue => mret EXIT_SUCCESS
      end
  end.

(** ** [main] (main.cpp:88-95): the value of [recursive_folders] is
    dropped. *)
Definition main (env : Env) : M Z :=
  _ ← recursive_folders env;
  mret EXIT_SUCCESS.

End Program.

(** The [LocAndConf] that [get_results] builds from what [minMaxLoc]
    reported. *)
Definition LocAndConf_of (mm : MinMax) (frameWidth frameHeight width height : Z) : LocAndConf :=
  {| match_loc := maxLoc mm;
     confidence := dmul (maxVal mm) (double_of_int 100);
     shift_row := int_sub (int_add (y (maxLoc mm)) (int_div height 2)) (int_div frameHeight 2);
     shift_col := int_sub (int_add (x (maxLoc mm)) (int_div width 2)) (int_div frameWidth 2) |}.

(** The template a unit works with: the compiled-in rectangle of what
    [frame_0.png] decodes to. *)
Definition template_of (entries : list node) : Image :=
  match decoded_at entries "frame_0.png" with
  | Some img => crop img topLeft_x topLeft_y roi_w roi_h
  | None => no_image
  end.

(** The experiment folders under the root, in the order the three loops reach
    them: camera folder, movement folder, experiment folder, its entries. *)
Definition units_of (cams : list node) : list (string * string * string * list node) :=
  cam_param_entry ← cams;
  match cam_param_entry with
  | File _ _ => []
  | Dir cam movs =>
      movement_entry ← movs;
      match movement_entry with
      | File _ _ => []
      | Dir mov exps =>
          exp_entry ← exps;
          match exp_entry with
          | File _ _ => []
          | Dir exp entries => [(cam, mov, exp, entries)]
          end
      end
  end.

(** main.cpp:149: where the table of an experiment folder goes. *)
Definition csv_path_of (cam mov exp : string) : string :=
  "../laser_decorrelation_results/" +:+ cam +:+ "/" +:+ mov +:+ "/" +:+ exp
  +:+ "/" +:+ "Results.csv".

(** The body of the innermost loop on one experiment folder. *)
Definition unit_body
    (matchTemplate_prim : Image -> Image -> Result (Image * Image * Mat1f))
    (minMaxLoc_prim : Mat1f -> Result MinMax)
    (std_sort : (string -> string -> Result bool) -> list string -> Result (list string))
    (env : Env) (u : string * string * string * list node) : M ctrl :=
  let '(cam, mov, exp, entries) := u in
  process_experiment matchTemplate_prim minMaxLoc_prim std_sort env cam mov exp entries.

(** ** Assertions about runs *)

(** [w'] comes after [w]: the buffers of [w] are still there, unchanged, and
    every call of the matcher made in between was handed the template [T]. *)
Definition extends (T : Image) (w w' : World) : Prop :=
  ∃ k c, heap w' = heap w ++ k ∧ match_calls w' = match_calls w ++ c ∧
         Forall (λ call, call.2 = T) c.

(** The header [roi] points into the heap of [w] and shows [T]. *)
Definition shows (roi : Mat) (T : Image) (w : World) : Prop :=
  Mat_valid (heap w) roi ∧ Mat_read (heap w) roi = T.

(** [hoare T P m Q]: run from a world that satisfies [P], the computation [m]
    only adds to the world, hands the template [T] to every matcher call it
    makes, and when it returns [a] the world satisfies [Q a]. *)
Definition hoare (T : Image) (P : World → Prop) {A} (m : M A) (Q : A → World → Prop) : Prop :=
  ∀ w, P w → extends T w (m w).1 ∧ ∀ a, (m w).2 = Ok a → Q a (m w).1.

Definition stable (T : Image) (P : World → Prop) : Prop :=
  ∀ w w', P w → extends T w w' → P w'.

End Main.

(* ===================================================================== *)
(** * Concrete inputs the theorems are run on *)
(* ===================================================================== *)

Module Examples.
Import Cxx Cv Main.

(** A frame of one row whose intensity steps from 0 to 1 in the middle. *)
Definition frame_step : Image := {| rows := 1; cols := 8; pix := [0; 0; 0; 0; 1; 1; 1; 1] |}.

(** A 3x4 frame of constant intensity 7. *)
Definition frame_flat : Image := {| rows := 3; cols := 4; pix := replicate 12 7 |}.

(** A matcher that reports the score [score] at the location [loc] (and a
    one-pixel result map), and overwrites the two buffers it was handed. *)
Definition matchTemplate_stub (score : float) (I T : Image) : Result (Image * Image * Mat1f) :=
  Ok (no_image, no_image, {| frows := 1; fcols := 1; fpix := [score] |}).

Definition minMaxLoc_stub (loc : Point) (result : Mat1f) : Result MinMax :=
  match fpix result with
  | v :: _ => Ok {| minVal := double_of_float v; maxVal := double_of_float v;
                    minLoc := loc; maxLoc := loc |}
  | [] => Throw (cv_Exception "minMaxLoc")
  end.

(** A world with one decoded frame in its heap, and the header over it. *)
Definition frame_728x544 : Image :=
  {| rows := 544; cols := 728; pix := replicate (544 * 728) 9 |}.

Definition world_one_frame (img : Image) : World :=
  {| heap := [img]; out_dirs := ∅; out_files := ∅; match_calls := [] |}.

Definition header_of (img : Image) (l : nat) : Mat :=
  {| m_rows := rows img; m_cols := cols img; m_data := Some l; m_x := 0; m_y := 0 |}.

(** Seventeen frame names in ascending order of their index; the first two
    have the same index 0. *)
Definition names_17 : list string :=
  ["frame_0.png"; "frame_00.png"; "frame_1.png"; "frame_2.png"; "frame_3.png";
   "frame_4.png"; "frame_5.png"; "frame_6.png"; "frame_7.png"; "frame_8.png";
   "frame_9.png"; "frame_10.png"; "frame_11.png"; "frame_12.png"; "frame_13.png";
   "frame_14.png"; "frame_15.png"].

(** Three frame names, in two enumeration orders. *)
Definition names_3 : list string := ["frame_10.png"; "frame_2.png"; "frame_0.png"].
Definition names_3' : list string := ["frame_2.png"; "frame_0.png"; "frame_10.png"].

(** Two names with a digit run each; the first run is not an [int]. *)
Definition names_big : list string := ["frame_99999999999.png"; "frame_1.png"].

(** A root with two experiment folders under Gain_1/Move_1, and an
    environment in which no Results.csv opens. *)
Definition cams_two_units : list node :=
  [Dir "Gain_1"
     [Dir "Move_1"
        [Dir "Exp_1" [File "frame_0.png" frame_flat];
         Dir "Exp_2" [File "frame_0.png" frame_flat]]]].

Definition tree_two_units : node := Dir "laser_decorrelation_images" cams_two_units.

Definition env_csv_fails : Env :=
  {| fs_root := Some tree_two_units;
     csv_opens := λ _, false;
     mkdir_ok := λ _, true |}.

Definition world_empty : World :=
  {| heap := []; out_dirs := ∅; out_files := ∅; match_calls := [] |}.

End Examples.

(* ===================================================================== *)
(** * What the states of a run are described with *)
(* ===================================================================== *)

Import Cxx Cv Main.

(** What the header returned by [imread] shows: the decoded raster, none for
    a file that is missing or does not decode. *)
Definition imread_shows (decoded : option Image) : Image :=
  match decoded with
  | Some img => if rows img * cols img =? 0 then no_image
                else crop img 0 0 (cols img) (rows img)
  | None => no_image
  end.

(** What [imread] shows of the entry [name] of an experiment folder. *)
Definition frame_at (entries : list node) (name : string) : Image :=
  imread_shows (decoded_at entries name).

(** The rectangle lies inside the raster (the [CV_Assert] of
    [Mat::Mat(const Mat&, const Rect&)]). *)
Definition rect_inside (R : Image) (x0 y0 width height : Z) : Prop :=
  0 <= x0 ∧ 0 <= width ∧ x0 + width <= cols R ∧
  0 <= y0 ∧ 0 <= height ∧ y0 + height <= rows R.

(** [frame_0.png] is there, decodes, and holds the compiled-in rectangle. *)
Definition frame_0_fits (entries : list node) : Prop :=
  ∃ img, decoded_at entries "frame_0.png" = Some img ∧
         topLeft_x + roi_w <= cols img ∧ topLeft_y + roi_h <= rows img.

(** What [get_results] answers in the frame loop when the matcher is handed
    the frame [D] and the template [T]. *)
Definition ncc_answer
    (matchTemplate_prim : Image -> Image -> Result (Image * Image * Mat1f))
    (minMaxLoc_prim : Mat1f -> Result MinMax) (D T : Image) : Result LocAndConf :=
  '(_, _, result) ← matchTemplate_prim D T;
  mm ← minMaxLoc_prim result;
  Ok (LocAndConf_of mm frameWidth frameHeight roi_w roi_h).

(** The line the frame loop writes for a frame: the shifts and the
    confidence [get_results] answered, the two distances computed from the
    shifts (main.cpp:198-199), and the MIG of the raster [frame]. *)
Definition row_of (a : LocAndConf) (frame : Image) : CsvLine :=
  Data {| pixel_shift_x := shift_col a;
          pixel_shift_y := shift_row a;
          confidence_pct := confidence a;
          dist_x_mm := shift_col_mm T_fixed (shift_row a) (shift_col a);
          dist_y_mm := shift_row_mm T_fixed (shift_row a) (shift_col a);
          mig := mig_frame frame |}.

(** The two output folders of an experiment folder (main.cpp:143, 146). *)
Definition results_dir_of (cam mov exp : string) : string :=
  "../laser_decorrelation_results/" +:+ cam +:+ "/" +:+ mov +:+ "/" +:+ exp.
Definition ncc_dir_of (cam mov exp : string) : string :=
  "../laser_decorrelation_images_ncc/" +:+ cam +:+ "/" +:+ mov +:+ "/" +:+ exp.

(** The table of an experiment folder that is processed to its end, with the
    names in the order [order] puts them and [answer] what [get_results]
    answers on a frame and the template. *)
Definition table_of (answer : Image -> Image -> LocAndConf)
    (order : list string -> list string) (entries : list node) : list CsvLine :=
  Header :: ((λ name, row_of (answer (frame_at entries name) (template_of entries))
                             (frame_at entries name))
             <$> order (filename <$> entries)).

(** The calls of the matcher for an experiment folder. *)
Definition calls_of (order : list string -> list string)
    (u : string * string * string * list node) : list (Image * Image) :=
  let '(_, _, _, entries) := u in
  (λ name, (frame_at entries name, template_of entries)) <$> order (filename <$> entries).

(** The tables of the experiment folders [units], written one after the
    other over the files [files]. *)
Definition tables_of (answer : Image -> Image -> LocAndConf)
    (order : list string -> list string)
    (units : list (string * string * string * list node))
    (files : gmap string (list CsvLine)) : gmap string (list CsvLine) :=
  foldl (λ files u, let '(cam, mov, exp, entries) := u in
                    <[csv_path_of cam mov exp := table_of answer order entries]> files)
        files units.

(** [img'] is [img] with the intensity [d] added at every pixel. *)
Definition offset_by (d : Z) (img img' : Image) : Prop :=
  rows img' = rows img ∧ cols img' = cols img ∧
  ∀ r c, 0 <= r < rows img → 0 <= c < cols img → pixel img' r c = pixel img r c + d.

(** A floating-point value that is a number or an infinity and carries the
    sign [s]. *)
Definition has_sign (s : bool) (x : spec_float) : bool :=
  match x with
  | S754_nan => false
  | S754_zero s' | S754_infinity s' | S754_finite s' _ _ => Bool.eqb s s'
  end.

(** [+0], a positive number or [+inf]: not a NaN, and the sign bit clear. *)
Definition not_negative (x : spec_float) : bool := has_sign false x.

(** * More inputs the theorems are run on *)

Module Inputs.

(** [Examples.frame_step], 5 levels brighter. *)
Definition frame_step_brighter : Image :=
  {| rows := 1; cols := 8; pix := [5; 5; 5; 5; 6; 6; 6; 6] |}.

(** A matcher that refuses an empty frame (as [cv::matchTemplate] does, by a
    failed assertion) and answers like [Examples.matchTemplate_stub] on any
    other. *)
Definition matchTemplate_picky (score : float) (I T : Image)
    : Result (Image * Image * Mat1f) :=
  if rows I * cols I =? 0 then Throw (cv_Exception "matchTemplate")
  else Examples.matchTemplate_stub score I T.

(** What [get_results] answers with the stubs: score 1 at column 310,
    row 200. *)
Definition answer_stub : LocAndConf :=
  LocAndConf_of {| minVal := double_of_float (float_of_int 1);
                   maxVal := double_of_float (float_of_int 1);
                   minLoc := {| x := 310; y := 200 |};
                   maxLoc := {| x := 310; y := 200 |} |}
                frameWidth frameHeight roi_w roi_h.

(** Experiment folders: two frames; two frames and a subfolder; a frame and
    a file without a digit in its name; a frame_0.png of 3 rows. *)
Definition entries_two : list node :=
  [File "frame_0.png" Examples.frame_728x544; File "frame_1.png" Examples.frame_flat].

Definition entries_subfolder : list node :=
  [File "frame_0.png" Examples.frame_728x544; File "frame_1.png" Examples.frame_flat;
   Dir "frame_2" []].

Definition entries_notes : list node :=
  [File "frame_0.png" Examples.frame_728x544; File "notes.txt" Examples.frame_flat].

Definition entries_small : list node := [File "frame_0.png" Examples.frame_flat].

(** A root with files beside the folders at every level, and two experiment
    folders. *)
Definition cams_mixed : list node :=
  [File "readme.txt" Examples.frame_flat;
   Dir "Gain_1"
     [File "log.txt" Examples.frame_flat;
      Dir "Move_1"
        [Dir "Exp_1" entries_two;
         File "notes.txt" Examples.frame_flat;
         Dir "Exp_2" entries_two]]].

(** Environments in which every Results.csv opens; the second has a broken
    experiment folder first. *)
Definition env_ok : Env :=
  {| fs_root := Some (Dir "laser_decorrelation_images" cams_mixed);
     csv_opens := λ _, true;
     mkdir_ok := λ _, true |}.

Definition cams_broken_first : list node :=
  [Dir "Gain_1" [Dir "Move_1" [Dir "Exp_1" entries_small; Dir "Exp_2" entries_two]]].

Definition env_broken_first : Env :=
  {| fs_root := Some (Dir "laser_decorrelation_images" cams_broken_first);
     csv_opens := λ _, true;
     mkdir_ok := λ _, true |}.

Definition env_no_root : Env :=
  {| fs_root := None; csv_opens := λ _, true; mkdir_ok := λ _, true |}.

End Inputs.

(** * A stable insertion sort, to compare [std::sort] with on short vectors *)

(** [x] put into [l] behind the elements whose key is not larger. *)
Fixpoint insert_by {A} (key : A -> Z) (x : A) (l : list A) : list A :=
  match l with
  | [] => [x]
  | y :: l' => if key x <? key y then x :: l else y :: insert_by key x l'
  end.

(** The elements of [l] inserted one after the other, from the left. *)
Definition insertion_sorted_by {A} (key : A -> Z) (l : list A) : list A :=
  foldl (λ acc x, insert_by key x acc) [] l.

(** * The calibration expressions on the kernel's binary64 numbers

    The expressions of main.cpp:198-199 and the round trip, written with the
    primitive floating-point operations of the kernel, which evaluate at the
    speed of the machine.  [FloatAxioms] states that every primitive
    operation returns what [SpecFloat] specifies, so a test that passes here
    passes on the [double] of the model. *)

Module Prim64.

(** [int -> double] *)
Definition of_int (z : Z) : PrimFloat.float :=
  if z <? 0 then PrimFloat.opp (PrimFloat.of_uint63 (Uint63.of_Z (- z)))
  else PrimFloat.of_uint63 (Uint63.of_Z z).

(** main.cpp:100-103 *)
Definition Txx : PrimFloat.float := PrimFloat.div (of_int (-1027)) (of_int 4).
Definition Txy : PrimFloat.float := PrimFloat.div (of_int 5) (of_int 2).
Definition Tyx : PrimFloat.float := PrimFloat.div (of_int 7) (of_int 2).
Definition Tyy : PrimFloat.float := PrimFloat.div (of_int 521) (of_int 2).

(** main.cpp:198 *)
Definition shift_col_mm (shift_row shift_col : Z) : PrimFloat.float :=
  PrimFloat.div (PrimFloat.sub (PrimFloat.mul (of_int shift_col) Tyy)
                               (PrimFloat.mul (of_int shift_row) Txy))
                (PrimFloat.sub (PrimFloat.mul Txx Tyy) (PrimFloat.mul Txy Tyx)).

(** main.cpp:199 *)
Definition shift_row_mm (shift_row shift_col : Z) : PrimFloat.float :=
  PrimFloat.div (PrimFloat.sub (PrimFloat.mul (of_int shift_row) Txx)
                               (PrimFloat.mul (of_int shift_col) Tyx))
                (PrimFloat.sub (PrimFloat.mul Txx Tyy) (PrimFloat.mul Txy Tyx)).

Definition within_tolerance (a b tol : PrimFloat.float) : bool :=
  PrimFloat.leb (PrimFloat.abs (PrimFloat.sub a b)) tol.

(** [Main.round_trip_within] *)
Definition round_trip_within (tol : PrimFloat.float) (shift_row shift_col : Z) : bool :=
  let dist_x := shift_col_mm shift_row shift_col in
  let dist_y := shift_row_mm shift_row shift_col in
  within_tolerance (PrimFloat.add (PrimFloat.mul Txx dist_x) (PrimFloat.mul Txy dist_y))
                   (of_int shift_col) tol
  && within_tolerance (PrimFloat.add (PrimFloat.mul Tyx dist_x) (PrimFloat.mul Tyy dist_y))
                      (of_int shift_row) tol.

(** [2^-44], and the number 2. *)
Definition tolerance : PrimFloat.float := PrimFloat.div (of_int 1) (of_int (2 ^ 44)).
Definition two : PrimFloat.float := of_int 2.

(** Both distances are numbers of magnitude at most 2. *)
Definition bounded (shift_row shift_col : Z) : bool :=
  PrimFloat.leb (PrimFloat.abs (shift_col_mm shift_row shift_col)) two
  && PrimFloat.leb (PrimFloat.abs (shift_row_mm shift_row shift_col)) two.

(** Both tests on one shift. *)
Definition shift_passes (shift_row shift_col : Z) : bool :=
  round_trip_within tolerance shift_row shift_col && bounded shift_row shift_col.

(** [test] on every shift of [rows] rows from [row0] and [cols] columns from
    [col0]. *)
Definition all_pass (test : Z -> Z -> bool) (row0 rows col0 cols : Z) : bool :=
  forallb (λ r, forallb (test r) (seqZ col0 cols)) (seqZ row0 rows).

End Prim64.

(* ===================================================================== *)
(** * Lemmas about the model *)
(* ===================================================================== *)

Import Cxx Cv Main.

(** ** [int] arithmetic that does not overflow *)

Lemma wrap_int_id z : in_int z → wrap_int z = z.
Proof.
  unfold in_int, wrap_int, INT_MIN, INT_MAX. intros Hz.
  rewrite Z.mod_small; lia.
Qed.

Lemma in_int_quot2 z : in_int z → in_int (z ÷ 2).
Proof.
  unfold in_int, INT_MIN, INT_MAX. intros Hz.
  Z.to_euclidean_division_equations. lia.
Qed.

Lemma int_div2_exact z : in_int z → int_div z 2 = z ÷ 2.
Proof. intros Hz. apply wrap_int_id, in_int_quot2, Hz. Qed.

(** ** Rasters: the pixel at row [r], column [c] of a window *)

Lemma bind_singleton_fmap {A B} (g : A → B) (l : list A) :
  (l ≫= λ a, [g a]) = g <$> l.
Proof. induction l as [|a l IH]; [done|]. by rewrite bind_cons, fmap_cons, IH. Qed.

Lemma bind_rows {A B C} (g : A → B → C) (k : list B) (l : list A) :
  (l ≫= λ a, k ≫= λ b, [g a b]) = mjoin ((λ a, g a <$> k) <$> l).
Proof.
  induction l as [|a l IH]; [done|].
  rewrite bind_cons, fmap_cons, IH, bind_singleton_fmap. done.
Qed.

Lemma bind_ext_in {A B} (f g : A → list B) (l : list A) :
  (∀ a, a ∈ l → f a = g a) → l ≫= f = l ≫= g.
Proof.
  induction l as [|a l IH]; intros H; [done|].
  rewrite !bind_cons, IH, (H a); [done|left|]. intros b Hb. apply H. by right.
Qed.

Lemma lookup_grid {A} (f : Z → Z → A) (h w r c : Z) :
  0 <= r < h → 0 <= c < w →
  (r0 ← seqZ 0 h; c0 ← seqZ 0 w; [f r0 c0]) !! Z.to_nat (r * w + c) = Some (f r c).
Proof.
  intros Hr Hc.
  replace (Z.to_nat (r * w + c)) with (Z.to_nat r * Z.to_nat w + Z.to_nat c)%nat by nia.
  rewrite bind_rows.
  apply (join_lookup_Some_same_length' (Z.to_nat w)).
  - apply Forall_fmap, Forall_forall. intros a _. simpl.
    by rewrite length_fmap, length_seqZ.
  - lia.
  - exists (f r <$> seqZ 0 w). split.
    + rewrite list_lookup_fmap, lookup_seqZ_lt by lia. simpl. do 3 f_equal. lia.
    + rewrite list_lookup_fmap, lookup_seqZ_lt by lia. simpl. do 2 f_equal. lia.
Qed.

Lemma grid_ext {A} (f g : Z → Z → A) (h w : Z) :
  (∀ r c, 0 <= r < h → 0 <= c < w → f r c = g r c) →
  (r0 ← seqZ 0 h; c0 ← seqZ 0 w; [f r0 c0]) = (r0 ← seqZ 0 h; c0 ← seqZ 0 w; [g r0 c0]).
Proof.
  intros H. apply bind_ext_in. intros r Hr%elem_of_seqZ.
  apply bind_ext_in. intros c Hc%elem_of_seqZ.
  f_equal. apply H; lia.
Qed.

Lemma pixel_crop img x0 y0 w h r c :
  0 <= r < h → 0 <= c < w →
  pixel (crop img x0 y0 w h) r c = pixel img (y0 + r) (x0 + c).
Proof.
  intros Hr Hc. unfold pixel at 1. simpl.
  by rewrite (lookup_grid (λ r c, pixel img (y0 + r) (x0 + c))).
Qed.

Lemma crop_crop img x0 y0 w h :
  crop (crop img x0 y0 w h) 0 0 w h = crop img x0 y0 w h.
Proof.
  unfold crop at 1. simpl. unfold crop at 2. f_equal.
  apply grid_ext. intros r c Hr Hc. by rewrite pixel_crop by lia.
Qed.

(** ** Headers and the heap *)

Lemma Mat_read_app h k m : Mat_valid h m → Mat_read (h ++ k) m = Mat_read h m.
Proof.
  unfold Mat_valid, Mat_read. destruct (m_data m) as [l|]; [|done].
  intros Hl. by rewrite lookup_app_l.
Qed.

Lemma Mat_valid_app h k m : Mat_valid h m → Mat_valid (h ++ k) m.
Proof.
  unfold Mat_valid. destruct (m_data m); [|done]. rewrite length_app. lia.
Qed.

(** [copyTo] only adds a buffer; the copy shows what the source shows and
    lives in the added part. *)
Lemma copyTo_spec h src :
  ∃ k, (copyTo h src).1 = h ++ k ∧
       Mat_valid (h ++ k) (copyTo h src).2 ∧
       Mat_read (h ++ k) (copyTo h src).2 = Mat_read h src ∧
       (∀ l, m_data (copyTo h src).2 = Some l → (length h <= l)%nat).
Proof.
  unfold copyTo, Mat_empty, Mat_read.
  destruct (m_data src) as [l|] eqn:Hd; simpl.
  2:{ exists []. rewrite app_nil_r. repeat split; try done. }
  destruct (m_rows src * m_cols src =? 0) eqn:Hz; simpl.
  { exists []. rewrite app_nil_r. repeat split; try done. }
  eexists [_]. split; [reflexivity|]. split; [|split].
  - unfold Mat_valid. simpl. rewrite length_app. simpl. lia.
  - simpl. rewrite lookup_app_r, Nat.sub_diag by lia. simpl.
    destruct (h !! l) as [buf|]; simpl; [|done].
    rewrite Hz. apply crop_crop.
  - simpl. intros ? [= <-]. lia.
Qed.

Lemma store_app h k m img :
  (∀ l, m_data m = Some l → (length h <= l)%nat) →
  ∃ k', store (h ++ k) m img = h ++ k'.
Proof.
  unfold store. destruct (m_data m) as [l|]; [|by exists k].
  intros Hl. specialize (Hl l eq_refl).
  eexists. by rewrite insert_app_r_alt.
Qed.

Section Matcher.
Variable matchTemplate_prim : Image -> Image -> Result (Image * Image * Mat1f).
Variable minMaxLoc_prim : Mat1f -> Result MinMax.

(** One call of [get_results]: the heap grows by the two copies, the
    matcher is handed what [frame] and [roi] show, and the answer is built
    from what the primitives return. *)
Lemma get_results_run frame roi fW fH wd ht w :
  Mat_valid (heap w) roi →
  ∃ k,
    get_results matchTemplate_prim minMaxLoc_prim frame roi fW fH wd ht w =
    ({| heap := heap w ++ k; out_dirs := out_dirs w; out_files := out_files w;
        match_calls := match_calls w ++ [(Mat_read (heap w) frame, Mat_read (heap w) roi)] |},
     '(_, _, result) ← matchTemplate_prim (Mat_read (heap w) frame) (Mat_read (heap w) roi);
     mm ← minMaxLoc_prim result;
     Ok (LocAndConf_of mm fW fH wd ht)).
Proof.
  intros Hroi.
  destruct (copyTo_spec (heap w) frame) as (k1 & Hh1 & Hv1 & Hr1 & Hl1).
  destruct (copyTo_spec (heap w ++ k1) roi) as (k2 & Hh2 & Hv2 & Hr2 & Hl2).
  unfold get_results, mbind, M_bind, on_heap, matchTemplate, lift, mret, M_ret.
  destruct (copyTo (heap w) frame) as [h1 cf] eqn:E1. simpl in *. subst h1.
  destruct (copyTo (heap w ++ k1) roi) as [h2 cr] eqn:E2. simpl in *. subst h2.
  rewrite (Mat_read_app _ k2 cf) by done. rewrite Hr1, Hr2.
  rewrite (Mat_read_app _ k1 roi) by done.
  destruct (matchTemplate_prim _ _) as [[[I' T'] result]| |]; simpl.
  - destruct (store_app (heap w) (k1 ++ k2) cf I') as [k3 Hk3]; [done|].
    rewrite <- (assoc_L (++)), Hk3.
    destruct (store_app (heap w) k3 cr T') as [k4 Hk4].
    { intros l Hl. specialize (Hl2 l Hl). rewrite length_app in Hl2. lia. }
    rewrite Hk4. exists k4.
    destruct (minMaxLoc_prim result); done.
  - exists (k1 ++ k2). by rewrite <- (assoc_L (++)).
  - exists (k1 ++ k2). by rewrite <- (assoc_L (++)).
Qed.

(** One call of [get_roi]: the heap grows by the copy of [frame]; when it
    returns, the rectangle lies inside what [frame] shows and the template
    shows that rectangle. *)
Lemma get_roi_run frame wd ht x0 y0 w :
  ∃ k,
    (get_roi frame wd ht x0 y0 w).1 = set_heap w (heap w ++ k) ∧
    ∀ roi, (get_roi frame wd ht x0 y0 w).2 = Ok roi →
      Mat_valid (heap w ++ k) roi ∧
      Mat_read (heap w ++ k) roi =
        (if wd * ht =? 0 then no_image else crop (Mat_read (heap w) frame) x0 y0 wd ht) ∧
      (0 <= x0 ∧ x0 + wd <= cols (Mat_read (heap w) frame) ∧
       0 <= y0 ∧ y0 + ht <= rows (Mat_read (heap w) frame)).
Proof.
  unfold get_roi, mbind, M_bind, on_heap, lift, mret, M_ret, copyTo, Mat_alloc.
  destruct (Mat_empty frame) eqn:He; simpl.
  - exists []. rewrite app_nil_r. unfold Mat_roi.
    assert (Hno : Mat_read (heap w) frame = no_image).
    { unfold Mat_empty in He. unfold Mat_read.
      destruct (m_data frame); [by rewrite He|done]. }
    destruct (decide _) as [Hin|Hout]; simpl; [|by destruct w].
    destruct (decide _) as [Hz|Hnz]; simpl in *; [|lia].
    split; [by destruct w|]. intros roi [= <-]. split; [done|]. rewrite Hno. simpl.
    split; [|lia].
    replace (wd * ht =? 0) with true; [done|]. symmetry. apply Z.eqb_eq. nia.
  - exists [Mat_read (heap w) frame]. unfold Mat_roi. simpl.
    destruct (decide _) as [Hin|Hout]; simpl; [|done].
    destruct (decide _) as [Hz|Hnz]; simpl.
    + split; [done|]. intros roi [= <-]. split; [done|]. split; [|lia].
      replace (wd * ht =? 0) with true; [done|]. symmetry. apply Z.eqb_eq. nia.
    + split; [done|]. intros roi [= <-]. split.
      { unfold Mat_valid. simpl. rewrite length_app. simpl. lia. }
      split; [|lia].
      unfold Mat_read at 1. simpl.
      rewrite (Z.mul_comm ht wd).
      destruct (wd * ht =? 0); [done|].
      by rewrite lookup_app_r, Nat.sub_diag by lia.
Qed.
End Matcher.

(** ** The Sobel responses of a frame of constant intensity *)

Lemma borderInterpolate_range p len :
  0 < len → -1 <= p <= len → 0 <= borderInterpolate p len < len.
Proof.
  intros Hlen Hp. unfold borderInterpolate.
  destruct ((0 <=? p) && (p <? len)) eqn:Hin; [lia|].
  destruct (len =? 1) eqn:H1; [lia|].
  replace (Z.to_nat (Z.abs p) + 2)%nat with (S (Z.to_nat (Z.abs p) + 1)) by lia.
  generalize (Z.to_nat (Z.abs p) + 1)%nat. intros fuel. cbn [reflect_101].
  destruct (p <? 0) eqn:Hneg.
  - destruct ((0 <=? - p - 1 + 1) && (- p - 1 + 1 <? len)) eqn:H; lia.
  - destruct ((0 <=? len - 1 - (p - len) - 1) && (len - 1 - (p - len) - 1 <? len)) eqn:H; lia.
Qed.

Lemma sobel_at_uniform src v kx ky r c :
  uniform src v → 0 <= r < rows src → 0 <= c < cols src →
  (kx = [-1; 0; 1] ∨ ky = [-1; 0; 1]) →
  (kx = [-1; 0; 1] ∨ kx = [1; 2; 1]) → (ky = [-1; 0; 1] ∨ ky = [1; 2; 1]) →
  sobel_at src kx ky r c = 0.
Proof.
  intros Hu Hr Hc Hd Hkx Hky.
  assert (Hpix : ∀ i j, -1 <= i <= 1 → -1 <= j <= 1 →
    pixel src (borderInterpolate (r + i) (rows src)) (borderInterpolate (c + j) (cols src)) = v).
  { intros i j Hi Hj. apply Hu; apply borderInterpolate_range; lia. }
  unfold sobel_at.
  destruct Hkx as [-> | ->], Hky as [-> | ->]; try (destruct Hd; discriminate);
    cbn [seqZ Z.to_nat Pos.to_nat Pos.iter_op seq fmap list_fmap zip zip_with mbind list_bind
         app foldr Z.of_nat Z.add Pos.of_succ_nat Pos.succ];
    simpl; rewrite !Hpix by lia; lia.
Qed.

(** ** [int] to [double] *)

Lemma digits2_pos_size p : digits2_pos p = Pos.size p.
Proof. induction p; simpl; congruence. Qed.

Lemma digits2_pos_shift p k : digits2_pos (Pos.iter xO p k) = (digits2_pos p + k)%positive.
Proof.
  induction k as [|k IH] using Pos.peano_ind.
  - simpl. lia.
  - rewrite Pos.iter_succ. simpl. rewrite IH. lia.
Qed.

(** A mantissa of 53 digits with an exponent in range is what binary64
    rounds to itself. *)
Lemma binary_round_aux_canonical s m e :
  Zpos (digits2_pos m) = 53 → -1074 <= e <= 971 →
  binary_round_aux 53 1024 s (Zpos m) e loc_Exact = S754_finite s m e.
Proof.
  intros Hd He.
  assert (Hshift : fexp 53 1024 (Zdigits2 (Zpos m) + e) - e = 0).
  { unfold fexp, emin. simpl Zdigits2. rewrite Hd. lia. }
  unfold binary_round_aux, shr_fexp. rewrite Hshift. cbn [shr shr_record_of_loc].
  cbn [shr_m loc_of_shr_record round_nearest_even].
  rewrite Hshift. cbn [shr shr_record_of_loc shr_m].
  destruct (e <=? 1024 - 53) eqn:H; [done|lia].
Qed.

Lemma double_of_int_pos (n : Z) :
  0 < n <= INT_MAX → ∃ m e, double_of_int n = S754_finite false m e.
Proof.
  unfold INT_MAX. intros Hn. destruct n as [|p|p]; [lia| |lia].
  unfold double_of_int, binary_normalize, binary_round.
  assert (Hsize : Zpos (digits2_pos p) <= 32).
  { rewrite digits2_pos_size.
    pose proof (Pos.size_le p) as Hle.
    destruct (Z_le_gt_dec (Zpos (Pos.size p)) 32) as [?|Hgt]; [done|exfalso].
    assert (2 ^ 33 <= Zpos (2 ^ Pos.size p)).
    { rewrite Pos2Z.inj_pow. apply Z.pow_le_mono_r; lia. }
    lia. }
  assert (Hfexp : fexp 53 1024 (Zpos (digits2_pos p) + 0) = Zpos (digits2_pos p) - 53).
  { unfold fexp, emin. lia. }
  rewrite Hfexp. unfold shl_align.
  destruct (Zpos (digits2_pos p) - 53 - 0) as [|q|q] eqn:Hq; try lia.
  eexists _, _. apply binary_round_aux_canonical.
  - rewrite digits2_pos_shift. lia.
  - lia.
Qed.

Lemma ddiv_zero_pos (n : Z) :
  0 < n <= INT_MAX → ddiv (S754_zero false) (double_of_int n) = S754_zero false.
Proof. intros Hn. destruct (double_of_int_pos n Hn) as (m & e & ->). done. Qed.

Lemma grid_Forall {A} (P : A → Prop) (f : Z → Z → A) (h w : Z) :
  (∀ r c, 0 <= r < h → 0 <= c < w → P (f r c)) →
  Forall P (r0 ← seqZ 0 h; c0 ← seqZ 0 w; [f r0 c0]).
Proof.
  intros H. apply Forall_bind, Forall_forall. intros r Hr%elem_of_seqZ. simpl.
  apply Forall_bind, Forall_forall. intros c Hc%elem_of_seqZ. simpl.
  apply Forall_singleton, H; lia.
Qed.

Lemma Sobel_uniform src v dx dy :
  uniform src v → (dx = 1 ∧ dy = 0 ∨ dx = 0 ∧ dy = 1) →
  Forall (λ a, a = S754_zero false) (fpix (Sobel src dx dy)).
Proof.
  intros Hu Hd. unfold Sobel. simpl. apply grid_Forall. intros r c Hr Hc.
  rewrite (sobel_at_uniform src v); [done|done|lia|lia|..];
    destruct Hd as [[-> ->]|[-> ->]]; simpl; auto.
Qed.

Lemma magnitude_zero a b :
  Forall (λ v, v = S754_zero false) (fpix a) →
  Forall (λ v, v = S754_zero false) (fpix b) →
  Forall (λ v, v = S754_zero false) (fpix (magnitude a b)).
Proof.
  unfold magnitude. simpl. generalize (fpix b). 
  induction (fpix a) as [|u l IH]; intros [|u' l'] Ha Hb; simpl; try constructor.
  - inversion Ha; inversion Hb; subst. reflexivity.
  - apply IH; [by inversion Ha|by inversion Hb].
Qed.

Lemma sum_zero m :
  Forall (λ v, v = S754_zero false) (fpix m) → sum m = S754_zero false.
Proof.
  unfold sum. induction (fpix m) as [|u l IH]; intros H; [done|].
  inversion H; subst. simpl. by apply IH.
Qed.

(** ** Reading the index of a frame name *)

Lemma is_digit_not_space c : is_digit c = true → is_space c = false.
Proof. unfold is_digit, is_space. lia. Qed.

Lemma decimal_value_acc_nonneg ds acc :
  Forall (λ c, is_digit c = true) ds → 0 <= acc →
  0 <= fold_left (λ acc c, 10 * acc + digit_value c) ds acc.
Proof.
  revert acc. induction ds as [|c ds IH]; intros acc Hds Hacc; [done|].
  inversion Hds as [|? ? Hc Hds']; subst. simpl. apply IH; [done|].
  unfold is_digit, digit_value in *. lia.
Qed.

Lemma take_digits_digits s : Forall (λ c, is_digit c = true) (take_digits s).
Proof.
  induction s as [|c r IH]; simpl; [constructor|].
  destruct (is_digit c) eqn:Hc; constructor; done.
Qed.

(** [stoi] on a string that starts with a digit reads the run of digits it
    starts with. *)
Lemma stoi_digits c r :
  is_digit c = true →
  stoi (String c r) =
    if decimal_value (take_digits (String c r)) <=? INT_MAX
    then Ok (decimal_value (take_digits (String c r)))
    else Throw (out_of_range "stoi").
Proof.
  intros Hc. unfold stoi.
  assert (Hskip : skip_space (String c r) = String c r).
  { simpl. by rewrite is_digit_not_space. }
  rewrite Hskip.
  assert (Hsign : (let '(neg, s2) :=
            match String c r with
            | String "-" r0 => (true, r0)
            | String "+" r0 => (false, r0)
            | _ => (false, String c r)
            end in (neg, s2)) = (false, String c r)).
  { unfold is_digit in Hc.
    destruct c as [[] [] [] [] [] [] [] []]; try reflexivity; simpl in Hc; discriminate. }
  pose proof (take_digits_digits (String c r)) as Hds.
  pose proof (decimal_value_acc_nonneg _ 0 Hds (Z.le_refl 0)) as Hnn.
  fold (decimal_value (take_digits (String c r))) in Hnn.
  destruct (match String c r with
            | String "-" r0 => (true, r0)
            | String "+" r0 => (false, r0)
            | _ => (false, String c r)
            end) as [neg s2]. injection Hsign as -> ->.
  destruct (take_digits (String c r)) as [|d ds] eqn:Htd.
  { simpl in Htd. rewrite Hc in Htd. discriminate. }
  replace (INT_MIN <=? decimal_value (d :: ds)) with true
    by (symmetry; apply Z.leb_le; unfold INT_MIN; lia).
  done.
Qed.

(** The suffix [substr] cuts at the first digit starts with the first run of
    digits. *)
Lemma find_digit_run s :
  first_digit_run s ≠ [] →
  ∃ p c r, find_digit s = Some p ∧ (p <= String.length s)%nat ∧
           string_drop p s = String c r ∧ is_digit c = true ∧
           take_digits (String c r) = first_digit_run s.
Proof.
  induction s as [|c r IH]; [done|]. cbn [first_digit_run find_digit].
  destruct (is_digit c) eqn:Hc.
  - intros _. exists 0%nat, c, r. simpl. rewrite Hc. repeat split; try done. lia.
  - intros Hrun. destruct (IH Hrun) as (p & c' & r' & Hp & Hle & Hdrop & Hc' & Htd).
    exists (S p), c', r'. rewrite Hp. simpl. repeat split; try done. lia.
Qed.

(** The index the comparator reads is the number the first maximal run of
    digits denotes, when that number is an [int]; it is an exception
    otherwise. *)
Lemma frame_index_spec name k :
  spec_index name = Some k →
  frame_index name = if k <=? INT_MAX then Ok k else Throw (out_of_range "stoi").
Proof.
  unfold spec_index. destruct (first_digit_run name) as [|d ds] eqn:Hrun; [done|].
  intros [= <-].
  destruct (find_digit_run name) as (p & c & r & Hp & Hle & Hdrop & Hc & Htd);
    [by rewrite Hrun|].
  unfold frame_index, find_first_of_digit, substr. rewrite Hp.
  replace (Z.of_nat (String.length name) <? Z.of_nat p) with false
    by (symmetry; apply Z.ltb_ge; lia).
  rewrite Nat2Z.id, Hdrop. simpl mbind. cbn [mbind Result_bind].
  rewrite stoi_digits by done. by rewrite Htd, Hrun.
Qed.

Lemma frame_less_spec a b ka kb :
  spec_index a = Some ka → ka <= INT_MAX →
  spec_index b = Some kb → kb <= INT_MAX →
  frame_less a b = Ok (ka <? kb).
Proof.
  intros Ha Hka Hb Hkb.
  pose proof (frame_index_spec a ka Ha) as Hia.
  pose proof (frame_index_spec b kb Hb) as Hib.
  replace (ka <=? INT_MAX) with true in Hia by (symmetry; by apply Z.leb_le).
  replace (kb <=? INT_MAX) with true in Hib by (symmetry; by apply Z.leb_le).
  unfold frame_index in Hia, Hib. unfold frame_less.
  destruct (substr a (find_first_of_digit a)) as [num_a| |]; try done.
  destruct (substr b (find_first_of_digit b)) as [num_b| |]; try done.
  simpl in *. rewrite Hia, Hib. done.
Qed.

(** ** Sorted by index *)

Lemma indexed_idx names n :
  indexed names → n ∈ names → spec_index n = Some (idx n) ∧ idx n <= INT_MAX.
Proof.
  intros Hall Hn. unfold indexed in Hall. rewrite Forall_forall in Hall.
  destruct (Hall n Hn) as (k & Hk & Hle). unfold idx. rewrite Hk. done.
Qed.

Lemma StronglySorted_lookup_2 {A} (R : relation A) (l : list A) :
  (∀ i j a b, (i < j)%nat → l !! i = Some a → l !! j = Some b → R a b) →
  StronglySorted R l.
Proof.
  induction l as [|x l IH]; intros H; constructor.
  - apply IH. intros i j a b Hij Ha Hb. apply (H (S i) (S j)); [lia|done..].
  - apply Forall_forall. intros b [j Hj]%list_elem_of_lookup.
    apply (H 0%nat (S j)); [lia|done..].
Qed.

Lemma StronglySorted_lookup {A} (R : relation A) (l : list A) i j a b :
  StronglySorted R l → (i < j)%nat → l !! i = Some a → l !! j = Some b → R a b.
Proof.
  intros Hs. revert i j. induction Hs as [|x l Hs IH Hx]; intros i j Hij Ha Hb; [done|].
  destruct j as [|j]; [lia|]. destruct i as [|i].
  - simpl in Ha, Hb. injection Ha as <-. rewrite Forall_forall in Hx.
    apply Hx. by eapply list_elem_of_lookup_2.
  - apply (IH i j); [lia|done..].
Qed.

(** What [std::sort] leaves, read with the indices of the names. *)
Lemma sorted_by_index out :
  indexed out → sorted_by frame_less out →
  StronglySorted (λ a b, idx a <= idx b) out.
Proof.
  intros Hall Hs. apply StronglySorted_lookup_2. intros i j a b Hij Ha Hb.
  destruct (indexed_idx out a Hall) as [Hka Hla]; [by eapply list_elem_of_lookup_2|].
  destruct (indexed_idx out b Hall) as [Hkb Hlb]; [by eapply list_elem_of_lookup_2|].
  specialize (Hs i j a b Hij Ha Hb).
  rewrite (frame_less_spec b a (idx b) (idx a)) in Hs by done.
  injection Hs as Hs. lia.
Qed.

Lemma indexed_Permutation l l' : l ≡ₚ l' → indexed l → indexed l'.
Proof. unfold indexed. by intros ->. Qed.

Lemma fmap_inj_on {A B} (f : A → B) (l k : list A) :
  (∀ a b, a ∈ l → b ∈ k → f a = f b → a = b) → f <$> l = f <$> k → l = k.
Proof.
  revert k. induction l as [|a l IH]; intros [|b k] Hinj Heq; try done.
  injection Heq as Hab Heq. f_equal.
  - apply Hinj; [left|left|done].
  - apply IH; [|done]. intros a' b' Ha' Hb'. apply Hinj; by right.
Qed.

Lemma NoDup_fmap_inj_on {A B} (f : A → B) (l : list A) a b :
  NoDup (f <$> l) → a ∈ l → b ∈ l → f a = f b → a = b.
Proof.
  induction l as [|x l IH]; intros Hnd Ha Hb Hf; [by inv Ha|].
  rewrite fmap_cons in Hnd. apply NoDup_cons in Hnd as [Hx Hnd].
  inv Ha; inv Hb; try done.
  - exfalso. apply Hx. rewrite Hf. by apply list_elem_of_fmap_2.
  - exfalso. apply Hx. rewrite <- Hf. by apply list_elem_of_fmap_2.
  - by apply IH.
Qed.

Lemma filter_none {A} (P : A → Prop) `{∀ x, Decision (P x)} (l : list A) :
  Forall (λ x, ¬ P x) l → filter P l = [].
Proof.
  induction 1 as [|x l Hx Hl IH]; [done|].
  rewrite filter_cons, decide_False by done. done.
Qed.

(** In a list sorted by index the names of index [k] stand together, after
    the names of smaller index and before those of larger index. *)
Lemma sorted_three_way (l : list string) (k : Z) :
  StronglySorted (λ a b, idx a <= idx b) l →
  l = filter (λ a, idx a < k) l ++ filter (λ a, idx a = k) l ++ filter (λ a, k < idx a) l.
Proof.
  induction 1 as [|x l Hs IH Hx]; [done|].
  rewrite !filter_cons.
  destruct (decide (idx x < k)) as [Hlt|Hge].
  - rewrite decide_False, decide_False by lia. simpl. by rewrite <- IH.
  - assert (Hnone : filter (λ a, idx a < k) l = []).
    { apply filter_none. eapply Forall_impl; [exact Hx|]. simpl. lia. }
    rewrite Hnone in IH |- *. simpl in IH |- *.
    destruct (decide (idx x = k)) as [Heq|Hne].
    + rewrite decide_False by lia. simpl. by rewrite <- IH.
    + rewrite decide_True by lia.
      assert (Hnone' : filter (λ a, idx a = k) l = []).
      { apply filter_none. eapply Forall_impl; [exact Hx|]. simpl. lia. }
      rewrite Hnone' in IH |- *. simpl in IH |- *. by rewrite <- IH.
Qed.

Lemma filter_ext_in {A} (P Q : A → Prop) `{∀ x, Decision (P x)} `{∀ x, Decision (Q x)}
    (l : list A) :
  (∀ x, x ∈ l → P x ↔ Q x) → filter P l = filter Q l.
Proof.
  induction l as [|x l IH]; intros Hpq; [done|].
  rewrite !filter_cons, IH by (intros y Hy; apply Hpq; by right).
  destruct (decide (P x)) as [Hp|Hp], (decide (Q x)) as [Hq|Hq]; try done;
    exfalso; apply (Hpq x) in Hp || apply (Hpq x) in Hq; try done; by left.
Qed.

Lemma indexedb_sound names : indexedb names = true → indexed names.
Proof.
  unfold indexedb, indexed. rewrite forallb_forall, Forall_forall.
  intros H n Hn. rewrite list_elem_of_In in Hn. specialize (H n Hn).
  destruct (spec_index n) as [k|]; [|done]. exists k. split; [done|lia].
Qed.

Lemma sorted_byb_sound comp out : sorted_byb comp out = true → sorted_by comp out.
Proof.
  induction out as [|x out IH]; intros Hb i j a b Hij Ha Hb'; [done|].
  simpl in Hb. apply andb_true_iff in Hb as [Hx Hrest].
  destruct j as [|j]; [lia|]. destruct i as [|i]; simpl in Ha, Hb'.
  - injection Ha as <-. rewrite forallb_forall in Hx.
    assert (Hin : In b out) by (apply list_elem_of_In; by eapply list_elem_of_lookup_2).
    specialize (Hx b Hin). by destruct (comp b x) as [[]| |].
  - apply (IH Hrest i j); [lia|done..].
Qed.

(** ** What a step of the program adds to the world *)

Lemma extends_refl T w : extends T w w.
Proof. exists [], []. by rewrite !app_nil_r. Qed.

Lemma extends_trans T w1 w2 w3 : extends T w1 w2 → extends T w2 w3 → extends T w1 w3.
Proof.
  intros (k1 & c1 & Hh1 & Hc1 & Hf1) (k2 & c2 & Hh2 & Hc2 & Hf2).
  exists (k1 ++ k2), (c1 ++ c2). rewrite Hh2, Hh1, Hc2, Hc1, !(assoc_L (++)).
  repeat split; try done. by apply Forall_app.
Qed.

Lemma extends_same T w w' :
  heap w' = heap w → match_calls w' = match_calls w → extends T w w'.
Proof. intros Hh Hc. exists [], []. by rewrite !app_nil_r. Qed.

Lemma shows_extends roi T T' w w' : shows roi T w → extends T' w w' → shows roi T w'.
Proof.
  intros [Hv Hr] (k & c & Hh & _ & _). unfold shows. rewrite Hh.
  split; [by apply Mat_valid_app|by rewrite Mat_read_app].
Qed.

Lemma imread_run h d :
  ∃ k, (imread h d).1 = h ++ k ∧ Mat_valid (h ++ k) (imread h d).2.
Proof.
  unfold imread, Mat_alloc. destruct d as [img|]; simpl.
  - destruct (rows img * cols img =? 0); simpl.
    + exists []. by rewrite app_nil_r.
    + exists [img]. split; [done|]. unfold Mat_valid. simpl. rewrite length_app. simpl. lia.
  - exists []. by rewrite app_nil_r.
Qed.


Lemma hoare_bind T P {A B} (m : M A) (f : A → M B) Q R :
  hoare T P m Q → (∀ a, hoare T (Q a) (f a) R) → hoare T P (m ≫= f) R.
Proof.
  intros Hm Hf w Hw. destruct (Hm w Hw) as [Hext HQ].
  unfold mbind, M_bind. destruct (m w) as [w1 [a| |]]; simpl in *; [|done..].
  destruct (Hf a w1 (HQ a eq_refl)) as [Hext' HR].
  split; [by eapply extends_trans|done].
Qed.

Lemma hoare_weaken T (P P' : World → Prop) {A} (m : M A) (Q Q' : A → World → Prop) :
  (∀ w, P' w → P w) → (∀ a w, Q a w → Q' a w) → hoare T P m Q → hoare T P' m Q'.
Proof. intros HP HQ Hm w Hw. destruct (Hm w (HP w Hw)) as [? ?]. eauto. Qed.

Lemma hoare_ret T P {A} (a : A) : hoare T P (mret a) (λ _, P).
Proof. intros w Hw. split; [apply extends_refl|done]. Qed.

Lemma hoare_lift T P {A} (r : Result A) : hoare T P (lift r) (λ _, P).
Proof. intros w Hw. split; [apply extends_refl|done]. Qed.

(** A step that leaves the heap and the matcher calls as they are. *)
Lemma hoare_same T P {A} (m : M A) :
  stable T P →
  (∀ w, heap (m w).1 = heap w ∧ match_calls (m w).1 = match_calls w) →
  hoare T P m (λ _, P).
Proof.
  intros HP Hm w Hw. destruct (Hm w) as [Hh Hc].
  assert (extends T w (m w).1) by (by apply extends_same).
  split; [done|]. intros _ _. by eapply HP.
Qed.

Lemma stable_True T : stable T (λ _, True).
Proof. done. Qed.

Lemma stable_shows roi T : stable T (shows roi T).
Proof. intros w w' Hw Hext. by eapply shows_extends. Qed.

Lemma crop_crop_inside img C R x0 y0 w h :
  0 <= x0 → 0 <= y0 → x0 + w <= C → y0 + h <= R →
  crop (crop img 0 0 C R) x0 y0 w h = crop img x0 y0 w h.
Proof.
  intros Hx Hy Hw Hh. unfold crop at 1 3. f_equal. apply grid_ext. intros r c Hr Hc.
  by rewrite pixel_crop by lia.
Qed.

Lemma hoare_for_each T P {X} (xs : list X) (body : X → M ctrl) :
  (∀ a, hoare T P (body a) (λ _, P)) → hoare T P (for_each xs body) (λ _, P).
Proof.
  intros Hbody. induction xs as [|a xs IH]; simpl.
  - apply hoare_ret.
  - eapply hoare_bind; [apply Hbody|]. intros [|code]; [exact IH|apply hoare_ret].
Qed.

Section Unit.
Variable matchTemplate_prim : Image -> Image -> Result (Image * Image * Mat1f).
Variable minMaxLoc_prim : Mat1f -> Result MinMax.
Variable std_sort : (string -> string -> Result bool) -> list string -> Result (list string).

Lemma hoare_get_results frame roi T fW fH wd ht :
  hoare T (shows roi T)
    (get_results matchTemplate_prim minMaxLoc_prim frame roi fW fH wd ht)
    (λ _, shows roi T).
Proof.
  intros w [Hv Hr].
  destruct (get_results_run matchTemplate_prim minMaxLoc_prim frame roi fW fH wd ht w Hv)
    as [k Hrun].
  rewrite Hrun. cbn [fst snd].
  assert (Hext : extends T w
    {| heap := heap w ++ k; out_dirs := out_dirs w; out_files := out_files w;
       match_calls := match_calls w ++ [(Mat_read (heap w) frame, Mat_read (heap w) roi)] |}).
  { exists k, [(Mat_read (heap w) frame, Mat_read (heap w) roi)].
    repeat split; try done. rewrite Hr. by repeat constructor. }
  split; [done|]. intros _ _. by eapply shows_extends.
Qed.

Lemma hoare_imread T P d :
  stable T P →
  hoare T P (on_heap (λ h, imread h d))
    (λ m w, P w ∧ shows m (match d with
                           | Some img => if rows img * cols img =? 0 then no_image
                                         else crop img 0 0 (cols img) (rows img)
                           | None => no_image
                           end) w).
Proof.
  intros HP w Hw. unfold on_heap, imread, Mat_alloc.
  destruct d as [img|]; [destruct (rows img * cols img =? 0) eqn:Hz|]; cbn [fst snd].
  - split; [apply extends_same; by destruct w|]. intros a [= <-].
    split; [by destruct w|]. by destruct w.
  - assert (Hext : extends T w (set_heap w (heap w ++ [img]))).
    { exists [img], []. by rewrite app_nil_r. }
    split; [done|]. intros a [= <-]. split; [by eapply HP|].
    split; simpl.
    + unfold Mat_valid. simpl. rewrite length_app. simpl. lia.
    + unfold Mat_read. simpl. rewrite Hz.
      by rewrite lookup_app_r, Nat.sub_diag by lia.
  - split; [apply extends_same; by destruct w|]. intros a [= <-].
    split; [by destruct w|]. by destruct w.
Qed.

Lemma hoare_get_roi T P frame R0 wd ht x0 y0 :
  stable T P →
  hoare T (λ w, P w ∧ shows frame R0 w)
    (get_roi frame wd ht x0 y0)
    (λ roi w, P w ∧
       shows roi (if wd * ht =? 0 then no_image else crop R0 x0 y0 wd ht) w ∧
       (0 <= x0 ∧ x0 + wd <= cols R0 ∧ 0 <= y0 ∧ y0 + ht <= rows R0)).
Proof.
  intros HP w [Hw [Hv Hr]].
  destruct (get_roi_run frame wd ht x0 y0 w) as (k & Hw1 & Hroi).
  assert (Hext : extends T w (get_roi frame wd ht x0 y0 w).1).
  { rewrite Hw1. exists k, []. by rewrite app_nil_r. }
  split; [done|]. intros roi Hok. destruct (Hroi roi Hok) as (Hvr & Hrr & Hin).
  split; [by eapply HP|]. rewrite Hw1. simpl. rewrite <- Hr. done.
Qed.

Lemma hoare_process_frame entries csv_path roi T file_name :
  hoare T (shows roi T)
    (process_frame matchTemplate_prim minMaxLoc_prim entries csv_path roi file_name)
    (λ _, shows roi T).
Proof.
  unfold process_frame.
  eapply hoare_bind; [apply hoare_imread, stable_shows|]. intros img. simpl.
  eapply hoare_bind.
  { eapply hoare_weaken; [| |apply hoare_get_results]; [by intros w [? _]|done]. }
  intros ncc. simpl.
  eapply hoare_bind.
  { apply (hoare_same T (shows roi T)); [apply stable_shows|done]. }
  intros frame. simpl.
  eapply hoare_bind.
  { apply (hoare_same T (shows roi T)); [apply stable_shows|done]. }
  intros ?. apply hoare_ret.
Qed.

Lemma hoare_create_folders T P env path :
  stable T P → hoare T P (create_folders env path) (λ _, P).
Proof.
  intros HP. apply hoare_same; [done|]. intros w. unfold create_folders.
  destruct (decide _); [done|]. by destruct (mkdir_ok env path).
Qed.

Lemma hoare_process_experiment env cam mov exp entries :
  hoare (template_of entries) (λ _, True)
    (process_experiment matchTemplate_prim minMaxLoc_prim std_sort env cam mov exp entries)
    (λ _ _, True).
Proof.
  unfold process_experiment.
  eapply hoare_bind; [apply hoare_create_folders, stable_True|]. intros ?.
  eapply hoare_bind; [apply hoare_create_folders, stable_True|]. intros ?.
  destruct (negb _); [apply hoare_ret|].
  eapply hoare_bind; [apply hoare_same; [apply stable_True|done]|]. intros ?.
  eapply hoare_bind; [apply hoare_same; [apply stable_True|done]|]. intros ?.
  eapply hoare_bind; [apply hoare_lift|]. intros file_names.
  eapply hoare_bind; [apply hoare_imread, stable_True|]. intros frame_0. simpl.
  eapply hoare_bind; [apply hoare_get_roi, stable_True|]. intros roi. simpl.
  eapply hoare_bind; [|intros ?; apply (hoare_ret _ (λ _, True))].
  eapply hoare_weaken; [| |apply (hoare_for_each _ (shows roi (template_of entries)))].
  - intros w (_ & Hshows & Hin). unfold template_of.
    destruct (decoded_at entries "frame_0.png") as [img|]; simpl in *;
      [|unfold topLeft_x, roi_w in Hin; lia].
    destruct (rows img * cols img =? 0); simpl in *;
      [unfold topLeft_x, roi_w in Hin; lia|].
    rewrite crop_crop_inside in Hshows by lia. exact Hshows.
  - done.
  - intros file_name. apply hoare_process_frame.
Qed.
End Unit.

(** ** The three directory loops *)

Lemma for_each_app {X} (xs ys : list X) (body : X → M ctrl) w :
  for_each (xs ++ ys) body w =
  match for_each xs body w with
  | (w', Ok Continue) => for_each ys body w'
  | other => other
  end.
Proof.
  revert w. induction xs as [|a xs IH]; intros w; simpl; [done|].
  unfold mbind, M_bind. destruct (body a w) as [w1 [[|code]| |]]; simpl; try done.
Qed.

Lemma for_each_flatten {X Y} (xs : list X) (g : X → list Y) (body : Y → M ctrl) w :
  for_each (xs ≫= g) body w = for_each xs (λ a, for_each (g a) body) w.
Proof.
  revert w. induction xs as [|a xs IH]; intros w; [done|].
  rewrite bind_cons, for_each_app. simpl. unfold mbind at 2, M_bind.
  destruct (for_each (g a) body w) as [w1 [[|code]| |]]; simpl; try done.
Qed.

Lemma for_each_ext {X} (xs : list X) (f g : X → M ctrl) w :
  (∀ a w, f a w = g a w) → for_each xs f w = for_each xs g w.
Proof.
  intros Hfg. revert w. induction xs as [|a xs IH]; intros w; simpl; [done|].
  unfold mbind, M_bind. rewrite Hfg.
  destruct (g a w) as [w1 [[|code]| |]]; simpl; try done.
Qed.

Section Walker.
Variable matchTemplate_prim : Image -> Image -> Result (Image * Image * Mat1f).
Variable minMaxLoc_prim : Mat1f -> Result MinMax.
Variable std_sort : (string -> string -> Result bool) -> list string -> Result (list string).

(** The three nested loops are one loop over the experiment folders. *)
Lemma cam_param_loop_units env cams w :
  cam_param_loop matchTemplate_prim minMaxLoc_prim std_sort env cams w =
  for_each (units_of cams) (unit_body matchTemplate_prim minMaxLoc_prim std_sort env) w.
Proof.
  unfold units_of, cam_param_loop. rewrite for_each_flatten.
  apply for_each_ext. intros [name img|cam movs] w1; [done|].
  unfold movement_loop. rewrite for_each_flatten.
  apply for_each_ext. intros [name img|mov exps] w2; [done|].
  unfold exp_loop. rewrite for_each_flatten.
  apply for_each_ext. intros [name img|exp entries] w3; [done|].
  simpl. unfold mbind, M_bind.
  by destruct (process_experiment _ _ _ _ _ _ _ _ _) as [w4 [[|code]| |]].
Qed.

(** An experiment folder whose Results.csv does not open: the two output
    folders are asked for, nothing else happens, and the loop body leaves
    the function with [EXIT_FAILURE]. *)
Lemma process_experiment_csv_fails env cam mov exp entries w :
  csv_opens env (csv_path_of cam mov exp) = false →
  ∃ w',
    process_experiment matchTemplate_prim minMaxLoc_prim std_sort env cam mov exp entries w
      = (w', Ok (Return EXIT_FAILURE)) ∧
    heap w' = heap w ∧ out_files w' = out_files w ∧ match_calls w' = match_calls w ∧
    out_dirs w ⊆ out_dirs w' ∧
    out_dirs w' ⊆ {[ "../laser_decorrelation_results/" +:+ cam +:+ "/" +:+ mov +:+ "/" +:+ exp;
                     "../laser_decorrelation_images_ncc/" +:+ cam +:+ "/" +:+ mov +:+ "/" +:+ exp ]}
                  ∪ out_dirs w.
Proof.
  intros Hcsv. unfold process_experiment. fold (csv_path_of cam mov exp). rewrite Hcsv.
  simpl negb. cbv iota. unfold mbind, M_bind.
  assert (Hcf : ∀ path w0, ∃ w1, create_folders env path w0 = (w1, Ok ()) ∧
            heap w1 = heap w0 ∧ out_files w1 = out_files w0 ∧
            match_calls w1 = match_calls w0 ∧
            out_dirs w0 ⊆ out_dirs w1 ∧ out_dirs w1 ⊆ {[path]} ∪ out_dirs w0).
  { intros path w0. unfold create_folders.
    destruct (decide (path ∈ out_dirs w0)); [|destruct (mkdir_ok env path)];
      eexists; (split; [reflexivity|]); simpl;
      (split; [done|]); (split; [done|]); (split; [done|]); split;
      first [done | apply union_subseteq_r | apply union_subseteq_r']. }
  destruct (Hcf ("../laser_decorrelation_results/" +:+ cam +:+ "/" +:+ mov +:+ "/" +:+ exp) w)
    as (w1 & -> & Hh1 & Hf1 & Hc1 & Hd1 & Hd1').
  destruct (Hcf ("../laser_decorrelation_images_ncc/" +:+ cam +:+ "/" +:+ mov +:+ "/" +:+ exp) w1)
    as (w2 & -> & Hh2 & Hf2 & Hc2 & Hd2 & Hd2').
  exists w2. split; [reflexivity|]. rewrite Hh2, Hf2, Hc2.
  split; [done|]. split; [done|]. split; [done|]. split; [by etrans|].
  intros p Hp. apply Hd2', elem_of_union in Hp as [Hp|Hp].
  - apply elem_of_union_l. apply elem_of_union_r. exact Hp.
  - apply Hd1', elem_of_union in Hp as [Hp|Hp].
    + apply elem_of_union_l. apply elem_of_union_l. exact Hp.
    + by apply elem_of_union_r.
Qed.
End Walker.

(* ===================================================================== *)
(** * The displacement estimator: [get_results] *)
(* ===================================================================== *)

Section DisplacementEstimator.
Variable matchTemplate_prim : Image -> Image -> Result (Image * Image * Mat1f).
Variable minMaxLoc_prim : Mat1f -> Result MinMax.

(** C1.  Whenever the two matching primitives answer (a result map, then a
    maximum [maxVal] at [maxLoc]), [get_results] returns, with
    [confidence = maxVal * 100],
    [shift_row = (maxLoc.y + height / 2) - frameHeight / 2] and
    [shift_col = (maxLoc.x + width / 2) - frameWidth / 2], where [/] is the
    division of [int] that truncates toward zero ([÷]).  The four sizes are
    the [int] arguments of the call, and no [int] operation overflows. *)
Theorem get_results_confidence_and_shift frame roi fW fH wd ht w I' T' result mm :
  Mat_valid (heap w) roi →
  matchTemplate_prim (Mat_read (heap w) frame) (Mat_read (heap w) roi) = Ok (I', T', result) →
  minMaxLoc_prim result = Ok mm →
  in_int wd → in_int ht → in_int fW → in_int fH →
  in_int (y (maxLoc mm) + ht ÷ 2) → in_int (y (maxLoc mm) + ht ÷ 2 - fH ÷ 2) →
  in_int (x (maxLoc mm) + wd ÷ 2) → in_int (x (maxLoc mm) + wd ÷ 2 - fW ÷ 2) →
  ∃ w' a,
    get_results matchTemplate_prim minMaxLoc_prim frame roi fW fH wd ht w = (w', Ok a) ∧
    match_loc a = maxLoc mm ∧
    confidence a = dmul (maxVal mm) (double_of_int 100) ∧
    shift_row a = (y (maxLoc mm) + ht ÷ 2) - fH ÷ 2 ∧
    shift_col a = (x (maxLoc mm) + wd ÷ 2) - fW ÷ 2.
Proof.
  intros Hroi Hmatch Hmm Hwd Hht HfW HfH Hy1 Hy2 Hx1 Hx2.
  destruct (get_results_run matchTemplate_prim minMaxLoc_prim frame roi fW fH wd ht w Hroi)
    as [k Hrun].
  rewrite Hrun, Hmatch. simpl. rewrite Hmm. simpl.
  eexists _, _. split; [reflexivity|]. simpl.
  unfold int_sub, int_add. rewrite !int_div2_exact by done.
  rewrite (wrap_int_id (y _ + _)), (wrap_int_id (x _ + _)) by done.
  rewrite !wrap_int_id by done. done.
Qed.

(** C5.  The identity check with the compiled-in geometry (template
    128x128 at (300, 208), frame 728x544): the template is cut from [frame]
    by [get_roi]; if the matcher, run on that frame and that template,
    finds the template where it was cut with score 1, [get_results] answers
    [shift_row = shift_col = 0] and [confidence = 100]. *)
Theorem identity_check frame w roi w1 I' T' result mm :
  get_roi frame roi_w roi_h topLeft_x topLeft_y w = (w1, Ok roi) →
  matchTemplate_prim (Mat_read (heap w1) frame) (Mat_read (heap w1) roi) = Ok (I', T', result) →
  minMaxLoc_prim result = Ok mm →
  maxLoc mm = {| x := topLeft_x; y := topLeft_y |} →
  maxVal mm = double_of_int 1 →
  ∃ w2 a,
    get_results matchTemplate_prim minMaxLoc_prim frame roi
                frameWidth frameHeight roi_w roi_h w1 = (w2, Ok a) ∧
    shift_row a = 0 ∧ shift_col a = 0 ∧ confidence a = double_of_int 100.
Proof.
  intros Hroi Hmatch Hmm Hloc Hval.
  destruct (get_roi_run frame roi_w roi_h topLeft_x topLeft_y w) as (k & Hw1 & Hk).
  rewrite Hroi in Hw1, Hk. simpl in Hw1, Hk. destruct (Hk roi eq_refl) as (Hvalid & _ & _).
  assert (Hv1 : Mat_valid (heap w1) roi) by (by rewrite Hw1).
  destruct (get_results_run matchTemplate_prim minMaxLoc_prim frame roi
              frameWidth frameHeight roi_w roi_h w1 Hv1) as [k' Hrun].
  rewrite Hrun, Hmatch. simpl. rewrite Hmm. simpl.
  eexists _, _. split; [reflexivity|]. simpl. rewrite Hloc, Hval. done.
Qed.
End DisplacementEstimator.

(** C1 at odd sizes, where the division truncates: a 127x129 template found
    at (305, 211) in a frame of 727x545 gives
    [shift_row = 211 + 64 - 272 = 3] and [shift_col = 305 + 63 - 363 = 5]. *)
Lemma get_results_confidence_and_shift_witness :
  ∃ w' a,
    get_results (Examples.matchTemplate_stub (float_of_int 1))
                (Examples.minMaxLoc_stub {| x := 305; y := 211 |})
                (Examples.header_of Examples.frame_728x544 0)
                (Examples.header_of Examples.frame_flat 1)
                727 545 127 129
                {| heap := [Examples.frame_728x544; Examples.frame_flat];
                   out_dirs := ∅; out_files := ∅; match_calls := [] |} = (w', Ok a) ∧
    match_loc a = {| x := 305; y := 211 |} ∧
    confidence a = dmul (double_of_int 1) (double_of_int 100) ∧
    shift_row a = (211 + 129 ÷ 2) - 545 ÷ 2 ∧
    shift_col a = (305 + 127 ÷ 2) - 727 ÷ 2.
Proof.
  eapply (get_results_confidence_and_shift
            (Examples.matchTemplate_stub (float_of_int 1))
            (Examples.minMaxLoc_stub {| x := 305; y := 211 |})
            (Examples.header_of Examples.frame_728x544 0)
            (Examples.header_of Examples.frame_flat 1)
            727 545 127 129 _ no_image no_image _
            {| minVal := double_of_int 1; maxVal := double_of_int 1;
               minLoc := {| x := 305; y := 211 |}; maxLoc := {| x := 305; y := 211 |} |}).
  - unfold Mat_valid; simpl; lia.
  - reflexivity.
  - reflexivity.
  - vm_compute; split; discriminate.
  - vm_compute; split; discriminate.
  - vm_compute; split; discriminate.
  - vm_compute; split; discriminate.
  - vm_compute; split; discriminate.
  - vm_compute; split; discriminate.
  - vm_compute; split; discriminate.
  - vm_compute; split; discriminate.
Defined.

(** C5 at a frame of constant intensity 9: the template cut by [get_roi],
    and a matcher that reports score 1 at (300, 208). *)
Lemma identity_check_witness :
  ∃ roi w1 w2 a,
    get_roi (Examples.header_of Examples.frame_728x544 0) roi_w roi_h topLeft_x topLeft_y
            (Examples.world_one_frame Examples.frame_728x544) = (w1, Ok roi) ∧
    get_results (Examples.matchTemplate_stub (float_of_int 1))
                (Examples.minMaxLoc_stub {| x := 300; y := 208 |})
                (Examples.header_of Examples.frame_728x544 0) roi
                frameWidth frameHeight roi_w roi_h w1 = (w2, Ok a) ∧
    shift_row a = 0 ∧ shift_col a = 0 ∧ confidence a = double_of_int 100.
Proof.
  eexists _, _.
  assert (Hroi : get_roi (Examples.header_of Examples.frame_728x544 0)
                         roi_w roi_h topLeft_x topLeft_y
                         (Examples.world_one_frame Examples.frame_728x544) = (_, Ok _))
    by reflexivity.
  destruct (identity_check
              (Examples.matchTemplate_stub (float_of_int 1))
              (Examples.minMaxLoc_stub {| x := 300; y := 208 |})
              _ _ _ _ no_image no_image _
              {| minVal := double_of_int 1; maxVal := double_of_int 1;
                 minLoc := {| x := 300; y := 208 |}; maxLoc := {| x := 300; y := 208 |} |}
              Hroi eq_refl eq_refl eq_refl eq_refl) as (w2 & a & Hrun & Hshift).
  exists w2, a. split; [exact Hroi|]. split; [exact Hrun|exact Hshift].
Defined.

(* ===================================================================== *)
(** * The sharpness meter on an empty frame *)
(* ===================================================================== *)

(** C2.  On every empty raster [mig_frame] returns [EXIT_FAILURE] converted
    to [double], the number 1.0, and no error value; 1.0 is also the MIG of
    a well-formed frame (a step from 0 to 1 in a row of eight pixels).  In
    the frame loop the call of [mig_frame] comes after [get_results] on the
    same image: with a matcher that refuses an empty image, as
    [cv::matchTemplate] does, the loop body ends with the matcher's exception
    on a file that does not decode and writes no row, so the 1.0 of the
    early return does not reach the table. *)
Theorem mig_frame_empty_returns_one :
  (∀ frame, Image_empty frame = true → mig_frame frame = double_of_int 1) ∧
  (wf_image Examples.frame_step ∧ Image_empty Examples.frame_step = false ∧
   mig_frame Examples.frame_step = double_of_int 1) ∧
  let run :=
    process_frame (Inputs.matchTemplate_picky (float_of_int 1))
                  (Examples.minMaxLoc_stub {| x := 300; y := 208 |})
                  [] "Results.csv" (Examples.header_of Examples.frame_flat 0)
                  "frame_1.png" (Examples.world_one_frame Examples.frame_flat) in
  run.2 = Throw (cv_Exception "matchTemplate") ∧
  out_files run.1 !! "Results.csv" = None.
Proof.
  split; [|split].
  - intros frame Hempty. unfold mig_frame. by rewrite Hempty.
  - split; [|split; reflexivity].
    unfold wf_image. simpl. repeat split; try lia.
    repeat constructor; lia.
  - split; [by vm_compute|]. vm_compute. reflexivity.
Qed.

(* ===================================================================== *)
(** * The calibration transform *)
(* ===================================================================== *)

(** ** The kernel's binary64 numbers compute what the model specifies *)

Lemma SFopp_binary_round prec emax m e :
  SFopp (binary_round prec emax false m e) = binary_round prec emax true m e.
Proof.
  unfold binary_round, binary_round_aux.
  destruct (shl_align _ _ _) as [mz ez].
  destruct (shr_fexp prec emax (Zpos mz) ez loc_Exact) as [mrs' e'].
  destruct (shr_fexp prec emax _ e' loc_Exact) as [mrs'' e''].
  destruct (shr_m mrs'') as [|p|p]; [done| |done].
  by destruct (e'' <=? emax - prec).
Qed.

Lemma of_int_spec z :
  - 2 ^ 62 < z < 2 ^ 62 → FloatOps.Prim2SF (Prim64.of_int z) = double_of_int z.
Proof.
  intros Hz. unfold Prim64.of_int, double_of_int.
  change (2 ^ 62) with 4611686018427387904 in Hz.
  assert (HwB : Uint63.wB = 9223372036854775808) by reflexivity.
  destruct (z <? 0) eqn:Hneg.
  - apply Z.ltb_lt in Hneg.
    rewrite FloatAxioms.opp_spec, FloatAxioms.of_uint63_spec, Uint63.of_Z_spec.
    rewrite Z.mod_small by lia.
    destruct z as [|p|p]; [lia|lia|]. simpl Z.opp.
    unfold binary_normalize. apply SFopp_binary_round.
  - apply Z.ltb_ge in Hneg.
    rewrite FloatAxioms.of_uint63_spec, Uint63.of_Z_spec.
    by rewrite Z.mod_small by lia.
Qed.

Lemma T_fixed_spec :
  FloatOps.Prim2SF Prim64.Txx = Txx T_fixed ∧ FloatOps.Prim2SF Prim64.Txy = Txy T_fixed ∧
  FloatOps.Prim2SF Prim64.Tyx = Tyx T_fixed ∧ FloatOps.Prim2SF Prim64.Tyy = Tyy T_fixed.
Proof. repeat split; vm_compute; reflexivity. Qed.

Lemma shift_col_mm_spec r c :
  - 2 ^ 62 < r < 2 ^ 62 → - 2 ^ 62 < c < 2 ^ 62 →
  FloatOps.Prim2SF (Prim64.shift_col_mm r c) = shift_col_mm T_fixed r c.
Proof.
  intros Hr Hc. destruct T_fixed_spec as (Hxx & Hxy & Hyx & Hyy).
  unfold Prim64.shift_col_mm.
  rewrite FloatAxioms.div_spec, !FloatAxioms.sub_spec, !FloatAxioms.mul_spec.
  rewrite Hxx, Hxy, Hyx, Hyy, !of_int_spec by done. reflexivity.
Qed.

Lemma shift_row_mm_spec r c :
  - 2 ^ 62 < r < 2 ^ 62 → - 2 ^ 62 < c < 2 ^ 62 →
  FloatOps.Prim2SF (Prim64.shift_row_mm r c) = shift_row_mm T_fixed r c.
Proof.
  intros Hr Hc. destruct T_fixed_spec as (Hxx & Hxy & Hyx & Hyy).
  unfold Prim64.shift_row_mm.
  rewrite FloatAxioms.div_spec, !FloatAxioms.sub_spec, !FloatAxioms.mul_spec.
  rewrite Hxx, Hxy, Hyx, Hyy, !of_int_spec by done. reflexivity.
Qed.


(** A value whose magnitude is at most a number is a number. *)
Lemma SFleb_abs_finite x m e :
  SFleb (SFabs x) (S754_finite false m e) = true → is_finite x = true.
Proof. by destruct x as [s|[]| |s mx ex]. Qed.

Lemma bounded_spec r c :
  - 2 ^ 62 < r < 2 ^ 62 → - 2 ^ 62 < c < 2 ^ 62 →
  Prim64.bounded r c = true →
  is_finite (shift_col_mm T_fixed r c) = true ∧ is_finite (shift_row_mm T_fixed r c) = true.
Proof.
  intros Hr Hc. unfold Prim64.bounded.
  rewrite !FloatAxioms.leb_spec, !FloatAxioms.abs_spec.
  rewrite shift_col_mm_spec, shift_row_mm_spec by done.
  assert (Htwo : ∃ m e, FloatOps.Prim2SF Prim64.two = S754_finite false m e).
  { eexists _, _. vm_compute. reflexivity. }
  destruct Htwo as (m & e & ->).
  intros [Hx Hy]%andb_prop. split; by eapply SFleb_abs_finite.
Qed.

Lemma all_pass_elim test row0 rows col0 cols r c :
  Prim64.all_pass test row0 rows col0 cols = true →
  row0 <= r < row0 + rows → col0 <= c < col0 + cols → test r c = true.
Proof.
  unfold Prim64.all_pass. intros Hall Hr Hc. rewrite forallb_forall in Hall.
  assert (Hinr : In r (seqZ row0 rows)) by (apply list_elem_of_In, elem_of_seqZ; lia).
  specialize (Hall r Hinr). rewrite forallb_forall in Hall.
  apply Hall. apply list_elem_of_In, elem_of_seqZ. lia.
Qed.

(** Every shift [get_results] can answer with the compiled-in geometry (rows
    [-208 .. 208], columns [-300 .. 300]) passes both tests. *)
Lemma reachable_shifts_checked :
  Prim64.all_pass Prim64.shift_passes (-208) 417 (-300) 601 = true.
Proof. vm_compute. reflexivity. Qed.

Lemma reachable_shift_checked shift_row shift_col :
  -208 <= shift_row <= 208 → -300 <= shift_col <= 300 →
  Prim64.round_trip_within Prim64.tolerance shift_row shift_col = true ∧
  Prim64.bounded shift_row shift_col = true.
Proof.
  intros Hr Hc. apply andb_prop.
  apply (all_pass_elim Prim64.shift_passes (-208) 417 (-300) 601 shift_row shift_col
           reachable_shifts_checked); lia.
Qed.

(** ** The determinant *)


(** For every shift [get_results] can answer (rows [-208 .. 208], columns
    [-300 .. 300]) both quotients are numbers, neither an infinity nor a
    NaN. *)
Lemma calibration_quotients_finite (shift_row shift_col : Z) :
  -208 <= shift_row <= 208 → -300 <= shift_col <= 300 →
  is_finite (shift_col_mm T_fixed shift_row shift_col) = true ∧
  is_finite (shift_row_mm T_fixed shift_row shift_col) = true.
Proof.
  intros Hr Hc.
  destruct (reachable_shift_checked shift_row shift_col Hr Hc) as [_ Hb].
  apply bounded_spec; [change (2 ^ 62) with 4611686018427387904; lia..|done].
Qed.

(** ** The round trip *)

(** The recovery is not bit for bit: with the compiled-in matrix the shift
    (row 3, column 5) comes back, in [double], as row [3 + 2^-51]
    (3.0000000000000004), column 5. *)
Lemma round_trip_double_not_bitwise :
  forward_matrix T_fixed (shift_col_mm T_fixed 3 5) (shift_row_mm T_fixed 3 5)
    = (double_of_int 5, S754_finite false 6755399441055745 (-51)).
Proof. reflexivity. Qed.

(** Read over the rationals, the two expressions of the program invert the
    forward matrix exactly, for every matrix whose determinant is not zero
    and every integer shift. *)
Lemma round_trip_exact (T : CalibrationMatrix Qc) (shift_row shift_col : Z) :
  det T ≠ 0%Qc →
  forward_matrix T (shift_col_mm T shift_row shift_col) (shift_row_mm T shift_row shift_col)
    = (Qc_of_Z shift_col, Qc_of_Z shift_row).
Proof.
  destruct T as [a b c d]. unfold det, forward_matrix, shift_col_mm, shift_row_mm. simpl.
  intros Hdet. f_equal; field; exact Hdet.
Qed.



(** The same bound evaluated on the model's [double] alone, on a sample:
    every shift of at most 12 pixels either way. *)
Lemma round_trip_double_close (shift_row shift_col : Z) :
  -12 <= shift_row <= 12 → -12 <= shift_col <= 12 →
  round_trip_within (double_lit 1 (-44)) shift_row shift_col = true.
Proof.
  intros Hr Hc.
  assert (Hall : forallb (λ r, forallb (round_trip_within (double_lit 1 (-44)) r)
                                       (seqZ (-12) 25)) (seqZ (-12) 25) = true)
    by (vm_compute; reflexivity).
  rewrite forallb_forall in Hall.
  assert (Hin : ∀ z, -12 <= z <= 12 → In z (seqZ (-12) 25)).
  { intros z Hz. apply list_elem_of_In, elem_of_seqZ. lia. }
  specialize (Hall shift_row (Hin _ Hr)). rewrite forallb_forall in Hall.
  exact (Hall shift_col (Hin _ Hc)).
Qed.

(* ===================================================================== *)
(** * The sharpness meter on a flat frame *)
(* ===================================================================== *)

(** C6.  A frame that is not empty and has the same intensity at every pixel
    has MIG exactly [+0.0]: both Sobel responses vanish at every pixel (the
    reflected border repeats the same intensity), so do the magnitudes and
    their sum, and zero divided by the pixel count (which fits an [int]) is
    zero. *)
Theorem mig_frame_uniform_is_zero (frame : Image) (v : Z) :
  0 < rows frame → 0 < cols frame → in_int (rows frame * cols frame) →
  uniform frame v →
  mig_frame frame = S754_zero false.
Proof.
  intros Hr Hc Hint Hu. unfold mig_frame, Image_empty.
  destruct (rows frame * cols frame =? 0) eqn:Hz; [nia|].
  rewrite sum_zero.
  - unfold int_mul. rewrite wrap_int_id by done.
    apply ddiv_zero_pos. unfold in_int in Hint. nia.
  - apply magnitude_zero; apply (Sobel_uniform frame v); auto.
Qed.

Lemma mig_frame_uniform_is_zero_witness :
  mig_frame Examples.frame_flat = S754_zero false.
Proof.
  apply (mig_frame_uniform_is_zero Examples.frame_flat 7).
  - simpl; lia.
  - simpl; lia.
  - vm_compute; split; discriminate.
  - intros r c Hr Hc. simpl in Hr, Hc.
    assert (r = 0 ∨ r = 1 ∨ r = 2) as [->|[->| ->]] by lia;
    assert (c = 0 ∨ c = 1 ∨ c = 2 ∨ c = 3) as [->|[->|[->| ->]]] by lia; reflexivity.
Defined.

(* ===================================================================== *)
(** * The frame sequencer: [std::sort] with the index comparator *)
(* ===================================================================== *)

Section Sequencer.
Variable std_sort : (string -> string -> Result bool) -> list string -> Result (list string).

(** C4, amended.  For a leaf whose names each have a first maximal run of
    digits that denotes an [int], and a [std::sort] that keeps its promise
    on the leaf and on another enumeration [names'] of it: the sequencer
    returns the names; the index the comparator reads in each is the number
    its first maximal run of digits denotes; the output is ascending by that
    number; the sequence of indices is the same for both enumerations; and
    when the indices are distinct the output is strictly increasing and the
    same list for both enumerations. *)
Theorem FrameSequencer_ascending names names' :
  indexed names →
  names ≡ₚ names' →
  std_sort_post std_sort frame_less names →
  std_sort_post std_sort frame_less names' →
  ∃ out out',
    FrameSequencer std_sort names = Ok out ∧
    FrameSequencer std_sort names' = Ok out' ∧
    names ≡ₚ out ∧
    Forall (λ n, ∃ k, spec_index n = Some k ∧ frame_index n = Ok k) out ∧
    (∀ i j a b ka kb, (i < j)%nat → out !! i = Some a → out !! j = Some b →
       spec_index a = Some ka → spec_index b = Some kb → ka <= kb) ∧
    spec_index <$> out' = spec_index <$> out ∧
    (NoDup (spec_index <$> names) →
       (∀ i j a b ka kb, (i < j)%nat → out !! i = Some a → out !! j = Some b →
          spec_index a = Some ka → spec_index b = Some kb → ka < kb) ∧
       out' = out).
Proof.
  intros Hidx Hperm (out & Hrun & Hp & Hs) (out' & Hrun' & Hp' & Hs').
  assert (Hio : indexed out) by (by eapply indexed_Permutation).
  assert (Hio' : indexed out').
  { eapply indexed_Permutation; [exact Hp'|]. by eapply indexed_Permutation. }
  pose proof (sorted_by_index out Hio Hs) as Hss.
  pose proof (sorted_by_index out' Hio' Hs') as Hss'.
  assert (Hpo : out' ≡ₚ out) by (by rewrite <- Hp', <- Hperm, Hp).
  assert (Hkeys : idx <$> out' = idx <$> out).
  { apply (StronglySorted_unique Z.le).
    - by apply (StronglySorted_fmap idx (λ a b, idx a <= idx b) Z.le).
    - by apply (StronglySorted_fmap idx (λ a b, idx a <= idx b) Z.le).
    - by rewrite Hpo. }
  assert (Hspec : ∀ l, indexed l → spec_index <$> l = Some <$> (idx <$> l)).
  { intros l Hl. rewrite <- list_fmap_compose. apply list_fmap_ext.
    intros i n Hn. simpl. eapply indexed_idx; [exact Hl|].
    by eapply list_elem_of_lookup_2. }
  exists out, out'. repeat split; try done.
  - apply Forall_forall. intros n Hn.
    destruct (indexed_idx out n Hio Hn) as [Hk Hle]. exists (idx n). split; [done|].
    rewrite (frame_index_spec n (idx n) Hk).
    by replace (idx n <=? INT_MAX) with true by (symmetry; by apply Z.leb_le).
  - intros i j a b ka kb Hij Ha Hb Hka Hkb.
    pose proof (StronglySorted_lookup _ out i j a b Hss Hij Ha Hb) as Hle.
    unfold idx in Hle. rewrite Hka, Hkb in Hle. exact Hle.
  - by rewrite !Hspec, Hkeys.
  - intros i j a b ka kb Hij Ha Hb Hka Hkb.
    pose proof (StronglySorted_lookup _ out i j a b Hss Hij Ha Hb) as Hle.
    unfold idx in Hle. rewrite Hka, Hkb in Hle. simpl in Hle.
    destruct (decide (ka = kb)) as [->|]; [|lia]. exfalso.
    assert (Hnd : NoDup (spec_index <$> out)) by (by rewrite <- Hp).
    assert (a = b) as ->.
    { eapply (NoDup_fmap_inj_on spec_index out); [done| | |congruence];
        by eapply list_elem_of_lookup_2. }
    apply NoDup_fmap_1 in Hnd. rewrite NoDup_alt in Hnd.
    specialize (Hnd i j b Ha Hb). lia.
  - apply (fmap_inj_on spec_index); [|by rewrite !Hspec, Hkeys].
    intros a b Ha Hb Hab. rewrite Hpo in Ha.
    assert (Hnd : NoDup (spec_index <$> out)) by (by rewrite <- Hp).
    by eapply (NoDup_fmap_inj_on spec_index out).
Qed.

(** C7, amended.  [std::sort] promises no order among names that compare
    equal.  What the sequencer keeps of the names of one index [k]: they are
    the same names as in the input (in some order), and they stand together
    in the output, after every name of smaller index and before every name
    of larger index. *)
Theorem FrameSequencer_ties names k :
  indexed names →
  std_sort_post std_sort frame_less names →
  ∃ out before after,
    FrameSequencer std_sort names = Ok out ∧
    filter (λ n, spec_index n = Some k) out ≡ₚ filter (λ n, spec_index n = Some k) names ∧
    out = before ++ filter (λ n, spec_index n = Some k) out ++ after ∧
    Forall (λ n, idx n < k) before ∧ Forall (λ n, k < idx n) after.
Proof.
  intros Hidx (out & Hrun & Hp & Hs).
  assert (Hio : indexed out) by (by eapply indexed_Permutation).
  pose proof (sorted_by_index out Hio Hs) as Hss.
  assert (Hf : filter (λ n, spec_index n = Some k) out = filter (λ n, idx n = k) out).
  { apply filter_ext_in. intros n Hn.
    destruct (indexed_idx out n Hio Hn) as [Hk _]. rewrite Hk. naive_solver. }
  exists out, (filter (λ a, idx a < k) out), (filter (λ a, k < idx a) out).
  split; [done|]. split; [by rewrite Hp|]. split.
  - rewrite Hf. by apply sorted_three_way.
  - split; apply Forall_forall; intros n Hn%list_elem_of_filter; tauto.
Qed.
End Sequencer.

(** C4, the claim as stated fails: both names have a run of digits, the
    first run is the number 99999999999, which is not an [int]; [std::stoi]
    throws [std::out_of_range] inside the comparator and the sequencer
    returns no list. *)
Lemma FrameSequencer_run_not_an_int :
  Forall (λ n, is_Some (spec_index n)) Examples.names_big ∧
  FrameSequencer GnuSort.sort Examples.names_big = Throw (out_of_range "stoi").
Proof. split; [repeat constructor; by eexists|vm_compute; reflexivity]. Qed.

(** C4 on three names, enumerated in two orders, sorted by libstdc++. *)
Lemma FrameSequencer_ascending_witness :
  ∃ out out',
    FrameSequencer GnuSort.sort Examples.names_3 = Ok out ∧
    FrameSequencer GnuSort.sort Examples.names_3' = Ok out' ∧
    Examples.names_3 ≡ₚ out ∧
    Forall (λ n, ∃ k, spec_index n = Some k ∧ frame_index n = Ok k) out ∧
    (∀ i j a b ka kb, (i < j)%nat → out !! i = Some a → out !! j = Some b →
       spec_index a = Some ka → spec_index b = Some kb → ka <= kb) ∧
    spec_index <$> out' = spec_index <$> out ∧
    (NoDup (spec_index <$> Examples.names_3) →
       (∀ i j a b ka kb, (i < j)%nat → out !! i = Some a → out !! j = Some b →
          spec_index a = Some ka → spec_index b = Some kb → ka < kb) ∧
       out' = out).
Proof.
  apply (FrameSequencer_ascending GnuSort.sort Examples.names_3 Examples.names_3').
  - apply indexedb_sound. vm_compute; reflexivity.
  - unfold Examples.names_3, Examples.names_3'.
    etrans; [apply perm_swap|]. apply perm_skip, perm_swap.
  - exists ["frame_0.png"; "frame_2.png"; "frame_10.png"].
    split; [vm_compute; reflexivity|]. split; [exact (Permutation_rev Examples.names_3)|].
    apply sorted_byb_sound. vm_compute; reflexivity.
  - exists ["frame_0.png"; "frame_2.png"; "frame_10.png"].
    split; [vm_compute; reflexivity|]. split; [apply perm_swap|].
    apply sorted_byb_sound. vm_compute; reflexivity.
Defined.

(** C7, the claim as stated fails: on seventeen names that are already in
    ascending order, libstdc++'s [std::sort] puts frame_00.png before
    frame_0.png, which stood before it in the input; both have index 0. *)
Lemma FrameSequencer_not_stable :
  ∃ out,
    FrameSequencer GnuSort.sort Examples.names_17 = Ok out ∧
    filter (λ n, spec_index n = Some 0) Examples.names_17 = ["frame_0.png"; "frame_00.png"] ∧
    filter (λ n, spec_index n = Some 0) out = ["frame_00.png"; "frame_0.png"] ∧
    ¬ keeps_input_order Examples.names_17 out.
Proof.
  eexists. split; [vm_compute; reflexivity|]. split; [vm_compute; reflexivity|]. split; [vm_compute; reflexivity|].
  intros H. specialize (H 0). vm_compute in H. discriminate.
Qed.

(** C7 on the same seventeen names and the index 0. *)
Lemma FrameSequencer_ties_witness :
  ∃ out before after,
    FrameSequencer GnuSort.sort Examples.names_17 = Ok out ∧
    filter (λ n, spec_index n = Some 0) out
      ≡ₚ filter (λ n, spec_index n = Some 0) Examples.names_17 ∧
    out = before ++ filter (λ n, spec_index n = Some 0) out ++ after ∧
    Forall (λ n, idx n < 0) before ∧ Forall (λ n, 0 < idx n) after.
Proof.
  apply (FrameSequencer_ties GnuSort.sort Examples.names_17 0).
  - apply indexedb_sound. vm_compute; reflexivity.
  - eexists. split; [vm_compute; reflexivity|]. split; [apply perm_swap|].
    apply sorted_byb_sound. vm_compute; reflexivity.
Defined.

(* ===================================================================== *)
(** * [get_results] works on copies *)
(* ===================================================================== *)

Section Copies.
Variable matchTemplate_prim : Image -> Image -> Result (Image * Image * Mat1f).
Variable minMaxLoc_prim : Mat1f -> Result MinMax.
Variable std_sort : (string -> string -> Result bool) -> list string -> Result (list string).

(** C10.  Whatever the matcher does to the two buffers it is handed (they
    are the copies [get_results] made), a call of [get_results] leaves
    every buffer that was in the heap before it as it was, so [frame] and
    [roi] show afterwards what they showed before, and the matcher was
    handed exactly those two rasters.  And in a whole experiment folder
    every call of the matcher, for every frame, is handed the same
    template: the compiled-in rectangle of what frame_0.png decodes to. *)
Theorem get_results_matches_on_copies :
  (∀ frame roi fW fH wd ht w,
     Mat_valid (heap w) frame → Mat_valid (heap w) roi →
     let w' := (get_results matchTemplate_prim minMaxLoc_prim frame roi fW fH wd ht w).1 in
     (∀ l, (l < length (heap w))%nat → heap w' !! l = heap w !! l) ∧
     Mat_read (heap w') frame = Mat_read (heap w) frame ∧
     Mat_read (heap w') roi = Mat_read (heap w) roi ∧
     match_calls w' = match_calls w ++ [(Mat_read (heap w) frame, Mat_read (heap w) roi)]) ∧
  (∀ env cam mov exp entries w,
     let w' := (process_experiment matchTemplate_prim minMaxLoc_prim std_sort
                  env cam mov exp entries w).1 in
     ∃ calls, match_calls w' = match_calls w ++ calls ∧
              Forall (λ call, call.2 = template_of entries) calls).
Proof.
  split.
  - intros frame roi fW fH wd ht w Hvf Hvr.
    destruct (get_results_run matchTemplate_prim minMaxLoc_prim frame roi fW fH wd ht w Hvr)
      as [k Hrun].
    rewrite Hrun. cbn [fst heap match_calls].
    split; [intros l Hl; by rewrite lookup_app_l|].
    by rewrite !Mat_read_app.
  - intros env cam mov exp entries w.
    destruct (hoare_process_experiment matchTemplate_prim minMaxLoc_prim std_sort
                env cam mov exp entries w I) as [(k & c & _ & Hc & Hf) _].
    by exists c.
Qed.
End Copies.

(** C10 with a matcher that overwrites both buffers it is handed: the frame
    and the template in the heap are as before. *)
Lemma get_results_matches_on_copies_witness :
  let w := {| heap := [Examples.frame_flat; Examples.frame_step];
              out_dirs := ∅; out_files := ∅; match_calls := [] |} in
  let frame := Examples.header_of Examples.frame_flat 0 in
  let roi := Examples.header_of Examples.frame_step 1 in
  let w' := (get_results (Examples.matchTemplate_stub (float_of_int 1))
                         (Examples.minMaxLoc_stub {| x := 0; y := 0 |})
                         frame roi 4 3 8 1 w).1 in
  (∀ l, (l < length (heap w))%nat → heap w' !! l = heap w !! l) ∧
  Mat_read (heap w') frame = Mat_read (heap w) frame ∧
  Mat_read (heap w') roi = Mat_read (heap w) roi ∧
  match_calls w' = match_calls w ++ [(Mat_read (heap w) frame, Mat_read (heap w) roi)].
Proof.
  intros w frame roi.
  apply (proj1 (get_results_matches_on_copies
                  (Examples.matchTemplate_stub (float_of_int 1))
                  (Examples.minMaxLoc_stub {| x := 0; y := 0 |}) GnuSort.sort)
               frame roi 4 3 8 1 w).
  - unfold Mat_valid; simpl; lia.
  - unfold Mat_valid; simpl; lia.
Defined.

(* ===================================================================== *)
(** * A Results.csv that does not open *)
(* ===================================================================== *)

Section SinkFailure.
Variable matchTemplate_prim : Image -> Image -> Result (Image * Image * Mat1f).
Variable minMaxLoc_prim : Mat1f -> Result MinMax.
Variable std_sort : (string -> string -> Result bool) -> list string -> Result (list string).

(** C9.  Let the experiment folders under the root be [pre], then
    [cam/mov/exp], then [post], in the order the loops reach them, and let
    the folders of [pre] be processed to their end, leaving the world [w1].
    If Results.csv of [cam/mov/exp] does not open, [recursive_folders]
    returns [EXIT_FAILURE] there and then: no table is created or written
    for that folder or for any folder of [post], no frame is read or
    matched, and the only folders that can have been created since [w1]
    are the two output folders of [cam/mov/exp]. *)
Theorem csv_open_failure_ends_the_run env name cams pre cam mov exp entries post w w1 :
  fs_root env = Some (Dir name cams) →
  units_of cams = pre ++ (cam, mov, exp, entries) :: post →
  for_each pre (unit_body matchTemplate_prim minMaxLoc_prim std_sort env) w = (w1, Ok Continue) →
  csv_opens env (csv_path_of cam mov exp) = false →
  ∃ w2,
    recursive_folders matchTemplate_prim minMaxLoc_prim std_sort env w = (w2, Ok EXIT_FAILURE) ∧
    heap w2 = heap w1 ∧ out_files w2 = out_files w1 ∧ match_calls w2 = match_calls w1 ∧
    out_dirs w1 ⊆ out_dirs w2 ∧
    out_dirs w2 ⊆ {[ "../laser_decorrelation_results/" +:+ cam +:+ "/" +:+ mov +:+ "/" +:+ exp;
                     "../laser_decorrelation_images_ncc/" +:+ cam +:+ "/" +:+ mov +:+ "/" +:+ exp ]}
                  ∪ out_dirs w1.
Proof.
  intros Hroot Hunits Hpre Hcsv.
  destruct (process_experiment_csv_fails matchTemplate_prim minMaxLoc_prim std_sort
              env cam mov exp entries w1 Hcsv) as (w2 & Hrun & Hfacts).
  exists w2. split; [|exact Hfacts].
  unfold recursive_folders. rewrite Hroot. unfold mbind, M_bind.
  rewrite cam_param_loop_units, Hunits, for_each_app, Hpre.
  cbn [for_each]. unfold mbind, M_bind. cbn [unit_body]. by rewrite Hrun.
Qed.
End SinkFailure.

(** C9 on a root with two experiment folders, where Results.csv of the first
    one does not open: the second folder is never reached. *)
Lemma csv_open_failure_ends_the_run_witness :
  ∃ w2,
    recursive_folders (Examples.matchTemplate_stub (float_of_int 1))
                      (Examples.minMaxLoc_stub {| x := 0; y := 0 |}) GnuSort.sort
                      Examples.env_csv_fails Examples.world_empty = (w2, Ok EXIT_FAILURE) ∧
    heap w2 = heap Examples.world_empty ∧
    out_files w2 = out_files Examples.world_empty ∧
    match_calls w2 = match_calls Examples.world_empty ∧
    out_dirs Examples.world_empty ⊆ out_dirs w2 ∧
    out_dirs w2 ⊆ {[ "../laser_decorrelation_results/" +:+ "Gain_1" +:+ "/" +:+ "Move_1" +:+ "/" +:+ "Exp_1";
                     "../laser_decorrelation_images_ncc/" +:+ "Gain_1" +:+ "/" +:+ "Move_1" +:+ "/" +:+ "Exp_1" ]}
                  ∪ out_dirs Examples.world_empty.
Proof.
  apply (csv_open_failure_ends_the_run
           (Examples.matchTemplate_stub (float_of_int 1))
           (Examples.minMaxLoc_stub {| x := 0; y := 0 |}) GnuSort.sort
           Examples.env_csv_fails "laser_decorrelation_images" Examples.cams_two_units
           [] "Gain_1" "Move_1" "Exp_1" [File "frame_0.png" Examples.frame_flat]
           [("Gain_1", "Move_1", "Exp_2", [File "frame_0.png" Examples.frame_flat])]
           Examples.world_empty Examples.world_empty).
  - reflexivity.
  - reflexivity.
  - reflexivity.
  - reflexivity.
Defined.

(* ===================================================================== *)
(** * One experiment folder, step by step *)
(* ===================================================================== *)

Lemma Mat_read_empty h m : Mat_empty m = true → Mat_read h m = no_image.
Proof.
  unfold Mat_empty, Mat_read. destruct (m_data m); [intros ->|]; done.
Qed.

(** [imread] only adds to the heap, and the header it returns shows the
    decoded raster. *)
Lemma imread_spec h d :
  ∃ k, (imread h d).1 = h ++ k ∧ Mat_valid (h ++ k) (imread h d).2 ∧
       Mat_read (h ++ k) (imread h d).2 = imread_shows d.
Proof.
  unfold imread, imread_shows, Mat_alloc. destruct d as [img|]; simpl.
  - destruct (rows img * cols img =? 0) eqn:Hz; simpl.
    + exists []. by rewrite app_nil_r.
    + exists [img]. split; [done|]. split.
      * unfold Mat_valid. simpl. rewrite length_app. simpl. lia.
      * unfold Mat_read. simpl. rewrite Hz.
        by rewrite lookup_app_r, Nat.sub_diag by lia.
  - exists []. by rewrite app_nil_r.
Qed.

(** The size of the copy [copyTo] makes is the size of what the source
    shows. *)
Lemma copyTo_size h frame :
  m_cols (copyTo h frame).2 = cols (Mat_read h frame) ∧
  m_rows (copyTo h frame).2 = rows (Mat_read h frame).
Proof.
  unfold copyTo. destruct (Mat_empty frame) eqn:He; simpl; [|done].
  by rewrite Mat_read_empty.
Qed.

(** Whether [get_roi] returns is decided by the rectangle test on the copy. *)
Lemma get_roi_result frame width height x0 y0 w :
  (get_roi frame width height x0 y0 w).2 =
  Mat_roi (copyTo (heap w) frame).2 x0 y0 width height.
Proof.
  unfold get_roi, mbind, M_bind, on_heap, lift, mret, M_ret.
  destruct (copyTo (heap w) frame) as [h1 cf]. simpl.
  by destruct (Mat_roi cf x0 y0 width height).
Qed.

Lemma get_roi_inside frame width height x0 y0 w :
  rect_inside (Mat_read (heap w) frame) x0 y0 width height →
  ∃ k roi,
    get_roi frame width height x0 y0 w = (set_heap w (heap w ++ k), Ok roi) ∧
    Mat_valid (heap w ++ k) roi ∧
    Mat_read (heap w ++ k) roi =
      if width * height =? 0 then no_image
      else crop (Mat_read (heap w) frame) x0 y0 width height.
Proof.
  intros Hin. destruct (get_roi_run frame width height x0 y0 w) as (k & Hw & Hok).
  destruct (copyTo_size (heap w) frame) as [Hc Hr].
  assert (∃ roi, (get_roi frame width height x0 y0 w).2 = Ok roi) as [roi Hroi].
  { rewrite get_roi_result. unfold Mat_roi. rewrite Hc, Hr.
    rewrite decide_True by done. destruct (decide _); eauto. }
  exists k, roi. destruct (Hok roi Hroi) as (? & ? & _).
  split; [|done]. rewrite <- Hw, <- Hroi. by destruct (get_roi _ _ _ _ _ _).
Qed.

Lemma get_roi_outside frame width height x0 y0 w :
  ¬ rect_inside (Mat_read (heap w) frame) x0 y0 width height →
  ∃ k, get_roi frame width height x0 y0 w =
       (set_heap w (heap w ++ k), Throw (cv_Exception "Mat::Mat(const Mat&, const Rect&)")).
Proof.
  intros Hout. destruct (get_roi_run frame width height x0 y0 w) as (k & Hw & _).
  destruct (copyTo_size (heap w) frame) as [Hc Hr].
  exists k. rewrite <- Hw.
  assert (Hres : (get_roi frame width height x0 y0 w).2 =
                 Throw (cv_Exception "Mat::Mat(const Mat&, const Rect&)")).
  { rewrite get_roi_result. unfold Mat_roi. rewrite Hc, Hr. by rewrite decide_False. }
  rewrite <- Hres. by destruct (get_roi _ _ _ _ _ _).
Qed.

(** What the rectangle test of the template comes to on the raster
    [imread] shows. *)
Lemma frame_0_fits_inside entries :
  frame_0_fits entries ↔
  rect_inside (frame_at entries "frame_0.png") topLeft_x topLeft_y roi_w roi_h.
Proof.
  unfold frame_0_fits, frame_at, rect_inside, imread_shows, topLeft_x, topLeft_y, roi_w, roi_h.
  destruct (decoded_at entries "frame_0.png") as [img|]; simpl.
  - destruct (rows img * cols img =? 0) eqn:Hz; simpl.
    + apply Z.eqb_eq in Hz. split; [intros (? & [= <-] & ? & ?); nia|lia].
    + split; [intros (? & [= <-] & ? & ?); lia|]. intros ?. exists img. split; [done|lia].
  - split; [by intros (? & ? & _)|lia].
Qed.

Lemma frame_0_fits_template entries :
  frame_0_fits entries →
  crop (frame_at entries "frame_0.png") topLeft_x topLeft_y roi_w roi_h = template_of entries.
Proof.
  intros (img & Hd & Hc & Hr). unfold frame_at, template_of, imread_shows. rewrite Hd.
  unfold topLeft_x, topLeft_y, roi_w, roi_h in *.
  destruct (rows img * cols img =? 0) eqn:Hz; [apply Z.eqb_eq in Hz; nia|].
  by rewrite crop_crop_inside by lia.
Qed.

(** [create_folders] changes nothing but the set of folders, and that by at
    most the folder asked for. *)
Lemma create_folders_run env path w :
  ∃ dirs, create_folders env path w =
          ({| heap := heap w; out_dirs := dirs; out_files := out_files w;
              match_calls := match_calls w |}, Ok ()) ∧
          out_dirs w ⊆ dirs ∧ dirs ⊆ {[path]} ∪ out_dirs w ∧
          (path ∈ dirs ↔ path ∈ out_dirs w ∨ mkdir_ok env path = true).
Proof.
  unfold create_folders.
  destruct (decide (path ∈ out_dirs w)) as [Hin|Hout]; [|destruct (mkdir_ok env path) eqn:Hmk].
  - exists (out_dirs w). split; [by destruct w|]. split; [done|].
    split; [apply union_subseteq_r|]. tauto.
  - exists ({[path]} ∪ out_dirs w). split; [done|]. split; [apply union_subseteq_r|].
    split; [done|]. split; [by right|]. intros _. apply elem_of_union_l. by apply elem_of_singleton.
  - exists (out_dirs w). split; [by destruct w|]. split; [done|].
    split; [apply union_subseteq_r|]. split; [tauto|]. by intros [?|?].
Qed.

Section Frames.
Variable matchTemplate_prim : Image -> Image -> Result (Image * Image * Mat1f).
Variable minMaxLoc_prim : Mat1f -> Result MinMax.
Variable std_sort : (string -> string -> Result bool) -> list string -> Result (list string).

(** One turn of the frame loop, whatever the matcher answers. *)
Lemma process_frame_run entries csv_path roi file_name w :
  Mat_valid (heap w) roi →
  let D := frame_at entries file_name in
  let T := Mat_read (heap w) roi in
  ∃ k,
    process_frame matchTemplate_prim minMaxLoc_prim entries csv_path roi file_name w =
    match ncc_answer matchTemplate_prim minMaxLoc_prim D T with
    | Ok a =>
        ({| heap := heap w ++ k; out_dirs := out_dirs w;
            out_files := <[csv_path := default [] (out_files w !! csv_path)
                                       ++ [row_of a D]]> (out_files w);
            match_calls := match_calls w ++ [(D, T)] |}, Ok Continue)
    | Throw e =>
        ({| heap := heap w ++ k; out_dirs := out_dirs w; out_files := out_files w;
            match_calls := match_calls w ++ [(D, T)] |}, Throw e)
    | Undefined =>
        ({| heap := heap w ++ k; out_dirs := out_dirs w; out_files := out_files w;
            match_calls := match_calls w ++ [(D, T)] |}, Undefined)
    end.
Proof.
  intros Hroi D T. unfold ncc_answer.
  destruct (imread_spec (heap w) (decoded_at entries file_name)) as (k1 & Hk1 & Hv1 & Hr1).
  unfold process_frame, mbind at 1, M_bind at 1, on_heap.
  destruct (imread (heap w) (decoded_at entries file_name)) as [h1 img]. simpl in Hk1, Hv1, Hr1.
  subst h1.
  assert (Hroi1 : Mat_valid (heap (set_heap w (heap w ++ k1))) roi) by (by apply Mat_valid_app).
  destruct (get_results_run matchTemplate_prim minMaxLoc_prim img roi
              frameWidth frameHeight roi_w roi_h _ Hroi1) as [k2 Hrun].
  unfold mbind at 1, M_bind at 1. rewrite Hrun. cbn [heap set_heap out_dirs out_files match_calls].
  rewrite Hr1, (Mat_read_app _ k1 roi) by done. fold (frame_at entries file_name). fold D. fold T.
  exists (k1 ++ k2). rewrite (assoc_L (++)).
  destruct (matchTemplate_prim D T ≫= _) as [a| |]; [|done..].
  unfold mbind, M_bind, csv_write, mret, M_ret. cbn [heap out_dirs out_files match_calls].
  rewrite (Mat_read_app _ k2 img), Hr1 by done. done.
Qed.

(** The frame loop on names for which the matcher answers: one line per
    name, in the order of the names, after the lines the table holds. *)
Lemma frame_loop_run entries csv_path roi T names answers : ∀ w lines,
  shows roi T w →
  out_files w !! csv_path = Some lines →
  Forall2 (λ name a, ncc_answer matchTemplate_prim minMaxLoc_prim
                       (frame_at entries name) T = Ok a) names answers →
  ∃ k,
    for_each names (process_frame matchTemplate_prim minMaxLoc_prim entries csv_path roi) w =
    ({| heap := heap w ++ k; out_dirs := out_dirs w;
        out_files := <[csv_path := lines ++ zip_with (λ name a, row_of a (frame_at entries name))
                                              names answers]> (out_files w);
        match_calls := match_calls w ++ ((λ name, (frame_at entries name, T)) <$> names) |},
     Ok Continue).
Proof.
  intros w lines Hshows Hfile Hall. revert w lines Hshows Hfile.
  induction Hall as [|name a names answers Ha Hall IH]; intros w lines [Hv Hr] Hfile.
  - exists []. simpl. rewrite !app_nil_r, insert_id by done. by destruct w.
  - destruct (process_frame_run entries csv_path roi name w Hv) as [k1 Hrun].
    simpl in Hrun. rewrite Hr, Ha in Hrun.
    cbn [for_each]. unfold mbind at 1, M_bind at 1. rewrite Hrun.
    rewrite Hfile. cbn [default].
    match goal with |- context [for_each names _ ?w1] =>
      destruct (IH w1 (lines ++ [row_of a (frame_at entries name)])) as [k2 Hloop]
    end.
    + split; cbn [heap]; [by apply Mat_valid_app|by rewrite Mat_read_app].
    + cbn [out_files]. by rewrite lookup_insert_eq.
    + rewrite Hloop. cbn [heap out_dirs out_files match_calls].
      exists (k1 ++ k2). rewrite insert_insert_eq, <- !(assoc_L (++)). done.
Qed.

(** The frame loop when the matcher throws on the name [name], after it
    answered on the names of [pre]: the lines of [pre] are in the table,
    the loop ends with the exception. *)
Lemma frame_loop_throws entries csv_path roi T pre name post answers e w lines :
  shows roi T w →
  out_files w !! csv_path = Some lines →
  Forall2 (λ name a, ncc_answer matchTemplate_prim minMaxLoc_prim
                       (frame_at entries name) T = Ok a) pre answers →
  ncc_answer matchTemplate_prim minMaxLoc_prim (frame_at entries name) T = Throw e →
  ∃ k,
    for_each (pre ++ name :: post)
      (process_frame matchTemplate_prim minMaxLoc_prim entries csv_path roi) w =
    ({| heap := heap w ++ k; out_dirs := out_dirs w;
        out_files := <[csv_path := lines ++ zip_with (λ name a, row_of a (frame_at entries name))
                                              pre answers]> (out_files w);
        match_calls := match_calls w
                       ++ ((λ name, (frame_at entries name, T)) <$> (pre ++ [name])) |},
     Throw e).
Proof.
  intros Hshows Hfile Hpre Hname.
  destruct (frame_loop_run entries csv_path roi T pre answers w lines Hshows Hfile Hpre)
    as [k1 Hloop].
  rewrite for_each_app, Hloop. cbn [for_each]. unfold mbind at 1, M_bind at 1.
  destruct Hshows as [Hv Hr].
  match goal with |- context [process_frame _ _ _ _ _ _ ?w1] =>
    destruct (process_frame_run entries csv_path roi name w1) as [k2 Hrun]
  end.
  { cbn [heap]. by apply Mat_valid_app. }
  simpl in Hrun. rewrite Mat_read_app, Hr, Hname in Hrun by done. rewrite Hrun.
  exists (k1 ++ k2). rewrite fmap_app, <- !(assoc_L (++)). done.
Qed.

(** An experiment folder whose Results.csv opens, up to the header line:
    the two output folders were asked for, the table holds the header and
    nothing else, and the rest of the body runs from there. *)
Lemma process_experiment_opens env cam mov exp entries w :
  csv_opens env (csv_path_of cam mov exp) = true →
  ∃ dirs,
    out_dirs w ⊆ dirs ∧
    dirs ⊆ {[ results_dir_of cam mov exp; ncc_dir_of cam mov exp ]} ∪ out_dirs w ∧
    process_experiment matchTemplate_prim minMaxLoc_prim std_sort env cam mov exp entries w =
    (file_names ← lift (FrameSequencer std_sort (filename <$> entries));
     frame_0 ← on_heap (fun h => imread h (decoded_at entries "frame_0.png"));
     roi ← get_roi frame_0 roi_w roi_h topLeft_x topLeft_y;
     _ ← for_each file_names
           (process_frame matchTemplate_prim minMaxLoc_prim entries
              (csv_path_of cam mov exp) roi);
     mret Continue)
      {| heap := heap w; out_dirs := dirs;
         out_files := <[csv_path_of cam mov exp := [Header]]> (out_files w);
         match_calls := match_calls w |}.
Proof.
  intros Hcsv. unfold process_experiment.
  fold (csv_path_of cam mov exp) (results_dir_of cam mov exp) (ncc_dir_of cam mov exp).
  rewrite Hcsv. simpl negb. cbv iota.
  destruct (create_folders_run env (results_dir_of cam mov exp) w)
    as (d1 & Hrun1 & Hsub1 & Hsup1 & _).
  unfold mbind at 1, M_bind at 1. rewrite Hrun1.
  destruct (create_folders_run env (ncc_dir_of cam mov exp)
              {| heap := heap w; out_dirs := d1; out_files := out_files w;
                 match_calls := match_calls w |})
    as (d2 & Hrun2 & Hsub2 & Hsup2 & _).
  unfold mbind at 1, M_bind at 1. rewrite Hrun2.
  cbn [heap out_dirs out_files match_calls] in *.
  exists d2. split; [by etrans|]. split.
  { intros p Hp. apply Hsup2, elem_of_union in Hp as [Hp|Hp].
    - apply elem_of_union_l. apply elem_of_union_r. exact Hp.
    - apply Hsup1, elem_of_union in Hp as [Hp|Hp].
      + apply elem_of_union_l. apply elem_of_union_l. exact Hp.
      + by apply elem_of_union_r. }
  unfold mbind at 1, M_bind at 1, csv_create. cbn [heap out_dirs out_files match_calls].
  unfold mbind at 1, M_bind at 1, csv_write. cbn [heap out_dirs out_files match_calls].
  by rewrite lookup_insert_eq, insert_insert_eq.
Qed.
End Frames.

(* ===================================================================== *)
(** * The table of an experiment folder *)
(* ===================================================================== *)

Section Table.
Variable matchTemplate_prim : Image -> Image -> Result (Image * Image * Mat1f).
Variable minMaxLoc_prim : Mat1f -> Result MinMax.
Variable std_sort : (string -> string -> Result bool) -> list string -> Result (list string).

(** The body of an experiment folder from the header line to the template:
    the sequencer returned [names], [frame_0.png] holds the rectangle. *)
Lemma process_experiment_template env cam mov exp entries names w :
  csv_opens env (csv_path_of cam mov exp) = true →
  FrameSequencer std_sort (filename <$> entries) = Ok names →
  frame_0_fits entries →
  ∃ dirs k roi,
    out_dirs w ⊆ dirs ∧
    dirs ⊆ {[ results_dir_of cam mov exp; ncc_dir_of cam mov exp ]} ∪ out_dirs w ∧
    Mat_valid (heap w ++ k) roi ∧
    Mat_read (heap w ++ k) roi = template_of entries ∧
    process_experiment matchTemplate_prim minMaxLoc_prim std_sort env cam mov exp entries w =
    (_ ← for_each names
           (process_frame matchTemplate_prim minMaxLoc_prim entries
              (csv_path_of cam mov exp) roi);
     mret Continue)
      {| heap := heap w ++ k; out_dirs := dirs;
         out_files := <[csv_path_of cam mov exp := [Header]]> (out_files w);
         match_calls := match_calls w |}.
Proof.
  intros Hcsv Hsort Hfits.
  destruct (process_experiment_opens matchTemplate_prim minMaxLoc_prim std_sort
              env cam mov exp entries w Hcsv) as (dirs & Hsub & Hsup & Hrun).
  rewrite Hrun, Hsort. unfold mbind at 1, M_bind at 1, lift.
  destruct (imread_spec (heap w) (decoded_at entries "frame_0.png")) as (k1 & Hk1 & Hv1 & Hr1).
  unfold mbind at 1, M_bind at 1, on_heap. cbn [heap].
  destruct (imread (heap w) (decoded_at entries "frame_0.png")) as [h1 frame_0].
  simpl in Hk1, Hv1, Hr1. subst h1. unfold set_heap. cbn [heap out_dirs out_files match_calls].
  fold (frame_at entries "frame_0.png") in Hr1.
  pose proof (proj1 (frame_0_fits_inside entries) Hfits) as Hin. rewrite <- Hr1 in Hin.
  destruct (get_roi_inside frame_0 roi_w roi_h topLeft_x topLeft_y
              {| heap := heap w ++ k1; out_dirs := dirs;
                 out_files := <[csv_path_of cam mov exp := [Header]]> (out_files w);
                 match_calls := match_calls w |} Hin) as (k2 & roi & Hroi & Hvr & Hrr).
  unfold mbind at 1, M_bind at 1. rewrite Hroi.
  unfold set_heap. cbn [heap out_dirs out_files match_calls] in *.
  exists dirs, (k1 ++ k2), roi. rewrite (assoc_L (++)).
  split; [done|]. split; [done|]. split; [done|]. split; [|done].
  rewrite Hrr, Hr1. change (roi_w * roi_h =? 0) with false. cbv iota.
  by apply frame_0_fits_template.
Qed.

(** An experiment folder that is processed to its end. *)
Lemma process_experiment_run env cam mov exp entries names answers w :
  csv_opens env (csv_path_of cam mov exp) = true →
  FrameSequencer std_sort (filename <$> entries) = Ok names →
  frame_0_fits entries →
  Forall2 (λ name a, ncc_answer matchTemplate_prim minMaxLoc_prim
                       (frame_at entries name) (template_of entries) = Ok a) names answers →
  ∃ dirs k,
    out_dirs w ⊆ dirs ∧
    dirs ⊆ {[ results_dir_of cam mov exp; ncc_dir_of cam mov exp ]} ∪ out_dirs w ∧
    process_experiment matchTemplate_prim minMaxLoc_prim std_sort env cam mov exp entries w =
    ({| heap := heap w ++ k; out_dirs := dirs;
        out_files :=
          <[csv_path_of cam mov exp :=
              Header :: zip_with (λ name a, row_of a (frame_at entries name)) names answers]>
            (out_files w);
        match_calls :=
          match_calls w
          ++ ((λ name, (frame_at entries name, template_of entries)) <$> names) |},
     Ok Continue).
Proof.
  intros Hcsv Hsort Hfits Hall.
  destruct (process_experiment_template env cam mov exp entries names w Hcsv Hsort Hfits)
    as (dirs & k & roi & Hsub & Hsup & Hv & Hr & Hrun).
  rewrite Hrun.
  destruct (frame_loop_run matchTemplate_prim minMaxLoc_prim entries
              (csv_path_of cam mov exp) roi (template_of entries) names answers
              {| heap := heap w ++ k; out_dirs := dirs;
                 out_files := <[csv_path_of cam mov exp := [Header]]> (out_files w);
                 match_calls := match_calls w |} [Header]) as [k' Hloop];
    [done|apply lookup_insert_eq|done|].
  unfold mbind, M_bind. rewrite Hloop. cbn [heap out_dirs out_files match_calls].
  exists dirs, (k ++ k'). split; [done|]. split; [done|].
  by rewrite insert_insert_eq, (assoc_L (++)).
Qed.

(** X3.  An experiment folder that is processed to its end (Results.csv
    opens, the sequencer returns [names], frame_0.png holds the template
    rectangle, the matcher answers on every frame): the body falls through
    to the next folder, and Results.csv holds the header and then one line
    per name, in the order of [names]; the line of a name carries the
    shifts and the confidence answered for that frame against the template
    of frame_0.png, the two distances, and the MIG of the frame as decoded.
    The matcher was called once per name, in that order, and no other file
    was touched. *)
Theorem process_experiment_table env cam mov exp entries names answers w :
  csv_opens env (csv_path_of cam mov exp) = true →
  FrameSequencer std_sort (filename <$> entries) = Ok names →
  frame_0_fits entries →
  Forall2 (λ name a, ncc_answer matchTemplate_prim minMaxLoc_prim
                       (frame_at entries name) (template_of entries) = Ok a) names answers →
  ∃ w',
    process_experiment matchTemplate_prim minMaxLoc_prim std_sort env cam mov exp entries w
      = (w', Ok Continue) ∧
    out_files w' =
      <[csv_path_of cam mov exp :=
          Header :: zip_with (λ name a, row_of a (frame_at entries name)) names answers]>
        (out_files w) ∧
    match_calls w' =
      match_calls w ++ ((λ name, (frame_at entries name, template_of entries)) <$> names) ∧
    out_dirs w ⊆ out_dirs w' ∧
    out_dirs w' ⊆ {[ results_dir_of cam mov exp; ncc_dir_of cam mov exp ]} ∪ out_dirs w.
Proof.
  intros Hcsv Hsort Hfits Hall.
  destruct (process_experiment_run env cam mov exp entries names answers w
              Hcsv Hsort Hfits Hall) as (dirs & k & Hsub & Hsup & Hrun).
  eexists. split; [exact Hrun|]. done.
Qed.

(** X4.  When the matcher throws on a frame, after it answered on the
    frames before it, the exception leaves the folder's body: the lines of
    the earlier frames stay in Results.csv, nothing is written for the
    frame that failed or for a later one, and no later frame is matched. *)
Theorem matcher_failure_keeps_earlier_rows env cam mov exp entries pre name post answers e w :
  csv_opens env (csv_path_of cam mov exp) = true →
  FrameSequencer std_sort (filename <$> entries) = Ok (pre ++ name :: post) →
  frame_0_fits entries →
  Forall2 (λ name a, ncc_answer matchTemplate_prim minMaxLoc_prim
                       (frame_at entries name) (template_of entries) = Ok a) pre answers →
  ncc_answer matchTemplate_prim minMaxLoc_prim
    (frame_at entries name) (template_of entries) = Throw e →
  ∃ w',
    process_experiment matchTemplate_prim minMaxLoc_prim std_sort env cam mov exp entries w
      = (w', Throw e) ∧
    out_files w' =
      <[csv_path_of cam mov exp :=
          Header :: zip_with (λ name a, row_of a (frame_at entries name)) pre answers]>
        (out_files w) ∧
    match_calls w' =
      match_calls w
      ++ ((λ name, (frame_at entries name, template_of entries)) <$> (pre ++ [name])).
Proof.
  intros Hcsv Hsort Hfits Hall Hthrow.
  destruct (process_experiment_template env cam mov exp entries _ w Hcsv Hsort Hfits)
    as (dirs & k & roi & Hsub & Hsup & Hv & Hr & Hrun).
  rewrite Hrun.
  destruct (frame_loop_throws matchTemplate_prim minMaxLoc_prim entries
              (csv_path_of cam mov exp) roi (template_of entries) pre name post answers e
              {| heap := heap w ++ k; out_dirs := dirs;
                 out_files := <[csv_path_of cam mov exp := [Header]]> (out_files w);
                 match_calls := match_calls w |} [Header]) as [k' Hloop];
    [done|apply lookup_insert_eq|done|done|].
  unfold mbind, M_bind. rewrite Hloop. cbn [heap out_dirs out_files match_calls].
  eexists. split; [reflexivity|]. cbn [heap out_dirs out_files match_calls].
  by rewrite insert_insert_eq.
Qed.

(** X5.  The table is created, and its header written, before the names
    are sorted: when the sort throws (a name without a digit, or a run of
    digits that is no [int]), the exception leaves the folder's body with
    a Results.csv that holds the header line only; no frame was read and
    the matcher was not called. *)
Theorem sort_failure_leaves_header_only env cam mov exp entries e w :
  csv_opens env (csv_path_of cam mov exp) = true →
  FrameSequencer std_sort (filename <$> entries) = Throw e →
  ∃ w',
    process_experiment matchTemplate_prim minMaxLoc_prim std_sort env cam mov exp entries w
      = (w', Throw e) ∧
    out_files w' = <[csv_path_of cam mov exp := [Header]]> (out_files w) ∧
    heap w' = heap w ∧ match_calls w' = match_calls w.
Proof.
  intros Hcsv Hsort.
  destruct (process_experiment_opens matchTemplate_prim minMaxLoc_prim std_sort
              env cam mov exp entries w Hcsv) as (dirs & Hsub & Hsup & Hrun).
  rewrite Hrun, Hsort. unfold mbind at 1, M_bind at 1, lift.
  eexists. split; [reflexivity|]. done.
Qed.

(** X6.  A folder whose frame_0.png is missing, does not decode, or is
    smaller than 428 columns by 336 rows: cutting the template throws a
    [cv::Exception], whatever the other frames are; Results.csv holds the
    header line only and the matcher was not called. *)
Theorem frame_0_unfit_throws env cam mov exp entries names w :
  csv_opens env (csv_path_of cam mov exp) = true →
  FrameSequencer std_sort (filename <$> entries) = Ok names →
  (∀ img, decoded_at entries "frame_0.png" = Some img → cols img < 428 ∨ rows img < 336) →
  ∃ w',
    process_experiment matchTemplate_prim minMaxLoc_prim std_sort env cam mov exp entries w
      = (w', Throw (cv_Exception "Mat::Mat(const Mat&, const Rect&)")) ∧
    out_files w' = <[csv_path_of cam mov exp := [Header]]> (out_files w) ∧
    match_calls w' = match_calls w.
Proof.
  intros Hcsv Hsort Hsmall.
  destruct (process_experiment_opens matchTemplate_prim minMaxLoc_prim std_sort
              env cam mov exp entries w Hcsv) as (dirs & Hsub & Hsup & Hrun).
  rewrite Hrun, Hsort. unfold mbind at 1, M_bind at 1, lift.
  destruct (imread_spec (heap w) (decoded_at entries "frame_0.png")) as (k1 & Hk1 & Hv1 & Hr1).
  unfold mbind at 1, M_bind at 1, on_heap. cbn [heap].
  destruct (imread (heap w) (decoded_at entries "frame_0.png")) as [h1 frame_0].
  simpl in Hk1, Hv1, Hr1. subst h1. unfold set_heap. cbn [heap out_dirs out_files match_calls].
  fold (frame_at entries "frame_0.png") in Hr1.
  assert (Hout : ¬ rect_inside (Mat_read (heap w ++ k1) frame_0)
                   topLeft_x topLeft_y roi_w roi_h).
  { rewrite Hr1. intros (img & Hd & Hc & Hr)%frame_0_fits_inside.
    unfold topLeft_x, topLeft_y, roi_w, roi_h in *.
    destruct (Hsmall img Hd); lia. }
  destruct (get_roi_outside frame_0 roi_w roi_h topLeft_x topLeft_y
              {| heap := heap w ++ k1; out_dirs := dirs;
                 out_files := <[csv_path_of cam mov exp := [Header]]> (out_files w);
                 match_calls := match_calls w |} Hout) as (k2 & Hroi).
  unfold mbind at 1, M_bind at 1. rewrite Hroi.
  eexists. split; [reflexivity|]. done.
Qed.
End Table.

(** X3 on a folder with two frames and a matcher that answers score 1 at
    column 310, row 200 on every frame. *)
Lemma process_experiment_table_witness :
  ∃ w',
    process_experiment (Examples.matchTemplate_stub (float_of_int 1))
      (Examples.minMaxLoc_stub {| x := 310; y := 200 |}) GnuSort.sort
      Inputs.env_ok "Gain_1" "Move_1" "Exp_1" Inputs.entries_two Examples.world_empty
      = (w', Ok Continue) ∧
    out_files w' =
      <[csv_path_of "Gain_1" "Move_1" "Exp_1" :=
          Header :: zip_with (λ name a, row_of a (frame_at Inputs.entries_two name))
                      ["frame_0.png"; "frame_1.png"]
                      [Inputs.answer_stub; Inputs.answer_stub]]>
        (out_files Examples.world_empty) ∧
    match_calls w' =
      match_calls Examples.world_empty
      ++ ((λ name, (frame_at Inputs.entries_two name, template_of Inputs.entries_two))
          <$> ["frame_0.png"; "frame_1.png"]) ∧
    out_dirs Examples.world_empty ⊆ out_dirs w' ∧
    out_dirs w' ⊆ {[ results_dir_of "Gain_1" "Move_1" "Exp_1";
                     ncc_dir_of "Gain_1" "Move_1" "Exp_1" ]} ∪ out_dirs Examples.world_empty.
Proof.
  apply (process_experiment_table
           (Examples.matchTemplate_stub (float_of_int 1))
           (Examples.minMaxLoc_stub {| x := 310; y := 200 |}) GnuSort.sort
           Inputs.env_ok "Gain_1" "Move_1" "Exp_1" Inputs.entries_two
           ["frame_0.png"; "frame_1.png"] [Inputs.answer_stub; Inputs.answer_stub]
           Examples.world_empty).
  - reflexivity.
  - change (filename <$> Inputs.entries_two) with ["frame_0.png"; "frame_1.png"].
    vm_compute. reflexivity.
  - exists Examples.frame_728x544. split; [reflexivity|].
    unfold topLeft_x, topLeft_y, roi_w, roi_h, Examples.frame_728x544. cbn [rows cols]. lia.
  - constructor; [reflexivity|]. constructor; [reflexivity|]. constructor.
Defined.

(** X4 on a folder that holds, beside two frames, a subfolder frame_2: the
    sort puts it last, [imread] returns an empty image for it, and the
    matcher refuses the empty image. *)
Lemma matcher_failure_keeps_earlier_rows_witness :
  ∃ w',
    process_experiment (Inputs.matchTemplate_picky (float_of_int 1))
      (Examples.minMaxLoc_stub {| x := 310; y := 200 |}) GnuSort.sort
      Inputs.env_ok "Gain_1" "Move_1" "Exp_1" Inputs.entries_subfolder Examples.world_empty
      = (w', Throw (cv_Exception "matchTemplate")) ∧
    out_files w' =
      <[csv_path_of "Gain_1" "Move_1" "Exp_1" :=
          Header :: zip_with (λ name a, row_of a (frame_at Inputs.entries_subfolder name))
                      ["frame_0.png"; "frame_1.png"]
                      [Inputs.answer_stub; Inputs.answer_stub]]>
        (out_files Examples.world_empty) ∧
    match_calls w' =
      match_calls Examples.world_empty
      ++ ((λ name, (frame_at Inputs.entries_subfolder name,
                    template_of Inputs.entries_subfolder))
          <$> (["frame_0.png"; "frame_1.png"] ++ ["frame_2"])).
Proof.
  apply (matcher_failure_keeps_earlier_rows
           (Inputs.matchTemplate_picky (float_of_int 1))
           (Examples.minMaxLoc_stub {| x := 310; y := 200 |}) GnuSort.sort
           Inputs.env_ok "Gain_1" "Move_1" "Exp_1" Inputs.entries_subfolder
           ["frame_0.png"; "frame_1.png"] "frame_2" []
           [Inputs.answer_stub; Inputs.answer_stub]
           (cv_Exception "matchTemplate") Examples.world_empty).
  - reflexivity.
  - change (filename <$> Inputs.entries_subfolder)
      with ["frame_0.png"; "frame_1.png"; "frame_2"].
    vm_compute. reflexivity.
  - exists Examples.frame_728x544. split; [reflexivity|].
    unfold topLeft_x, topLeft_y, roi_w, roi_h, Examples.frame_728x544. cbn [rows cols]. lia.
  - constructor; [reflexivity|]. constructor; [reflexivity|]. constructor.
  - reflexivity.
Defined.

(** X5 on a folder that holds a frame and notes.txt: the comparator throws
    on the name without a digit. *)
Lemma sort_failure_leaves_header_only_witness :
  ∃ w',
    process_experiment (Examples.matchTemplate_stub (float_of_int 1))
      (Examples.minMaxLoc_stub {| x := 310; y := 200 |}) GnuSort.sort
      Inputs.env_ok "Gain_1" "Move_1" "Exp_1" Inputs.entries_notes Examples.world_empty
      = (w', Throw (out_of_range "basic_string::substr")) ∧
    out_files w' = <[csv_path_of "Gain_1" "Move_1" "Exp_1" := [Header]]>
                     (out_files Examples.world_empty) ∧
    heap w' = heap Examples.world_empty ∧
    match_calls w' = match_calls Examples.world_empty.
Proof.
  apply (sort_failure_leaves_header_only
           (Examples.matchTemplate_stub (float_of_int 1))
           (Examples.minMaxLoc_stub {| x := 310; y := 200 |}) GnuSort.sort
           Inputs.env_ok "Gain_1" "Move_1" "Exp_1" Inputs.entries_notes
           (out_of_range "basic_string::substr") Examples.world_empty).
  - reflexivity.
  - change (filename <$> Inputs.entries_notes) with ["frame_0.png"; "notes.txt"].
    vm_compute. reflexivity.
Defined.

(** X6 on a folder whose frame_0.png has 3 rows and 4 columns. *)
Lemma frame_0_unfit_throws_witness :
  ∃ w',
    process_experiment (Examples.matchTemplate_stub (float_of_int 1))
      (Examples.minMaxLoc_stub {| x := 310; y := 200 |}) GnuSort.sort
      Inputs.env_ok "Gain_1" "Move_1" "Exp_1" Inputs.entries_small Examples.world_empty
      = (w', Throw (cv_Exception "Mat::Mat(const Mat&, const Rect&)")) ∧
    out_files w' = <[csv_path_of "Gain_1" "Move_1" "Exp_1" := [Header]]>
                     (out_files Examples.world_empty) ∧
    match_calls w' = match_calls Examples.world_empty.
Proof.
  apply (frame_0_unfit_throws
           (Examples.matchTemplate_stub (float_of_int 1))
           (Examples.minMaxLoc_stub {| x := 310; y := 200 |}) GnuSort.sort
           Inputs.env_ok "Gain_1" "Move_1" "Exp_1" Inputs.entries_small
           ["frame_0.png"] Examples.world_empty).
  - reflexivity.
  - vm_compute. reflexivity.
  - intros img [= <-]. left. simpl. lia.
Defined.

(* ===================================================================== *)
(** * A whole run *)
(* ===================================================================== *)

Section Run.
Variable matchTemplate_prim : Image -> Image -> Result (Image * Image * Mat1f).
Variable minMaxLoc_prim : Mat1f -> Result MinMax.
Variable std_sort : (string -> string -> Result bool) -> list string -> Result (list string).

(** [recursive_folders] on a root that is a directory: the loop over the
    experiment folders decides what it returns. *)
Lemma recursive_folders_units env name cams w :
  fs_root env = Some (Dir name cams) →
  recursive_folders matchTemplate_prim minMaxLoc_prim std_sort env w =
    match for_each (units_of cams)
            (unit_body matchTemplate_prim minMaxLoc_prim std_sort env) w with
    | (w', Ok Continue) => (w', Ok EXIT_SUCCESS)
    | (w', Ok (Return code)) => (w', Ok code)
    | (w', Throw e) => (w', Throw e)
    | (w', Undefined) => (w', Undefined)
    end.
Proof.
  intros Hroot. unfold recursive_folders. rewrite Hroot. unfold mbind, M_bind.
  rewrite cam_param_loop_units.
  by destruct (for_each _ _ w) as [w' [[|code]| |]].
Qed.

(** The loop over experiment folders that are all processed to their
    end. *)
Lemma units_loop_complete env answer order units : ∀ w,
  (∀ cam mov exp entries, (cam, mov, exp, entries) ∈ units →
     csv_opens env (csv_path_of cam mov exp) = true ∧
     FrameSequencer std_sort (filename <$> entries) = Ok (order (filename <$> entries)) ∧
     frame_0_fits entries ∧
     Forall (λ name, ncc_answer matchTemplate_prim minMaxLoc_prim
                       (frame_at entries name) (template_of entries)
                     = Ok (answer (frame_at entries name) (template_of entries)))
            (order (filename <$> entries))) →
  ∃ w',
    for_each units (unit_body matchTemplate_prim minMaxLoc_prim std_sort env) w
      = (w', Ok Continue) ∧
    out_files w' = tables_of answer order units (out_files w) ∧
    match_calls w' = match_calls w ++ (units ≫= calls_of order).
Proof.
  intros w Hunits. revert w.
  induction units as [|[[[cam mov] exp] entries] units IH]; intros w.
  - exists w. split; [done|]. split; [done|]. by rewrite app_nil_r.
  - destruct (Hunits cam mov exp entries) as (Hcsv & Hsort & Hfits & Hanswer); [by left|].
    destruct (process_experiment_run matchTemplate_prim minMaxLoc_prim std_sort
                env cam mov exp entries (order (filename <$> entries))
                ((λ name, answer (frame_at entries name) (template_of entries))
                   <$> order (filename <$> entries)) w Hcsv Hsort Hfits)
      as (dirs & k & _ & _ & Hrun).
    { by apply Forall2_fmap_r, Forall_Forall2_diag. }
    cbn [for_each unit_body]. unfold mbind at 1, M_bind at 1. rewrite Hrun.
    match goal with |- context [for_each units _ ?w1] =>
      destruct (IH (λ c m e es H, Hunits c m e es (list_elem_of_further _ _ _ H)) w1)
        as (w' & Hloop & Hfiles & Hcalls)
    end.
    exists w'. split; [done|]. rewrite Hfiles, Hcalls.
    cbn [out_files match_calls tables_of foldl calls_of]. rewrite bind_cons.
    unfold table_of, tables_of, calls_of.
    rewrite zip_with_fmap_r, zip_with_diag, (assoc_L (++)). done.
Qed.

(** X7.  An exception that leaves the body of an experiment folder is
    caught nowhere: it ends [recursive_folders] and [main] there and then,
    in the state the folder's body left, and no later folder is
    processed. *)
Theorem exception_in_a_unit_ends_the_run env name cams pre u post w w1 w2 e :
  fs_root env = Some (Dir name cams) →
  units_of cams = pre ++ u :: post →
  for_each pre (unit_body matchTemplate_prim minMaxLoc_prim std_sort env) w
    = (w1, Ok Continue) →
  unit_body matchTemplate_prim minMaxLoc_prim std_sort env u w1 = (w2, Throw e) →
  recursive_folders matchTemplate_prim minMaxLoc_prim std_sort env w = (w2, Throw e) ∧
  main matchTemplate_prim minMaxLoc_prim std_sort env w = (w2, Throw e).
Proof.
  intros Hroot Hunits Hpre Hu.
  assert (Hrun : recursive_folders matchTemplate_prim minMaxLoc_prim std_sort env w
                 = (w2, Throw e)).
  { rewrite (recursive_folders_units env name cams w Hroot).
    rewrite Hunits, for_each_app, Hpre. cbn [for_each]. unfold mbind, M_bind.
    by rewrite Hu. }
  split; [done|]. unfold main, mbind, M_bind. by rewrite Hrun.
Qed.

(** X8.  The exit status of the program does not tell a run that failed
    from one that completed.  When the images directory is missing,
    [recursive_folders] returns [EXIT_FAILURE] and nothing is created or
    written, and when a Results.csv does not open it returns
    [EXIT_FAILURE] with the tables as the folders before left them; in
    both cases [main] returns [EXIT_SUCCESS]. *)
Theorem main_exit_status_hides_failures env w :
  (fs_root env = None →
     recursive_folders matchTemplate_prim minMaxLoc_prim std_sort env w
       = (w, Ok EXIT_FAILURE) ∧
     main matchTemplate_prim minMaxLoc_prim std_sort env w = (w, Ok EXIT_SUCCESS)) ∧
  (∀ name cams pre cam mov exp entries post w1,
     fs_root env = Some (Dir name cams) →
     units_of cams = pre ++ (cam, mov, exp, entries) :: post →
     for_each pre (unit_body matchTemplate_prim minMaxLoc_prim std_sort env) w
       = (w1, Ok Continue) →
     csv_opens env (csv_path_of cam mov exp) = false →
     ∃ w2,
       recursive_folders matchTemplate_prim minMaxLoc_prim std_sort env w
         = (w2, Ok EXIT_FAILURE) ∧
       main matchTemplate_prim minMaxLoc_prim std_sort env w = (w2, Ok EXIT_SUCCESS) ∧
       out_files w2 = out_files w1).
Proof.
  split.
  - intros Hroot. unfold main, mbind, M_bind, recursive_folders. by rewrite Hroot.
  - intros name cams pre cam mov exp entries post w1 Hroot Hunits Hpre Hcsv.
    destruct (process_experiment_csv_fails matchTemplate_prim minMaxLoc_prim std_sort
                env cam mov exp entries w1 Hcsv) as (w2 & Hrun & _ & Hfiles & _).
    assert (Hrec : recursive_folders matchTemplate_prim minMaxLoc_prim std_sort env w
                   = (w2, Ok EXIT_FAILURE)).
    { rewrite (recursive_folders_units env name cams w Hroot).
      rewrite Hunits, for_each_app, Hpre. cbn [for_each unit_body].
      unfold mbind, M_bind. by rewrite Hrun. }
    exists w2. split; [done|]. split; [|done].
    unfold main, mbind, M_bind. by rewrite Hrec.
Qed.

(** X9.  A run in which every experiment folder is processed to its end
    (its Results.csv opens, the sort returns, frame_0.png holds the
    template rectangle, and the matcher answers on every frame of the
    folder against the folder's template): [recursive_folders] returns
    [EXIT_SUCCESS]; entries that are not directories are passed over at
    each of the three levels; the output is the table of every experiment
    folder, written in the order the loops reach the folders, and the
    matcher was called once per sequenced name of every folder, in that
    order. *)
Theorem complete_run env name cams answer order w :
  fs_root env = Some (Dir name cams) →
  (∀ cam mov exp entries, (cam, mov, exp, entries) ∈ units_of cams →
     csv_opens env (csv_path_of cam mov exp) = true ∧
     FrameSequencer std_sort (filename <$> entries) = Ok (order (filename <$> entries)) ∧
     frame_0_fits entries ∧
     Forall (λ name, ncc_answer matchTemplate_prim minMaxLoc_prim
                       (frame_at entries name) (template_of entries)
                     = Ok (answer (frame_at entries name) (template_of entries)))
            (order (filename <$> entries))) →
  ∃ w',
    recursive_folders matchTemplate_prim minMaxLoc_prim std_sort env w
      = (w', Ok EXIT_SUCCESS) ∧
    out_files w' = tables_of answer order (units_of cams) (out_files w) ∧
    match_calls w' = match_calls w ++ (units_of cams ≫= calls_of order).
Proof.
  intros Hroot Hunits.
  destruct (units_loop_complete env answer order (units_of cams) w Hunits)
    as (w' & Hloop & Hfacts).
  exists w'. split; [|done].
  by rewrite (recursive_folders_units env name cams w Hroot), Hloop.
Qed.
End Run.

(** X7 on a root whose first experiment folder has a frame_0.png that is
    too small: the second folder is never reached. *)
Lemma exception_in_a_unit_ends_the_run_witness :
  let w2 := {| heap := [Examples.frame_flat; crop Examples.frame_flat 0 0 4 3];
               out_dirs := {[ ncc_dir_of "Gain_1" "Move_1" "Exp_1" ]}
                           ∪ ({[ results_dir_of "Gain_1" "Move_1" "Exp_1" ]} ∪ ∅);
               out_files := <[csv_path_of "Gain_1" "Move_1" "Exp_1" := [Header]]> ∅;
               match_calls := [] |} in
  recursive_folders (Examples.matchTemplate_stub (float_of_int 1))
    (Examples.minMaxLoc_stub {| x := 310; y := 200 |}) GnuSort.sort
    Inputs.env_broken_first Examples.world_empty
    = (w2, Throw (cv_Exception "Mat::Mat(const Mat&, const Rect&)")) ∧
  main (Examples.matchTemplate_stub (float_of_int 1))
    (Examples.minMaxLoc_stub {| x := 310; y := 200 |}) GnuSort.sort
    Inputs.env_broken_first Examples.world_empty
    = (w2, Throw (cv_Exception "Mat::Mat(const Mat&, const Rect&)")).
Proof.
  intros w2.
  apply (exception_in_a_unit_ends_the_run
           (Examples.matchTemplate_stub (float_of_int 1))
           (Examples.minMaxLoc_stub {| x := 310; y := 200 |}) GnuSort.sort
           Inputs.env_broken_first "laser_decorrelation_images" Inputs.cams_broken_first
           [] ("Gain_1", "Move_1", "Exp_1", Inputs.entries_small)
           [("Gain_1", "Move_1", "Exp_2", Inputs.entries_two)]
           Examples.world_empty Examples.world_empty).
  - reflexivity.
  - reflexivity.
  - reflexivity.
  - reflexivity.
Defined.

(** X9 on a root with files beside the folders at every level and two
    experiment folders of two frames each, with a matcher that refuses an
    empty image. *)
Lemma complete_run_witness :
  ∃ w',
    recursive_folders (Inputs.matchTemplate_picky (float_of_int 1))
      (Examples.minMaxLoc_stub {| x := 310; y := 200 |}) GnuSort.sort
      Inputs.env_ok Examples.world_empty = (w', Ok EXIT_SUCCESS) ∧
    out_files w' =
      tables_of (λ _ _, Inputs.answer_stub) (λ names, names)
        [("Gain_1", "Move_1", "Exp_1", Inputs.entries_two);
         ("Gain_1", "Move_1", "Exp_2", Inputs.entries_two)]
        (out_files Examples.world_empty) ∧
    match_calls w' =
      match_calls Examples.world_empty
      ++ ([("Gain_1", "Move_1", "Exp_1", Inputs.entries_two);
           ("Gain_1", "Move_1", "Exp_2", Inputs.entries_two)]
          ≫= calls_of (λ names, names)).
Proof.
  apply (complete_run
           (Inputs.matchTemplate_picky (float_of_int 1))
           (Examples.minMaxLoc_stub {| x := 310; y := 200 |}) GnuSort.sort
           Inputs.env_ok "laser_decorrelation_images" Inputs.cams_mixed
           (λ _ _, Inputs.answer_stub) (λ names, names) Examples.world_empty).
  - reflexivity.
  - intros cam mov exp entries Hin.
    change (units_of Inputs.cams_mixed)
      with [("Gain_1", "Move_1", "Exp_1", Inputs.entries_two);
            ("Gain_1", "Move_1", "Exp_2", Inputs.entries_two)] in Hin.
    assert (Hfits : frame_0_fits Inputs.entries_two).
    { exists Examples.frame_728x544. split; [reflexivity|].
      unfold topLeft_x, topLeft_y, roi_w, roi_h, Examples.frame_728x544.
      cbn [rows cols]. lia. }
    assert (Hsort : FrameSequencer GnuSort.sort (filename <$> Inputs.entries_two)
                    = Ok (filename <$> Inputs.entries_two)).
    { change (filename <$> Inputs.entries_two) with ["frame_0.png"; "frame_1.png"].
      vm_compute. reflexivity. }
    assert (Hanswer :
      Forall (λ name, ncc_answer (Inputs.matchTemplate_picky (float_of_int 1))
                        (Examples.minMaxLoc_stub {| x := 310; y := 200 |})
                        (frame_at Inputs.entries_two name) (template_of Inputs.entries_two)
                      = Ok Inputs.answer_stub)
             (filename <$> Inputs.entries_two)).
    { change (filename <$> Inputs.entries_two) with ["frame_0.png"; "frame_1.png"].
      constructor; [reflexivity|]. constructor; [reflexivity|]. constructor. }
    apply elem_of_cons in Hin as [Hin|Hin]; [injection Hin as -> -> -> ->; done|].
    apply elem_of_cons in Hin as [Hin|Hin]; [injection Hin as -> -> -> ->; done|].
    by apply elem_of_nil in Hin.
Defined.

(* ===================================================================== *)
(** * The output folders and the template *)
(* ===================================================================== *)

(** X1.  [create_folders] always returns, also when the folder cannot be
    created (the [filesystem_error] is caught and only reported).  It
    touches nothing but the set of folders: every folder that was there
    stays, at most [path] is added, and [path] is there afterwards exactly
    when it was there before or could be created.  A second call on the
    same path changes nothing. *)
Theorem create_folders_idempotent env path w :
  ∃ w1,
    create_folders env path w = (w1, Ok ()) ∧
    create_folders env path w1 = (w1, Ok ()) ∧
    heap w1 = heap w ∧ out_files w1 = out_files w ∧ match_calls w1 = match_calls w ∧
    out_dirs w ⊆ out_dirs w1 ∧ out_dirs w1 ⊆ {[path]} ∪ out_dirs w ∧
    (path ∈ out_dirs w1 ↔ path ∈ out_dirs w ∨ mkdir_ok env path = true).
Proof.
  unfold create_folders.
  destruct (decide (path ∈ out_dirs w)) as [Hin|Hout].
  - exists w. rewrite decide_True by done.
    repeat (split; [done|]). split; [apply union_subseteq_r|]. split; [tauto|tauto].
  - destruct (mkdir_ok env path) eqn:Hmk.
    + eexists. split; [reflexivity|]. simpl.
      rewrite decide_True by (apply elem_of_union_l, elem_of_singleton; done).
      repeat (split; [done|]). split; [apply union_subseteq_r|]. split; [done|].
      split; [tauto|]. intros _. apply elem_of_union_l, elem_of_singleton; done.
    + exists w. rewrite decide_False by done.
      repeat (split; [done|]). split; [apply union_subseteq_r|].
      split; [tauto|]. intros [?|?]; done.
Qed.

(** X2.  [get_roi] works on a copy of the frame: whatever the rectangle,
    the heap only grows and the frame shows afterwards what it showed
    before.  When the rectangle lies inside the frame, the header returned
    shows exactly that rectangle of the frame (no raster for a rectangle
    without area); when it does not, [get_roi] throws a [cv::Exception].
    No size is clipped and no rectangle is moved. *)
Theorem get_roi_inside_or_throws frame width height x0 y0 w :
  Mat_valid (heap w) frame →
  ∃ k,
    (get_roi frame width height x0 y0 w).1 = set_heap w (heap w ++ k) ∧
    Mat_read (heap w ++ k) frame = Mat_read (heap w) frame ∧
    (rect_inside (Mat_read (heap w) frame) x0 y0 width height →
       ∃ roi, (get_roi frame width height x0 y0 w).2 = Ok roi ∧
              Mat_valid (heap w ++ k) roi ∧
              Mat_read (heap w ++ k) roi =
                if width * height =? 0 then no_image
                else crop (Mat_read (heap w) frame) x0 y0 width height) ∧
    (¬ rect_inside (Mat_read (heap w) frame) x0 y0 width height →
       (get_roi frame width height x0 y0 w).2 =
         Throw (cv_Exception "Mat::Mat(const Mat&, const Rect&)")).
Proof.
  intros Hvalid.
  destruct (get_roi_run frame width height x0 y0 w) as (k & Hw & Hok).
  exists k. split; [done|]. split; [by apply Mat_read_app|].
  destruct (copyTo_size (heap w) frame) as [Hc Hr].
  split.
  - intros Hin. unfold rect_inside in Hin.
    assert (∃ roi, (get_roi frame width height x0 y0 w).2 = Ok roi) as [roi Hroi].
    { rewrite get_roi_result. unfold Mat_roi. rewrite Hc, Hr.
      rewrite decide_True by done. destruct (decide _); eauto. }
    exists roi. split; [done|]. destruct (Hok roi Hroi) as (? & ? & _). done.
  - intros Hout. rewrite get_roi_result. unfold Mat_roi. rewrite Hc, Hr.
    by rewrite decide_False.
Qed.

(** X2 on the 3x4 frame of the examples: the rectangle of 2 columns and 2
    rows at column 1, row 1 lies inside and is what the template shows; a
    rectangle of 128 by 128 does not, and [get_roi] throws. *)
Lemma get_roi_inside_or_throws_witness :
  let w := Examples.world_one_frame Examples.frame_flat in
  let frame := Examples.header_of Examples.frame_flat 0 in
  (∃ k roi, (get_roi frame 2 2 1 1 w).1 = set_heap w (heap w ++ k) ∧
            (get_roi frame 2 2 1 1 w).2 = Ok roi ∧
            Mat_read (heap w ++ k) roi = crop (Mat_read (heap w) frame) 1 1 2 2) ∧
  (get_roi frame roi_w roi_h topLeft_x topLeft_y w).2 =
    Throw (cv_Exception "Mat::Mat(const Mat&, const Rect&)").
Proof.
  intros w frame. split.
  - destruct (get_roi_inside_or_throws frame 2 2 1 1 w) as (k & Hw & _ & Hin & _).
    { unfold Mat_valid; simpl; lia. }
    destruct Hin as (roi & Hroi & _ & Hshows).
    { vm_compute. repeat split; discriminate. }
    exists k, roi. done.
  - destruct (get_roi_inside_or_throws frame roi_w roi_h topLeft_x topLeft_y w)
      as (k & _ & _ & _ & Hout).
    { unfold Mat_valid; simpl; lia. }
    apply Hout. vm_compute. intros (_ & _ & H & _). by apply H.
Defined.

(* ===================================================================== *)
(** * What the shift columns measure *)
(* ===================================================================== *)

Section Shift.
Variable matchTemplate_prim : Image -> Image -> Result (Image * Image * Mat1f).
Variable minMaxLoc_prim : Mat1f -> Result MinMax.

(** X10.  With the compiled-in geometry the template rectangle is centred
    in the frame, so the shifts [get_results] answers are the displacement
    of the match from where the template was cut: column shift
    [maxLoc.x - 300], row shift [maxLoc.y - 208], for every match location
    inside the result map.  Both are zero exactly at the template's own
    origin, and they stay within 300 columns and 208 rows. *)
Theorem shift_is_displacement_from_origin frame roi w w' a :
  Mat_valid (heap w) roi →
  get_results matchTemplate_prim minMaxLoc_prim frame roi
    frameWidth frameHeight roi_w roi_h w = (w', Ok a) →
  0 <= x (match_loc a) <= frameWidth - roi_w →
  0 <= y (match_loc a) <= frameHeight - roi_h →
  shift_col a = x (match_loc a) - topLeft_x ∧
  shift_row a = y (match_loc a) - topLeft_y ∧
  - 300 <= shift_col a <= 300 ∧ - 208 <= shift_row a <= 208 ∧
  (shift_col a = 0 ∧ shift_row a = 0 ↔
   x (match_loc a) = topLeft_x ∧ y (match_loc a) = topLeft_y).
Proof.
  intros Hroi Hrun Hx Hy.
  destruct (get_results_run matchTemplate_prim minMaxLoc_prim frame roi
              frameWidth frameHeight roi_w roi_h w Hroi) as [k Hrun'].
  rewrite Hrun' in Hrun. injection Hrun as _ Ha.
  destruct (matchTemplate_prim _ _) as [[[I' T'] result]| |]; try discriminate.
  simpl in Ha. destruct (minMaxLoc_prim result) as [mm| |]; try discriminate.
  injection Ha as <-. cbn [LocAndConf_of match_loc shift_col shift_row] in *.
  unfold frameWidth, frameHeight, roi_w, roi_h, topLeft_x, topLeft_y in *.
  unfold int_sub, int_add, int_div.
  change (128 ÷ 2) with 64. change (728 ÷ 2) with 364. change (544 ÷ 2) with 272.
  rewrite (wrap_int_id 64), (wrap_int_id 364), (wrap_int_id 272)
    by (unfold in_int, INT_MIN, INT_MAX; lia).
  rewrite !wrap_int_id by (rewrite ?wrap_int_id; unfold in_int, INT_MIN, INT_MAX; lia).
  lia.
Qed.
End Shift.

(** X10 with a matcher that reports its best score at column 310, row 200:
    the template moved 10 columns to the right and 8 rows up. *)
Lemma shift_is_displacement_from_origin_witness :
  let w := {| heap := [Examples.frame_flat; Examples.frame_step];
              out_dirs := ∅; out_files := ∅; match_calls := [] |} in
  let r := get_results (Examples.matchTemplate_stub (float_of_int 1))
                       (Examples.minMaxLoc_stub {| x := 310; y := 200 |})
                       (Examples.header_of Examples.frame_flat 0)
                       (Examples.header_of Examples.frame_step 1)
                       frameWidth frameHeight roi_w roi_h w in
  ∃ a, r.2 = Ok a ∧ shift_col a = 10 ∧ shift_row a = -8.
Proof.
  intros w r.
  destruct r as [w' [a| |]] eqn:Hr; [|vm_compute in Hr; discriminate..].
  exists a. split; [done|].
  destruct (shift_is_displacement_from_origin
              (Examples.matchTemplate_stub (float_of_int 1))
              (Examples.minMaxLoc_stub {| x := 310; y := 200 |})
              (Examples.header_of Examples.frame_flat 0)
              (Examples.header_of Examples.frame_step 1) w w' a) as (Hc & Hr' & _).
  - unfold Mat_valid; simpl; lia.
  - exact Hr.
  - vm_compute in Hr. injection Hr as _ <-. vm_compute. split; discriminate.
  - vm_compute in Hr. injection Hr as _ <-. vm_compute. split; discriminate.
  - vm_compute in Hr. injection Hr as _ <-. rewrite Hc, Hr'. done.
Defined.

(* ===================================================================== *)
(** * The comparator of the sort *)
(* ===================================================================== *)

Lemma no_digit_run s : first_digit_run s = [] → find_digit s = None.
Proof.
  induction s as [|c r IH]; [done|]. cbn [first_digit_run find_digit take_digits].
  destruct (is_digit c); [done|]. intros Hrun. by rewrite IH.
Qed.

(** The two steps of reading an index: the suffix from the first digit, and
    the number [stoi] reads in it. *)
Lemma substr_at_first_digit name :
  Z.of_nat (String.length name) < npos →
  match spec_index name with
  | Some k =>
      ∃ num, substr name (find_first_of_digit name) = Ok num ∧
             stoi num = if k <=? INT_MAX then Ok k else Throw (out_of_range "stoi")
  | None =>
      substr name (find_first_of_digit name) = Throw (out_of_range "basic_string::substr")
  end.
Proof.
  intros Hlen. unfold spec_index.
  destruct (first_digit_run name) as [|d ds] eqn:Hrun.
  - unfold find_first_of_digit, substr. rewrite no_digit_run by done.
    by replace (Z.of_nat (String.length name) <? npos) with true
      by (symmetry; by apply Z.ltb_lt).
  - destruct (find_digit_run name) as (p & c & r & Hp & Hle & Hdrop & Hc & Htd);
      [by rewrite Hrun|].
    exists (String c r). unfold find_first_of_digit, substr. rewrite Hp.
    replace (Z.of_nat (String.length name) <? Z.of_nat p) with false
      by (symmetry; apply Z.ltb_ge; lia).
    rewrite Nat2Z.id, Hdrop. split; [done|].
    rewrite stoi_digits by done. by rewrite Htd, Hrun.
Qed.

(** X11.  What the comparator of the sort does on every pair of names.  It
    returns only when both names have a digit and both first runs of digits
    denote an [int], and then it compares the two numbers; a name without a
    digit makes it throw [std::out_of_range] from [substr] (for either
    argument, and before any number is read), a run that is too large makes
    it throw [std::out_of_range] from [stoi].  It never throws
    [std::invalid_argument]. *)
Theorem frame_less_outcome a b :
  Z.of_nat (String.length a) < npos →
  Z.of_nat (String.length b) < npos →
  frame_less a b =
    match spec_index a, spec_index b with
    | Some ka, Some kb =>
        if (ka <=? INT_MAX) && (kb <=? INT_MAX) then Ok (ka <? kb)
        else Throw (out_of_range "stoi")
    | _, _ => Throw (out_of_range "basic_string::substr")
    end.
Proof.
  intros Ha Hb.
  pose proof (substr_at_first_digit a Ha) as Hsa.
  pose proof (substr_at_first_digit b Hb) as Hsb.
  unfold frame_less.
  destruct (spec_index a) as [ka|]; [|by rewrite Hsa].
  destruct Hsa as (num_a & -> & Hia). cbn [mbind Result_bind].
  destruct (spec_index b) as [kb|]; [|by rewrite Hsb].
  destruct Hsb as (num_b & -> & Hib). cbn [mbind Result_bind].
  rewrite Hia, Hib. by destruct (ka <=? INT_MAX), (kb <=? INT_MAX).
Qed.

(** X11 on a frame name and a name without a digit, in both orders. *)
Lemma frame_less_outcome_witness :
  frame_less "frame_2.png" "notes.txt" = Throw (out_of_range "basic_string::substr") ∧
  frame_less "notes.txt" "frame_2.png" = Throw (out_of_range "basic_string::substr") ∧
  frame_less "frame_2.png" "frame_10.png" = Ok true.
Proof.
  split; [|split].
  - rewrite (frame_less_outcome "frame_2.png" "notes.txt"); [reflexivity|done|done].
  - rewrite (frame_less_outcome "notes.txt" "frame_2.png"); [reflexivity|done|done].
  - rewrite (frame_less_outcome "frame_2.png" "frame_10.png"); [reflexivity|done|done].
Defined.

(** X12.  On the names of a folder that all have a digit and an index that
    is an [int], the comparator always returns, and it is a strict weak
    ordering, which is what [std::sort] requires of it: no name is less than
    itself, less-than is transitive, and so is being neither less nor
    greater. *)
Theorem frame_less_strict_weak_order names :
  indexed names →
  (∀ a b, a ∈ names → b ∈ names → ∃ r, frame_less a b = Ok r) ∧
  (∀ a, a ∈ names → frame_less a a = Ok false) ∧
  (∀ a b c, a ∈ names → b ∈ names → c ∈ names →
     frame_less a b = Ok true → frame_less b c = Ok true → frame_less a c = Ok true) ∧
  (∀ a b c, a ∈ names → b ∈ names → c ∈ names →
     frame_less a b = Ok false → frame_less b a = Ok false →
     frame_less b c = Ok false → frame_less c b = Ok false →
     frame_less a c = Ok false ∧ frame_less c a = Ok false).
Proof.
  intros Hidx.
  assert (Hless : ∀ a b, a ∈ names → b ∈ names → frame_less a b = Ok (idx a <? idx b)).
  { intros a b Ha Hb.
    destruct (indexed_idx names a Hidx Ha) as [Hka Hla].
    destruct (indexed_idx names b Hidx Hb) as [Hkb Hlb].
    by apply frame_less_spec. }
  split; [|split; [|split]].
  - intros a b Ha Hb. eexists. by apply Hless.
  - intros a Ha. rewrite Hless by done. f_equal. lia.
  - intros a b c Ha Hb Hc. rewrite !Hless by done.
    intros [= Hab] [= Hbc]. f_equal. lia.
  - intros a b c Ha Hb Hc. rewrite !Hless by done.
    intros [= Hab] [= Hba] [= Hbc] [= Hcb]. split; f_equal; lia.
Qed.

(** X12 on the three frame names of the examples. *)
Lemma frame_less_strict_weak_order_witness :
  (∀ a, a ∈ Examples.names_3 → frame_less a a = Ok false) ∧
  (∀ a b c, a ∈ Examples.names_3 → b ∈ Examples.names_3 → c ∈ Examples.names_3 →
     frame_less a b = Ok true → frame_less b c = Ok true → frame_less a c = Ok true).
Proof.
  destruct (frame_less_strict_weak_order Examples.names_3) as (_ & Hirr & Htrans & _).
  - apply indexedb_sound. vm_compute; reflexivity.
  - split; [exact Hirr|exact Htrans].
Defined.

Lemma first_digit_run_digits s : Forall (λ c, is_digit c = true) (first_digit_run s).
Proof.
  induction s as [|c r IH]; [constructor|]. cbn [first_digit_run].
  destruct (is_digit c) eqn:Hc; [apply take_digits_digits|done].
Qed.

(** X15.  Whenever the comparator reads an index in a name, it is the
    number the first run of digits of the name denotes, it is not negative
    and it is an [int]: a sign in front of the digits is never read (the
    suffix handed to [stoi] starts at a digit), so frame_-5.png has the
    index 5. *)
Theorem frame_index_sound name k :
  Z.of_nat (String.length name) < npos →
  frame_index name = Ok k →
  spec_index name = Some k ∧ 0 <= k <= INT_MAX.
Proof.
  intros Hlen Hrun. destruct (spec_index name) as [k'|] eqn:Hspec.
  - rewrite (frame_index_spec name k' Hspec) in Hrun.
    destruct (k' <=? INT_MAX) eqn:Hle; [|done]. injection Hrun as <-.
    split; [done|]. split; [|by apply Z.leb_le].
    unfold spec_index in Hspec. destruct (first_digit_run name) as [|d ds] eqn:Hd; [done|].
    injection Hspec as <-. apply decimal_value_acc_nonneg; [|done].
    rewrite <- Hd. apply first_digit_run_digits.
  - exfalso. unfold spec_index in Hspec.
    destruct (first_digit_run name) as [|d ds] eqn:Hd; [|done].
    unfold frame_index, find_first_of_digit, substr in Hrun.
    rewrite no_digit_run in Hrun by done.
    by replace (Z.of_nat (String.length name) <? npos) with true in Hrun
      by (symmetry; by apply Z.ltb_lt).
Qed.

(** X15 on a name with a minus sign before its digits. *)
Lemma frame_index_sound_witness :
  frame_index "frame_-5.png" = Ok 5 ∧
  spec_index "frame_-5.png" = Some 5 ∧ 0 <= 5 <= INT_MAX.
Proof.
  split; [reflexivity|]. apply (frame_index_sound "frame_-5.png" 5); [done|reflexivity].
Defined.

(* ===================================================================== *)
(** * The sharpness meter: brightness and sign *)
(* ===================================================================== *)

(** ** A brightness offset *)

Lemma sobel_at_offset img img' d kx ky r c :
  offset_by d img img' → 0 <= r < rows img → 0 <= c < cols img →
  (kx = [-1; 0; 1] ∨ ky = [-1; 0; 1]) →
  (kx = [-1; 0; 1] ∨ kx = [1; 2; 1]) → (ky = [-1; 0; 1] ∨ ky = [1; 2; 1]) →
  sobel_at img' kx ky r c = sobel_at img kx ky r c.
Proof.
  intros (Hrows & Hcols & Hd) Hr Hc Hdk Hkx Hky.
  assert (Hpix : ∀ i j, -1 <= i <= 1 → -1 <= j <= 1 →
    pixel img' (borderInterpolate (r + i) (rows img)) (borderInterpolate (c + j) (cols img)) =
    pixel img (borderInterpolate (r + i) (rows img)) (borderInterpolate (c + j) (cols img)) + d).
  { intros i j Hi Hj. apply Hd; apply borderInterpolate_range; lia. }
  unfold sobel_at. rewrite Hrows, Hcols.
  destruct Hkx as [-> | ->], Hky as [-> | ->]; try (destruct Hdk; discriminate);
    cbn [seqZ Z.to_nat Pos.to_nat Pos.iter_op seq fmap list_fmap zip zip_with mbind list_bind
         app foldr Z.of_nat Z.add Pos.of_succ_nat Pos.succ];
    simpl; rewrite !Hpix by lia; lia.
Qed.

Lemma Sobel_offset img img' d dx dy :
  offset_by d img img' → (dx = 1 ∧ dy = 0 ∨ dx = 0 ∧ dy = 1) →
  Sobel img' dx dy = Sobel img dx dy.
Proof.
  intros Hoff Hdxy. pose proof Hoff as (Hrows & Hcols & _).
  unfold Sobel. rewrite Hrows, Hcols. f_equal.
  apply grid_ext. intros r c Hr Hc. f_equal.
  apply (sobel_at_offset img img' d); [done|done|done|..];
    destruct Hdxy as [[-> ->]|[-> ->]]; simpl; auto.
Qed.

(** X13.  The MIG does not see a brightness offset: two frames of the same
    size of which one is the other with the same amount added at every
    pixel have the same MIG, bit for bit. *)
Theorem mig_frame_offset_invariant img img' d :
  offset_by d img img' → mig_frame img' = mig_frame img.
Proof.
  intros Hoff. pose proof Hoff as (Hrows & Hcols & _).
  unfold mig_frame, Image_empty.
  rewrite (Sobel_offset img img' d 1 0), (Sobel_offset img img' d 0 1) by auto.
  by rewrite Hrows, Hcols.
Qed.

(** X13 on the step frame and the same frame 5 levels brighter. *)
Lemma mig_frame_offset_invariant_witness :
  mig_frame Inputs.frame_step_brighter = mig_frame Examples.frame_step.
Proof.
  apply (mig_frame_offset_invariant Examples.frame_step Inputs.frame_step_brighter 5).
  split; [reflexivity|]. split; [reflexivity|].
  intros r c Hr Hc. simpl in Hr, Hc.
  assert (r = 0) as -> by lia.
  assert (c = 0 ∨ c = 1 ∨ c = 2 ∨ c = 3 ∨ c = 4 ∨ c = 5 ∨ c = 6 ∨ c = 7)
    as [->|[->|[->|[->|[->|[->|[->| ->]]]]]]] by lia; reflexivity.
Defined.

(** ** The sign of what the rounding returns *)

Lemma shr_1_nonneg mrs : 0 <= shr_m mrs → 0 <= shr_m (shr_1 mrs).
Proof. destruct mrs as [[|[p|p|]|p] r s]; simpl; lia. Qed.

Lemma iter_pos_shr_1_nonneg p : ∀ mrs,
  0 <= shr_m mrs → 0 <= shr_m (SpecFloat.iter_pos shr_1 p mrs).
Proof.
  induction p as [p IH|p IH|]; intros mrs Hm; simpl.
  - apply IH, IH. by apply shr_1_nonneg.
  - by apply IH, IH.
  - by apply shr_1_nonneg.
Qed.

Lemma shr_fexp_nonneg prec emax m e l :
  0 <= m → 0 <= shr_m (shr_fexp prec emax m e l).1.
Proof.
  intros Hm. unfold shr_fexp, shr.
  assert (Hrec : 0 <= shr_m (shr_record_of_loc m l)) by (by destruct l as [|[]]).
  destruct (fexp prec emax (Zdigits2 m + e) - e) as [|p|p]; simpl; try done.
  by apply iter_pos_shr_1_nonneg.
Qed.

Lemma round_nearest_even_nonneg m l : 0 <= m → 0 <= round_nearest_even m l.
Proof. intros Hm. destruct l as [|[]]; simpl; try done; [destruct (Z.even m)|]; lia. Qed.

(** Rounding a magnitude that is not negative gives a zero, a number or an
    infinity of the sign asked for, never a NaN. *)
Lemma binary_round_aux_sign prec emax s m e l :
  0 <= m → has_sign s (binary_round_aux prec emax s m e l) = true.
Proof.
  intros Hm. unfold binary_round_aux.
  pose proof (shr_fexp_nonneg prec emax m e l Hm) as H1.
  destruct (shr_fexp prec emax m e l) as [mrs' e']. simpl in H1.
  pose proof (shr_fexp_nonneg prec emax _ e' loc_Exact
                (round_nearest_even_nonneg _ (loc_of_shr_record mrs') H1)) as H2.
  destruct (shr_fexp prec emax _ e' loc_Exact) as [mrs'' e'']. simpl in H2.
  destruct (shr_m mrs'') as [|p|p]; [| |lia].
  - simpl. by destruct s.
  - destruct (e'' <=? emax - prec); simpl; by destruct s.
Qed.

Lemma binary_normalize_sign prec emax m e :
  0 <= m → not_negative (binary_normalize prec emax m e false) = true.
Proof.
  intros Hm. destruct m as [|p|p]; [done| |lia].
  unfold binary_normalize, binary_round.
  destruct (shl_align _ _ _) as [mz ez]. by apply binary_round_aux_sign.
Qed.

Lemma binary_normalize_not_nan prec emax m e :
  binary_normalize prec emax m e false ≠ S754_nan.
Proof.
  destruct m as [|p|p]; [done| |]; unfold binary_normalize, binary_round;
    destruct (shl_align _ _ _) as [mz ez]; intros Hnan.
  - pose proof (binary_round_aux_sign prec emax false (Zpos mz) ez loc_Exact) as H.
    rewrite Hnan in H. by specialize (H ltac:(lia)).
  - pose proof (binary_round_aux_sign prec emax true (Zpos mz) ez loc_Exact) as H.
    rewrite Hnan in H. by specialize (H ltac:(lia)).
Qed.

Lemma SFmul_square_sign prec emax x :
  x ≠ S754_nan → not_negative (SFmul prec emax x x) = true.
Proof.
  intros Hx. destruct x as [s|s| |s m e]; [by destruct s|by destruct s|done|].
  unfold SFmul. replace (xorb s s) with false by (by destruct s).
  by apply binary_round_aux_sign.
Qed.

Lemma SFadd_sign prec emax x y :
  not_negative x = true → not_negative y = true →
  not_negative (SFadd prec emax x y) = true.
Proof.
  destruct x as [[]|[]| |[] mx ex], y as [[]|[]| |[] my ey]; try done.
  intros _ _. unfold SFadd. apply binary_normalize_sign. simpl. lia.
Qed.

Lemma SFsqrt_sign prec emax x :
  not_negative x = true → not_negative (SFsqrt prec emax x) = true.
Proof.
  destruct x as [[]|[]| |[] mx ex]; try done. intros _.
  unfold SFsqrt, SFsqrt_core_binary.
  set (m' := match ex - 2 * _ with Z0 => _ | Zpos _ => _ | Zneg _ => _ end).
  assert (Hm' : 0 <= m').
  { unfold m'. destruct (ex - 2 * _) as [|p|p]; [lia| |lia].
    apply Z.shiftl_nonneg. lia. }
  pose proof (Z.sqrtrem_spec m' Hm') as Hspec.
  destruct (Z.sqrtrem m') as [q r]. apply binary_round_aux_sign. lia.
Qed.

Lemma SFdiv_sign prec emax x my ey :
  not_negative x = true →
  not_negative (SFdiv prec emax x (S754_finite false my ey)) = true.
Proof.
  destruct x as [[]|[]| |[] mx ex]; try done. intros _.
  unfold SFdiv, SFdiv_core_binary.
  set (m' := match ex - ey - _ with Z0 => _ | Zpos _ => _ | Zneg _ => _ end).
  assert (Hm' : 0 <= m').
  { unfold m'. destruct (ex - ey - _) as [|p|p]; [lia| |lia].
    apply Z.shiftl_nonneg. lia. }
  pose proof (Z.div_pos m' (Zpos my) Hm' ltac:(lia)) as Hq.
  unfold Z.div in Hq. destruct (Z.div_eucl m' (Zpos my)) as [q r].
  by apply binary_round_aux_sign.
Qed.

Lemma double_of_float_sign x :
  not_negative x = true → not_negative (double_of_float x) = true.
Proof.
  destruct x as [[]|[]| |[] mx ex]; try done. intros _.
  unfold double_of_float. by apply binary_normalize_sign.
Qed.

(** ** The magnitudes and their sum *)

Lemma magnitude_sign a b :
  Forall (λ v, v ≠ S754_nan) (fpix a) → Forall (λ v, v ≠ S754_nan) (fpix b) →
  Forall (λ v, not_negative v = true) (fpix (magnitude a b)).
Proof.
  unfold magnitude. simpl. generalize (fpix b).
  induction (fpix a) as [|u l IH]; intros [|u' l'] Ha Hb; simpl; try constructor.
  - inversion Ha; inversion Hb; subst.
    apply SFsqrt_sign, SFadd_sign; by apply SFmul_square_sign.
  - apply IH; [by inversion Ha|by inversion Hb].
Qed.

Lemma Sobel_not_nan src dx dy : Forall (λ v, v ≠ S754_nan) (fpix (Sobel src dx dy)).
Proof.
  unfold Sobel. simpl. apply grid_Forall. intros r c _ _.
  apply binary_normalize_not_nan.
Qed.

Lemma sum_sign m :
  Forall (λ v, not_negative v = true) (fpix m) → not_negative (sum m) = true.
Proof.
  unfold sum. assert (Hacc : not_negative (S754_zero false) = true) by done.
  revert Hacc. generalize (S754_zero false).
  induction (fpix m) as [|u l IH]; intros acc Hacc H; [done|].
  inversion H; subst. simpl. apply IH; [|done].
  apply SFadd_sign; [done|by apply double_of_float_sign].
Qed.

(** X14.  The MIG of a frame whose pixel count is an [int] is never
    negative and never a NaN: it is [+0], a positive number or [+inf],
    whatever the pixels are (for an empty frame it is the [1.0] of the
    early return). *)
Theorem mig_frame_not_negative frame :
  0 <= rows frame * cols frame <= INT_MAX →
  not_negative (mig_frame frame) = true.
Proof.
  intros Hcount. unfold mig_frame, Image_empty.
  destruct (rows frame * cols frame =? 0) eqn:Hz.
  - apply binary_normalize_sign. unfold EXIT_FAILURE. lia.
  - apply Z.eqb_neq in Hz. unfold int_mul.
    rewrite wrap_int_id by (unfold in_int, INT_MIN, INT_MAX in *; lia).
    destruct (double_of_int_pos (rows frame * cols frame)) as (m & e & ->); [lia|].
    apply SFdiv_sign, sum_sign, magnitude_sign; apply Sobel_not_nan.
Qed.

(** X14 on the step frame. *)
Lemma mig_frame_not_negative_witness :
  not_negative (mig_frame Examples.frame_step) = true.
Proof.
  apply (mig_frame_not_negative Examples.frame_step). vm_compute. split; discriminate.
Defined.

(* ===================================================================== *)
(** * The sort and the table together *)
(* ===================================================================== *)

Section Compose.
Variable matchTemplate_prim : Image -> Image -> Result (Image * Image * Mat1f).
Variable minMaxLoc_prim : Mat1f -> Result MinMax.
Variable std_sort : (string -> string -> Result bool) -> list string -> Result (list string).

End Compose.


(* ===================================================================== *)
(** * [std::sort] on a short vector *)
(* ===================================================================== *)

(** ** Insertion by key *)

Section InsertBy.
Context {A : Type}.
Variable key : A -> Z.

Lemma insert_by_app x a1 a2 :
  Forall (λ y, key y <= key x) a1 → Forall (λ y, key x < key y) a2 →
  insert_by key x (a1 ++ a2) = a1 ++ x :: a2.
Proof.
  intros H1 H2. induction H1 as [|z a1 Hz H1 IH]; simpl.
  - destruct H2 as [|y a2 Hy H2]; simpl; [done|].
    by replace (key x <? key y) with true by (symmetry; by apply Z.ltb_lt).
  - replace (key x <? key z) with false by (symmetry; apply Z.ltb_ge; lia).
    by rewrite IH.
Qed.

Lemma insert_by_Permutation x l : insert_by key x l ≡ₚ x :: l.
Proof.
  induction l as [|y l IH]; simpl; [done|].
  destruct (key x <? key y); [done|]. rewrite IH. apply perm_swap.
Qed.

Lemma insert_by_length x l : length (insert_by key x l) = S (length l).
Proof. by rewrite insert_by_Permutation. Qed.

Lemma insert_by_sorted x l :
  StronglySorted (λ a b, key a <= key b) l →
  StronglySorted (λ a b, key a <= key b) (insert_by key x l).
Proof.
  induction 1 as [|y l Hl IH Hy]; simpl; [repeat constructor|].
  destruct (key x <? key y) eqn:Hxy.
  - apply Z.ltb_lt in Hxy. constructor; [by constructor|].
    constructor; [lia|]. eapply Forall_impl; [exact Hy|]. simpl. intros z Hz. lia.
  - apply Z.ltb_ge in Hxy. constructor; [done|].
    rewrite insert_by_Permutation. by constructor.
Qed.

(** Insertion is stable: among the elements of one key, [x] comes last. *)
Lemma insert_by_filter x l k :
  StronglySorted (λ a b, key a <= key b) l →
  filter (λ n, key n = k) (insert_by key x l) =
  filter (λ n, key n = k) l ++ filter (λ n, key n = k) [x].
Proof.
  induction 1 as [|y l Hl IH Hy]; simpl; [done|].
  destruct (key x <? key y) eqn:Hxy.
  - apply Z.ltb_lt in Hxy.
    destruct (decide (key x = k)) as [Hk|Hk].
    + assert (Hnone : filter (λ n, key n = k) (y :: l) = []).
      { apply filter_none. constructor; [lia|].
        eapply Forall_impl; [exact Hy|]. simpl. intros z Hz. lia. }
      rewrite (filter_cons_True _ x) by done. rewrite Hnone.
      by rewrite (filter_cons_True _ x [])  by done.
    + rewrite (filter_cons_False _ x) by done.
      rewrite (filter_cons_False _ x []) by done. by rewrite app_nil_r.
  - destruct (decide (key y = k)) as [Hk|Hk].
    + rewrite !(filter_cons_True _ y) by done. by rewrite IH.
    + rewrite !(filter_cons_False _ y) by done. by rewrite IH.
Qed.

Lemma insertion_sorted_by_snoc l x :
  insertion_sorted_by key (l ++ [x]) = insert_by key x (insertion_sorted_by key l).
Proof. unfold insertion_sorted_by. by rewrite foldl_snoc. Qed.

Lemma insertion_sorted_by_Permutation l : insertion_sorted_by key l ≡ₚ l.
Proof.
  induction l as [|x l IH] using rev_ind; [done|].
  rewrite insertion_sorted_by_snoc, insert_by_Permutation, IH.
  by rewrite Permutation_cons_append.
Qed.

Lemma insertion_sorted_by_sorted l :
  StronglySorted (λ a b, key a <= key b) (insertion_sorted_by key l).
Proof.
  induction l as [|x l IH] using rev_ind; [constructor|].
  rewrite insertion_sorted_by_snoc. by apply insert_by_sorted.
Qed.

Lemma insertion_sorted_by_filter l k :
  filter (λ n, key n = k) (insertion_sorted_by key l) = filter (λ n, key n = k) l.
Proof.
  induction l as [|x l IH] using rev_ind; [done|].
  rewrite insertion_sorted_by_snoc, insert_by_filter by apply insertion_sorted_by_sorted.
  by rewrite IH, filter_app.
Qed.
End InsertBy.

(** ** libstdc++'s insertion sort is that insertion *)

Section ShortSort.
Context {A : Type}.
Variable comp : A -> A -> Result bool.
Variable key : A -> Z.
Variable dom : A -> Prop.
Hypothesis comp_key : ∀ a b, dom a → dom b → comp a b = Ok (key a <? key b).

(** The [while] of [__unguarded_linear_insert], with the hole behind [a]:
    it stops in front of the elements of [a] that are larger than [val],
    provided [a] has an element that is not larger. *)
Lemma unguarded_linear_insert_loop_spec val a : ∀ hole t fuel,
  (length a < fuel)%nat → dom val → Forall dom a →
  Exists (λ z, key z <= key val) a →
  ∃ a1 z a2,
    a = a1 ++ z :: a2 ∧ key z <= key val ∧ Forall (λ y, key val < key y) a2 ∧
    GnuSort.unguarded_linear_insert_loop comp fuel (a ++ hole :: t) val (length a)
      = Ok (a1 ++ z :: val :: a2 ++ t).
Proof.
  induction a as [|z a IH] using rev_ind; intros hole t fuel Hfuel Hval Hdom Hex.
  { by apply Exists_nil in Hex. }
  apply Forall_app in Hdom as [Hdom Hz]. rewrite Forall_singleton in Hz.
  rewrite length_app in *. simpl in *.
  destruct fuel as [|fuel]; [lia|].
  replace (length a + 1)%nat with (S (length a)) by lia.
  cbn [GnuSort.unguarded_linear_insert_loop].
  assert (Hget : GnuSort.aget ((a ++ [z]) ++ hole :: t) (length a) = Ok z).
  { unfold GnuSort.aget. rewrite <- (assoc_L (++)). simpl.
    by rewrite list_lookup_middle. }
  rewrite Hget. cbn [mbind Result_bind]. rewrite comp_key by done. cbn [mbind Result_bind].
  destruct (key val <? key z) eqn:Hlt.
  - apply Z.ltb_lt in Hlt.
    assert (Hex' : Exists (λ z, key z <= key val) a).
    { apply Exists_app in Hex as [Hex|Hex]; [done|].
      apply Exists_cons in Hex as [Hex|Hex]; [lia|by apply Exists_nil in Hex]. }
    assert (Hv : <[S (length a) := z]> ((a ++ [z]) ++ hole :: t) = a ++ z :: z :: t).
    { rewrite <- (assoc_L (++)). simpl.
      replace (S (length a)) with (length a + 1)%nat by lia.
      by rewrite insert_app_r. }
    rewrite Hv.
    destruct (IH z (z :: t) fuel) as (a1 & z' & a2 & Ha & Hz' & Ha2 & Hrun);
      [lia|done|done|done|].
    exists a1, z', (a2 ++ [z]). rewrite Hrun, Ha.
    split; [by rewrite <- !(assoc_L (++))|]. split; [done|].
    split; [apply Forall_app; split; [done|by apply Forall_singleton]|].
    by rewrite <- !(assoc_L (++)).
  - apply Z.ltb_ge in Hlt.
    exists a, z, []. split; [done|]. split; [done|]. split; [constructor|].
    rewrite <- (assoc_L (++)). simpl.
    replace (S (length a)) with (length a + 1)%nat by lia.
    by rewrite insert_app_r.
Qed.

(** One step of [__insertion_sort] over a sorted prefix. *)
Lemma insertion_step_spec pre x t :
  pre ≠ [] → StronglySorted (λ a b, key a <= key b) pre →
  Forall dom pre → dom x →
  GnuSort.insertion_step comp 0 (pre ++ x :: t) (length pre)
    = Ok (insert_by key x pre ++ t).
Proof.
  intros Hne Hsorted Hdom Hx. destruct pre as [|f pre']; [done|].
  unfold GnuSort.insertion_step.
  assert (Hget : GnuSort.aget ((f :: pre') ++ x :: t) (length (f :: pre')) = Ok x).
  { unfold GnuSort.aget. by rewrite list_lookup_middle. }
  rewrite Hget. cbn [mbind Result_bind].
  change (GnuSort.aget ((f :: pre') ++ x :: t) 0) with (Ok f). cbn [mbind Result_bind].
  inversion Hdom as [|? ? Hf Hdom']; subst.
  rewrite comp_key by done. cbn [mbind Result_bind].
  destruct (key x <? key f) eqn:Hlt.
  - cbn [insert_by]. rewrite Hlt. rewrite Nat.sub_0_r, drop_0, take_0.
    rewrite take_app_length.
    replace (S (length (f :: pre'))) with (length ((f :: pre') ++ [x]))
      by (rewrite length_app; simpl; lia).
    rewrite (cons_middle x (f :: pre') t), (assoc_L (++)), drop_app_length. done.
  - apply Z.ltb_ge in Hlt. unfold GnuSort.unguarded_linear_insert.
    rewrite Hget. cbn [mbind Result_bind].
    destruct (unguarded_linear_insert_loop_spec x (f :: pre') x t
                (S (S (length (f :: pre')))))
      as (a1 & z & a2 & Ha & Hz & Ha2 & Hrun);
      [lia|done|done|by apply Exists_cons_hd|].
    rewrite Hrun. f_equal. rewrite Ha.
    rewrite (cons_middle z a1 a2), (assoc_L (++)).
    rewrite insert_by_app; [by rewrite <- !(assoc_L (++))| |done].
    rewrite Ha in Hsorted.
    apply Forall_app. split; [|by apply Forall_singleton].
    apply Forall_forall. intros y Hy.
    pose proof (StronglySorted_app_1_elem_of _ a1 (z :: a2) y z Hsorted Hy) as Hle.
    simpl in Hle. specialize (Hle ltac:(by left)). lia.
Qed.

(** The [for] of [__insertion_sort]. *)
Lemma insertion_sort_loop_spec rest : ∀ pre,
  pre ≠ [] → StronglySorted (λ a b, key a <= key b) pre →
  Forall dom pre → Forall dom rest →
  GnuSort.for_range (GnuSort.insertion_step comp 0) (pre ++ rest)
    (length pre) (length rest)
    = Ok (foldl (λ acc x, insert_by key x acc) pre rest).
Proof.
  induction rest as [|x rest IH]; intros pre Hne Hsorted Hpre Hrest.
  { simpl. by rewrite app_nil_r. }
  inversion Hrest as [|? ? Hx Hrest']; subst.
  cbn [length GnuSort.for_range foldl].
  rewrite insertion_step_spec by done. cbn [mbind Result_bind].
  rewrite <- (insert_by_length key x pre).
  apply IH; [|by apply insert_by_sorted| |done].
  - intros Hnil. pose proof (insert_by_length key x pre) as Hlen.
    rewrite Hnil in Hlen. done.
  - rewrite insert_by_Permutation. by constructor.
Qed.

(** [std::sort] on at most 16 elements is the stable insertion sort. *)
Lemma sort_short v :
  (length v <= 16)%nat → Forall dom v →
  GnuSort.sort comp v = Ok (insertion_sorted_by key v).
Proof.
  intros Hlen Hdom. unfold GnuSort.sort.
  destruct v as [|f rest]; [done|].
  rewrite decide_False by done.
  assert (Hloop : ∀ d, GnuSort.introsort_loop comp d (f :: rest) 0 (length (f :: rest))
                       = Ok (f :: rest)).
  { intros d. destruct d; cbn [GnuSort.introsort_loop];
      rewrite decide_False; try done; unfold GnuSort.S_threshold; lia. }
  rewrite Hloop. cbn [mbind Result_bind].
  unfold GnuSort.final_insertion_sort.
  rewrite decide_False by (unfold GnuSort.S_threshold; lia).
  unfold GnuSort.insertion_sort. rewrite decide_False by done.
  inversion Hdom as [|? ? Hf Hrest]; subst.
  replace (length (f :: rest) - 1)%nat with (length rest) by (simpl; lia).
  apply (insertion_sort_loop_spec rest [f]); try done.
  - repeat constructor.
  - by constructor.
Qed.
End ShortSort.

(** X17.  With [std::sort] as libstdc++ implements it, the names of a
    folder of at most 16 entries, each with an index that is an [int], are
    sorted by insertion: the sort returns, the output holds the same names
    in ascending order of their index, and names of the same index keep the
    order they had in the directory listing.  (From 17 entries on the
    introsort partitions first, and the order among equal indices can
    change.) *)
Theorem FrameSequencer_short_folder_stable names :
  indexed names → (length names <= 16)%nat →
  ∃ out,
    FrameSequencer GnuSort.sort names = Ok out ∧
    names ≡ₚ out ∧
    StronglySorted (λ a b, idx a <= idx b) out ∧
    keeps_input_order names out.
Proof.
  intros Hidx Hlen. exists (insertion_sorted_by idx names).
  split; [|split; [|split]].
  - unfold FrameSequencer. apply (sort_short frame_less idx (λ n, n ∈ names)); [|done|].
    + intros a b Ha Hb.
      destruct (indexed_idx names a Hidx Ha) as [Hka Hla].
      destruct (indexed_idx names b Hidx Hb) as [Hkb Hlb].
      by apply frame_less_spec.
    + by apply Forall_forall.
  - by rewrite insertion_sorted_by_Permutation.
  - apply insertion_sorted_by_sorted.
  - intros k.
    assert (Hf : ∀ l, l ≡ₚ names →
              filter (λ n, spec_index n = Some k) l = filter (λ n, idx n = k) l).
    { intros l Hl. apply filter_ext_in. intros n Hn.
      destruct (indexed_idx names n Hidx) as [Hk _]; [by rewrite <- Hl|].
      rewrite Hk. naive_solver. }
    rewrite !Hf by (done || apply insertion_sorted_by_Permutation).
    apply insertion_sorted_by_filter.
Qed.

(** X17 on sixteen of the seventeen names of the examples (frame_0.png and
    frame_00.png have the same index and stay in their order). *)
Lemma FrameSequencer_short_folder_stable_witness :
  ∃ out,
    FrameSequencer GnuSort.sort (take 16 Examples.names_17) = Ok out ∧
    take 16 Examples.names_17 ≡ₚ out ∧
    StronglySorted (λ a b, idx a <= idx b) out ∧
    keeps_input_order (take 16 Examples.names_17) out.
Proof.
  apply (FrameSequencer_short_folder_stable (take 16 Examples.names_17)).
  - apply indexedb_sound. vm_compute; reflexivity.
  - vm_compute. lia.
Defined.
